(** * An Earley chart parser: shallow embedding of [earley-parser.py]

    The development follows the Python source method by method.  Python
    integers are [Z]; Python subscripting (with its wrap-around for
    negative indices and its [IndexError]) is written out; methods that
    mutate [self.chart] take the chart and return the new one inside a
    small exception monad.  The [print] calls that trace the run are left
    out: they change nothing the methods compute.  The grammar reader
    ([__init__], [from_file]) and the printers ([Rule.__str__],
    [ParseTree._to_string_visual]) work on text, a list of code points.
    [State.__str__], which only serves the trace, and [main], which only
    does input and output, are not modelled. *)

From stdpp Require Import base numbers list relations.

Set Warnings "-register-all".

(** ** Exceptions *)

(** [IndexError] is the only Python exception the engine can raise.
    [OutOfFuel] is not a Python exception: it marks a loop of the model that
    was given too little fuel.  The fuel the model gives its loops is shown
    to suffice: always for [complete] and for the construction of the chart,
    and for [_build_tree] on the charts of grammars that keep the reserved
    symbol out of their rule bodies.  The interpreter's own limits (memory,
    recursion depth) are not modelled. *)
Inductive exn := IndexError | OutOfFuel.

Inductive result (A : Type) : Type :=
| Ok (a : A)
| Raise (e : exn).
Arguments Ok {A} a.
Arguments Raise {A} e.

#[global] Instance exn_eq_dec : EqDecision exn.
Proof. solve_decision. Defined.

#[global] Instance result_eq_dec {A} `{EqDecision A} : EqDecision (result A).
Proof. solve_decision. Defined.

Definition bind {A B} (m : result A) (k : A -> result B) : result B :=
  match m with
  | Ok a => k a
  | Raise e => Raise e
  end.

Notation "'let*' x ':=' m 'in' k" := (bind m (fun x => k))
  (at level 10, x name, m at level 100, k at level 200).

(** ** Python strings and subscripting *)

(** A Python [str] is a sequence of Unicode code points. *)
Definition char := N.
Abbreviation str := (list char).

(** [py_index len i] resolves the subscript [i] of a sequence of length
    [len]: non-negative subscripts count from the front, negative ones from
    the back, anything else raises. *)
Definition py_index (len : nat) (i : Z) : result nat :=
  if (0 <=? i)%Z then
    if (i <? Z.of_nat len)%Z then Ok (Z.to_nat i) else Raise IndexError
  else
    if (- Z.of_nat len <=? i)%Z then Ok (Z.to_nat (Z.of_nat len + i))
    else Raise IndexError.

Definition of_option {A} (o : option A) : result A :=
  match o with
  | Some a => Ok a
  | None => Raise IndexError
  end.

(** [l[i]] *)
Definition getitem {A} (l : list A) (i : Z) : result A :=
  let* k := py_index (length l) i in of_option (l !! k).

(** ** Data model *)

Record Rule := mkRule { head : str; body : list str }.

Record State := mkState {
  rule : Rule;
  dot : Z;
  start : Z;
  backpointers : list (Z * Z)
}.

Inductive ParseTree := Node (symbol : str) (children : list ParseTree).

(** The dataclasses are frozen and compared by value. *)
#[global] Instance Rule_eq_dec : EqDecision Rule.
Proof. solve_decision. Defined.

#[global] Instance State_eq_dec : EqDecision State.
Proof. solve_decision. Defined.

(** [self.chart]: one list of states per input position. *)
Abbreviation Chart := (list (list State)).

(** [State.next_symbol] *)
Definition next_symbol (s : State) : result (option str) :=
  if (dot s <? Z.of_nat (length (body (rule s))))%Z then
    let* x := getitem (body (rule s)) (dot s) in Ok (Some x)
  else Ok None.

(** [State.is_complete] *)
Definition is_complete (s : State) : bool :=
  (Z.of_nat (length (body (rule s))) <=? dot s)%Z.

(** The state built in [scan] and [complete]: one more body symbol matched,
    its span appended to the backpointers. *)
Definition advance (s : State) (span : Z * Z) : State :=
  mkState (rule s) (dot s + 1) (start s) (backpointers s ++ [span]).

(** ** Chart insertion *)

(** [EarleyParser._add_to_chart] *)
Definition _add_to_chart (state : State) (position : Z) (chart : Chart)
  : result Chart :=
  if (Z.of_nat (length chart) <=? position)%Z then Ok chart
  else
    let* k := py_index (length chart) position in
    let* col := of_option (chart !! k) in
    if bool_decide (state ∈ col) then Ok chart
    else Ok (<[k := col ++ [state]]> chart).

(** ** Completion *)

(** What is left of a rule body after the dot; it bounds how often a state
    can still be advanced. *)
Definition remaining (s : State) : nat :=
  Z.to_nat (Z.of_nat (length (body (rule s))) - dot s).

Definition weight (col : list State) : nat :=
  foldr (fun s n => S (remaining s + n)) 0 col.

Definition loop_budget (col : list State) : nat := S (weight col).

(** The body of the [for s in self.chart[state.start]] loop. *)
Definition complete_step (state : State) (position : Z) (s : State)
  (chart : Chart) : result Chart :=
  if negb (is_complete s) then
    let* ns := next_symbol s in
    if bool_decide (ns = Some (head (rule state))) then
      _add_to_chart (advance s (start state, position)) position chart
    else Ok chart
  else Ok chart.

(** The loop itself.  Python iterates a list by index and looks at its
    length again at every step, so states appended to the column being read
    (which happens when [position] names the same column as [state.start])
    are visited too.  [cs] is the resolved column index, [k] the iterator's
    index. *)
Fixpoint complete_loop (fuel : nat) (state : State) (position : Z)
  (cs k : nat) (chart : Chart) : result Chart :=
  match fuel with
  | O => Raise OutOfFuel
  | S fuel' =>
    let* col := of_option (chart !! cs) in
    match col !! k with
    | None => Ok chart
    | Some s =>
      let* chart' := complete_step state position s chart in
      complete_loop fuel' state position cs (S k) chart'
    end
  end.

(** [EarleyParser.complete] *)
Definition complete (state : State) (position : Z) (chart : Chart)
  : result Chart :=
  if negb (is_complete state) then Ok chart
  else
    let* cs := py_index (length chart) (start state) in
    let* col := of_option (chart !! cs) in
    complete_loop (loop_budget col) state position cs 0 chart.

(** ** The engine *)

Section Engine.

(** [str.isupper] on one character, and the tokenizer
    [sentence.split() if sentence.strip() else []]: both come from Python's
    Unicode tables and are taken as parameters. *)
Variable isupper : char -> bool.
Variable split : str -> list str.

(** [x and x[0].isupper()] for an optional symbol [x]: [None] and the empty
    string are falsy. *)
Definition is_nonterminal (x : option str) : bool :=
  match x with
  | Some (c :: _) => isupper c
  | _ => false
  end.

(** [x] used as a condition, for an optional symbol. *)
Definition truthy (x : option str) : bool :=
  match x with
  | Some (_ :: _) => true
  | _ => false
  end.

Section Methods.

(** [self.rules]; [__init__] fills it once and nothing changes it later. *)
Variable rules : list Rule.

(** The [for rule in self.rules] loop of [predict]. *)
Fixpoint predict_loop (rs : list Rule) (next : str) (position : Z)
  (chart : Chart) : result Chart :=
  match rs with
  | [] => Ok chart
  | r :: rs' =>
    if bool_decide (head r = next) then
      let new_state := mkState r 0 position [] in
      let* chart1 := _add_to_chart new_state position chart in
      let* chart2 :=
        match body r with
        | [] => complete new_state position chart1
        | _ :: _ => Ok chart1
        end in
      predict_loop rs' next position chart2
    else predict_loop rs' next position chart
  end.

(** [EarleyParser.predict] *)
Definition predict (state : State) (position : Z) (chart : Chart)
  : result Chart :=
  let* ns := next_symbol state in
  if is_nonterminal ns then
    match ns with
    | Some next => predict_loop rules next position chart
    | None => Ok chart
    end
  else Ok chart.

(** [EarleyParser.scan] *)
Definition scan (state : State) (position : Z) (words : list str)
  (chart : Chart) : result Chart :=
  if (position <? Z.of_nat (length words))%Z then
    let* ns := next_symbol state in
    if truthy ns then
      let* w := getitem words position in
      if bool_decide (ns = Some w) then
        _add_to_chart (advance state (position, position + 1)%Z)
          (position + 1)%Z chart
      else Ok chart
    else Ok chart
  else Ok chart.

(** The body of the [while] loop of [parse]: dispatch on one state. *)
Definition process (state : State) (i : nat) (words : list str)
  (chart : Chart) : result Chart :=
  if negb (is_complete state) then
    let* ns := next_symbol state in
    if is_nonterminal ns then predict state (Z.of_nat i) chart
    else scan state (Z.of_nat i) words chart
  else complete state (Z.of_nat i) chart.

(** [while j < len(self.chart[i])]: the work list of column [i]. *)
Fixpoint while_loop (fuel : nat) (i j : nat) (words : list str)
  (chart : Chart) : result Chart :=
  match fuel with
  | O => Raise OutOfFuel
  | S fuel' =>
    let* col := of_option (chart !! i) in
    if j <? length col then
      let* state := of_option (col !! j) in
      let* chart' := process state i words chart in
      while_loop fuel' i (S j) words chart'
    else Ok chart
  end.

(** [for i in range(len(words) + 1)] *)
Fixpoint for_loop (fuel : nat) (range : list nat) (words : list str)
  (chart : Chart) : result Chart :=
  match range with
  | [] => Ok chart
  | i :: range' =>
    let* chart' := while_loop fuel i 0 words chart in
    for_loop fuel range' words chart'
  end.

(** ** Tree building *)

(** The test of the inner [for s in self.chart[end_pos]] loop. *)
Definition matches (symbol : str) (start_pos : Z) (s : State) : bool :=
  is_complete s && bool_decide (head (rule s) = symbol)
    && bool_decide (start s = start_pos).

(** One iteration of [for i, symbol in enumerate(state.rule.body)], with the
    recursive call passed in as [rec].  When the inner loop finds no state
    it falls through and nothing is appended. *)
Definition build_child (rec : State -> Z -> list str -> result ParseTree)
  (chart : Chart) (state : State) (words : list str)
  (children : list ParseTree) (item : nat * str)
  : result (list ParseTree) :=
  let '(i, symbol) := item in
  let* span := getitem (backpointers state) (Z.of_nat i) in
  let '(start_pos, end_pos) := span in
  let* c := of_option (symbol !! 0) in
  if isupper c then
    let* col := getitem chart end_pos in
    match List.find (matches symbol start_pos) col with
    | Some s =>
      let* t := rec s end_pos words in Ok (children ++ [t])
    | None => Ok children
    end
  else
    let* w := getitem words start_pos in Ok (children ++ [Node w []]).

Fixpoint build_children (rec : State -> Z -> list str -> result ParseTree)
  (chart : Chart) (state : State) (words : list str)
  (items : list (nat * str)) (children : list ParseTree)
  : result (list ParseTree) :=
  match items with
  | [] => Ok children
  | item :: items' =>
    let* children' := build_child rec chart state words children item in
    build_children rec chart state words items' children'
  end.

(** [enumerate] *)
Definition enumerate {A} (l : list A) : list (nat * A) :=
  zip (seq 0 (length l)) l.

(** [EarleyParser._build_tree]; the fuel bounds the depth of the
    recursion. *)
Fixpoint _build_tree (fuel : nat) (chart : Chart) (state : State) (pos : Z)
  (words : list str) : result ParseTree :=
  match fuel with
  | O => Raise OutOfFuel
  | S fuel' =>
    match body (rule state) with
    | [] => Ok (Node (head (rule state)) [])
    | _ :: _ =>
      let* children :=
        build_children (_build_tree fuel' chart) chart state words
          (enumerate (body (rule state))) [] in
      Ok (Node (head (rule state)) children)
    end
  end.

End Methods.

(** ** The parser object and [parse] *)

Record EarleyParser := mkEarleyParser { rules : list Rule; chart : Chart }.

(** ['γ'] is U+03B3 and ['S'] is U+0053. *)
Definition gamma : str := [947%N].
Definition S_symbol : str := [83%N].

(** [Rule('γ', ('S',))] *)
Definition start_rule : Rule := mkRule gamma [S_symbol].

(** *** Fuel for the loops

    All lists of length [d] over [xs]. *)
Fixpoint lists_of {A} (d : nat) (xs : list A) : list (list A) :=
  match d with
  | O => [[]]
  | S d' => x ← xs; (x ::.) <$> lists_of d' xs
  end.

(** Every state a parse of [n] tokens can put into a chart; its size bounds
    the length of a column and hence the passes of the [while] loop. *)
Definition universe (rs : list Rule) (n : nat) : list State :=
  let positions := Z.of_nat <$> seq 0 (S n) in
  r ← start_rule :: rs;
  d ← seq 0 (S (length (body r)));
  st ← positions;
  mkState r (Z.of_nat d) st <$> lists_of d (positions ≫= fun a => pair a <$> positions).

Definition chart_budget (rs : list Rule) (n : nat) : nat :=
  S (length (universe rs n)).

(** [_build_tree] never recurses deeper than there are states in the
    chart. *)
Definition tree_budget (c : Chart) : nat := S (length (concat c)).

(** *** [parse]

    The chart construction: [self.chart = [[] for _ in range(len(words) + 1)]],
    the initial state, and the two nested loops. *)
Definition build_chart (rs : list Rule) (words : list str) : result Chart :=
  let chart0 := replicate (length words + 1) [] in
  let* chart1 := _add_to_chart (mkState start_rule 0 0 []) 0 chart0 in
  for_loop rs (chart_budget rs (length words))
    (seq 0 (length words + 1)) words chart1.

Definition is_accepting (state : State) : bool :=
  bool_decide (head (rule state) = gamma) && is_complete state
    && bool_decide (start state = 0%Z).

Definition is_S_state (s : State) : bool :=
  is_complete s && bool_decide (head (rule s) = S_symbol)
    && bool_decide (start s = 0%Z)
    && bool_decide (0 < length (backpointers s)).

(** The acceptance check at the end of [parse]. *)
Definition check_accepted (c : Chart) (words : list str)
  : result (bool * option ParseTree) :=
  let* last := getitem c (Z.of_nat (length words)) in
  match List.find is_accepting last with
  | Some _ =>
    match List.find is_S_state last with
    | Some s_state =>
      let* parse_tree :=
        _build_tree (tree_budget c) c s_state (Z.of_nat (length words)) words in
      Ok (true, Some parse_tree)
    | None => Ok (true, None)
    end
  | None => Ok (false, None)
  end.

(** [EarleyParser.parse]: the new parser object (its [chart] attribute is
    overwritten) and the returned pair. *)
Definition parse (self : EarleyParser) (sentence : str)
  : result (EarleyParser * (bool * option ParseTree)) :=
  let words := split sentence in
  let* c := build_chart (rules self) words in
  let* r := check_accepted c words in
  Ok (mkEarleyParser (rules self) c, r).

End Engine.

(** ** Grammar text

    The grammar reader and the printers work on text.  [str.isspace] on one
    character comes from Python's Unicode tables and is a parameter, like
    [str.isupper]. *)

(** ['→'] is U+2192, ['|'] is U+007C, ['ε'] is U+03B5, [' '] is U+0020 and
    the line feed is U+000A. *)
Definition arrow : char := 8594%N.
Definition bar : char := 124%N.
Definition epsilon : str := [949%N].
Definition space : char := 32%N.
Definition newline : char := 10%N.

(** [sep.join(l)] *)
Fixpoint join (sep : str) (l : list str) : str :=
  match l with
  | [] => []
  | x :: l' =>
    match l' with
    | [] => x
    | _ :: _ => x ++ sep ++ join sep l'
    end
  end.

(** [s.split(sep)] for a separator of one character: the pieces between the
    occurrences of [sep], empty pieces included. *)
Fixpoint split_on (sep : char) (s : str) : list str :=
  match s with
  | [] => [[]]
  | ch :: s' =>
    if bool_decide (ch = sep) then [] :: split_on sep s'
    else
      match split_on sep s' with
      | p :: ps => (ch :: p) :: ps
      | [] => [[ch]]
      end
  end.

(** [a, b = parts]: the unpacking raises [ValueError] unless there are
    exactly two parts. *)
Definition unpack_pair {A} (parts : list A) : option (A * A) :=
  match parts with
  | [a; b] => Some (a, b)
  | _ => None
  end.

(** [Rule.__str__] *)
Definition Rule_str (r : Rule) : str :=
  head r ++ [space; arrow; space] ++
  match body r with
  | [] => epsilon
  | _ :: _ => join [space] (body r)
  end.

Section Text.

Variable isspace : char -> bool.

(** [s.lstrip()], [s.rstrip()] and [s.strip()] *)
Fixpoint lstrip (s : str) : str :=
  match s with
  | [] => []
  | ch :: s' => if isspace ch then lstrip s' else s
  end.

Fixpoint rstrip (s : str) : str :=
  match s with
  | [] => []
  | ch :: s' =>
    match rstrip s' with
    | [] => if isspace ch then [] else [ch]
    | (_ :: _) as r => ch :: r
    end
  end.

Definition strip (s : str) : str := rstrip (lstrip s).

(** [s.split()]: the maximal runs of characters that are not whitespace.
    [cur] is the run read so far, in reverse. *)
Fixpoint split_from (cur : str) (s : str) : list str :=
  match s with
  | [] => match cur with [] => [] | _ :: _ => [reverse cur] end
  | ch :: s' =>
    if isspace ch then
      match cur with
      | [] => split_from [] s'
      | _ :: _ => reverse cur :: split_from [] s'
      end
    else split_from (ch :: cur) s'
  end.

Definition split_whitespace (s : str) : list str := split_from [] s.

(** The tokenizer of [parse]: [sentence.split() if sentence.strip() else []]. *)
Definition tokenize (sentence : str) : list str :=
  match strip sentence with
  | [] => []
  | _ :: _ => split_whitespace sentence
  end.

(** One alternative of a rule line:
    [Rule(head, ()) if alt == 'ε' else Rule(head, tuple(alt.split()))]. *)
Definition read_alternative (head : str) (alt : str) : Rule :=
  if bool_decide (alt = epsilon) then mkRule head []
  else mkRule head (split_whitespace alt).

(** The body of [for rule_str in grammar_rules]: the rules one line adds to
    [self.rules].  A line that does not split into two parts at ['→'] raises
    [ValueError] at the unpacking; the handler reports it and goes on to the
    next line, so the line adds nothing. *)
Definition read_line (rule_str : str) : list Rule :=
  match unpack_pair (split_on arrow rule_str) with
  | Some (head, body_str) =>
    let head := strip head in
    let alternatives := strip <$> split_on bar body_str in
    read_alternative head <$> alternatives
  | None => []
  end.

(** [EarleyParser.__init__] *)
Definition __init__ (grammar_rules : list str) : EarleyParser :=
  mkEarleyParser
    (foldl (fun rules rule_str => rules ++ read_line rule_str) [] grammar_rules)
    [].

(** What opening and reading the grammar file gives [from_file]: the file is
    missing, another exception is raised, or the file is read as a list of
    lines (each with its line end, as the iteration over a text file yields
    them). *)
Inductive opened := FileNotFoundError | OtherException | Lines (lines : list str).

(** [EarleyParser.from_file]; [None] is the [sys.exit(1)] of the two
    handlers. *)
Definition from_file (f : opened) : option EarleyParser :=
  match f with
  | Lines lines =>
    Some (__init__ (strip <$> filter (fun line => strip line <> []) lines))
  | FileNotFoundError | OtherException => None
  end.

End Text.

(** ** Printing a tree *)

(** ["└── "], ["├── "], four spaces, and ["│   "]. *)
Definition BRANCH_TAIL : str := [9492; 9472; 9472; 32]%N.
Definition BRANCH_MID : str := [9500; 9472; 9472; 32]%N.
Definition INDENT_TAIL : str := [32; 32; 32; 32]%N.
Definition INDENT_MID : str := [9474; 32; 32; 32]%N.

(** [ParseTree._to_string_visual]; the inner [fix] is the loop
    [for i, child in enumerate(self.children)], with [i] its index. *)
Fixpoint _to_string_visual (t : ParseTree) (prefix : str) (is_tail : bool)
  : str :=
  let 'Node symbol children := t in
  let result :=
    prefix ++ (if is_tail then BRANCH_TAIL else BRANCH_MID) ++ symbol
      ++ [newline] in
  let new_prefix := prefix ++ (if is_tail then INDENT_TAIL else INDENT_MID) in
  result ++
  (fix loop (i : nat) (cs : list ParseTree) : str :=
     match cs with
     | [] => []
     | child :: cs' =>
       let is_last := bool_decide (Z.of_nat i = Z.of_nat (length children) - 1)%Z in
       _to_string_visual child new_prefix is_last ++ loop (S i) cs'
     end) 0 children.

(** [ParseTree.__str__] *)
Definition ParseTree_str (t : ParseTree) : str := _to_string_visual t [] true.

(** * Notions used to state the properties *)

(** ** Instances and examples

    On ASCII text Python's [isupper] and [split] are these. *)

Definition ascii_isupper (ch : char) : bool := (65 <=? ch)%N && (ch <=? 90)%N.

Definition ascii_isspace (ch : char) : bool :=
  ((9 <=? ch)%N && (ch <=? 13)%N) || ((28 <=? ch)%N && (ch <=? 32)%N).

(** [cur] is the word read so far, in reverse. *)
Fixpoint ascii_split_from (cur : str) (s : str) : list str :=
  match s with
  | [] => match cur with [] => [] | _ :: _ => [reverse cur] end
  | ch :: s' =>
    if ascii_isspace ch then
      match cur with
      | [] => ascii_split_from [] s'
      | _ :: _ => reverse cur :: ascii_split_from [] s'
      end
    else ascii_split_from (ch :: cur) s'
  end.

Definition ascii_split (s : str) : list str := ascii_split_from [] s.

(** The symbols of the examples, ['A'], ['x'], ['a'], ['b'], ['c'] and ['X'],
    and the grammar [S → A x], [A → ε]. *)
Definition A_symbol : str := [65%N].
Definition x_symbol : str := [120%N].
Definition a_symbol : str := [97%N].
Definition b_symbol : str := [98%N].
Definition c_symbol : str := [99%N].
Definition X_symbol : str := [88%N].

Definition epsilon_grammar : list Rule :=
  [mkRule S_symbol [A_symbol; x_symbol]; mkRule A_symbol []].

(** Two grammars that use the reserved symbol: [S → ε | γ], and
    [S → a a | X c], [X → γ b] with the sentence ["a a b c"] and the tree
    [S(X("a", "b"), "c")]. *)
Definition collision_grammar : list Rule :=
  [mkRule S_symbol []; mkRule S_symbol [gamma]].

Definition lost_token_grammar : list Rule :=
  [mkRule S_symbol [a_symbol; a_symbol];
   mkRule S_symbol [X_symbol; c_symbol];
   mkRule X_symbol [gamma; b_symbol]].

Definition a_a_b_c : str := [97; 32; 97; 32; 98; 32; 99]%N.

Definition lost_token_tree : ParseTree :=
  Node S_symbol
    [Node X_symbol [Node a_symbol []; Node b_symbol []]; Node c_symbol []].

(** The parser object of the examples, and the states of its chart. *)
Definition S_rule : Rule := mkRule S_symbol [A_symbol; x_symbol].
Definition A_rule : Rule := mkRule A_symbol [].
Definition epsilon_parser : EarleyParser := mkEarleyParser epsilon_grammar [].
Definition epsilon_tree : ParseTree :=
  Node S_symbol [Node A_symbol []; Node x_symbol []].

(** ** Charts and deductions *)

(** The body of no rule mentions ['γ']. *)
Definition gamma_free (rs : list Rule) : Prop :=
  forall r, r ∈ rs -> gamma ∉ body r.

Fixpoint chain (a : Z) (bp : list (Z * Z)) (e : Z) : Prop :=
  match bp with
  | [] => a = e
  | (x, y) :: bp' => x = a /\ (a <= y)%Z /\ chain y bp' e
  end.

(** Columns only ever grow at their end. *)
Definition extends (c c' : Chart) : Prop :=
  length c' = length c /\
  forall e col, c !! e = Some col ->
    exists col', c' !! e = Some col' /\ col `prefix_of` col'.

(** [s] is incomplete and the symbol after its dot is [sym]. *)
Definition waits_for (s : State) (sym : str) : Prop :=
  is_complete s = false /\ next_symbol s = Ok (Some sym).

#[global] Instance waits_for_dec s sym : Decision (waits_for s sym).
Proof. unfold waits_for. apply _. Defined.

(** The states the two searches of [parse] look for. *)
Definition accepting (s : State) : Prop :=
  rule s = start_rule /\ is_complete s = true /\ start s = 0%Z.

Definition S_candidate (s : State) : Prop :=
  is_complete s = true /\ head (rule s) = S_symbol /\ start s = 0%Z /\
  0 < length (backpointers s).

(** [x] is the first element of [l], in list order, that satisfies [P]. *)
Definition first_in {A} (P : A -> Prop) (l : list A) (x : A) : Prop :=
  exists n, l !! n = Some x /\ P x /\
    forall n' y, n' < n -> l !! n' = Some y -> ~ P y.

(** How many states come before index [n] of column [e]: [_build_tree] only
    descends to states that come earlier in this order. *)
Definition rank (c : Chart) (e n : nat) : nat := length (concat (take e c)) + n.

(** The labels of the nodes without children, left to right. *)
Fixpoint childless_nodes (t : ParseTree) : list str :=
  let 'Node s cs := t in
  match cs with
  | [] => [s]
  | _ :: _ => concat (map childless_nodes cs)
  end.

(** [words[a:b]] for [0 <= a <= b]. *)
Definition slice {A} (a b : Z) (l : list A) : list A :=
  take (Z.to_nat b - Z.to_nat a) (drop (Z.to_nat a) l).

Section Notions.

Variable isupper : char -> bool.
Variable rs : list Rule.
Variable words : list str.

(** Every insertion of a parse is an instance of one of three deduction
    rules.  The rules speak of columns by their (natural) index. *)
Inductive derivable (c : Chart) (e : nat) : State -> Prop :=
| der_predict col s r :
    c !! e = Some col -> s ∈ col -> r ∈ rs ->
    is_complete s = false ->
    next_symbol s = Ok (Some (head r)) ->
    is_nonterminal isupper (Some (head r)) = true ->
    derivable c e (mkState r 0 (Z.of_nat e) [])
| der_scan p col s w :
    e = S p -> c !! p = Some col -> s ∈ col ->
    is_complete s = false ->
    next_symbol s = Ok (Some w) ->
    is_nonterminal isupper (Some w) = false ->
    truthy (Some w) = true ->
    words !! p = Some w ->
    derivable c e (advance s (Z.of_nat p, Z.of_nat p + 1)%Z)
| der_complete colE m t a colA s :
    c !! e = Some colE -> colE !! m = Some t ->
    is_complete t = true -> start t = Z.of_nat a ->
    c !! a = Some colA -> s ∈ colA ->
    is_complete s = false ->
    next_symbol s = Ok (Some (head (rule t))) ->
    derivable c e (advance s (Z.of_nat a, Z.of_nat e)).

Inductive step (c : Chart) : Chart -> Prop :=
| step_add e col s :
    c !! e = Some col -> (s ∉ col) -> derivable c e s ->
    step c (<[e := col ++ [s]]> c).

(** Well-formed states and charts. *)
Record wf_state (e : nat) (s : State) : Prop := {
  wf_rule : rule s ∈ start_rule :: rs;
  wf_dot : (0 <= dot s <= Z.of_nat (length (body (rule s))))%Z;
  wf_len : Z.of_nat (length (backpointers s)) = dot s;
  wf_start : (0 <= start s <= Z.of_nat e)%Z;
  wf_zero : dot s = 0%Z -> start s = Z.of_nat e;
  wf_last : forall x y, last (backpointers s) = Some (x, y) -> y = Z.of_nat e;
  wf_spans :
    Forall (fun p => (0 <= p.1 <= Z.of_nat e)%Z /\ (0 <= p.2 <= Z.of_nat e)%Z)
      (backpointers s)
}.

Definition wf_chart (c : Chart) : Prop :=
  length c = S (length words) /\
  forall e col, c !! e = Some col -> NoDup col /\ Forall (wf_state e) col.

(** The chart after the initial state was added. *)
Definition initial_chart : Chart :=
  [mkState start_rule 0 0 []] :: replicate (length words) [].

(** The charts a parse can go through: the initial chart, and every chart
    obtained from one of them by a call of [predict], [scan] or [complete]
    as the [while] loop of [parse] issues it, on a state of column [i] at
    position [i]. *)
Inductive parse_chart : Chart -> Prop :=
| pc_initial : parse_chart initial_chart
| pc_predict (c : Chart) i col state ns c' :
    parse_chart c -> c !! i = Some col -> state ∈ col ->
    is_complete state = false -> next_symbol state = Ok ns ->
    is_nonterminal isupper ns = true ->
    predict isupper rs state (Z.of_nat i) c = Ok c' -> parse_chart c'
| pc_scan (c : Chart) i col state ns c' :
    parse_chart c -> c !! i = Some col -> state ∈ col ->
    is_complete state = false -> next_symbol state = Ok ns ->
    is_nonterminal isupper ns = false ->
    scan state (Z.of_nat i) words c = Ok c' -> parse_chart c'
| pc_complete (c : Chart) i col state c' :
    parse_chart c -> c !! i = Some col -> state ∈ col ->
    is_complete state = true ->
    complete state (Z.of_nat i) c = Ok c' -> parse_chart c'.

(** The evidence for one matched body symbol of a state stored at index [n]
    of column [e]. *)
Definition child_ok (c : Chart) (e n : nat) (sym : str) (span : Z * Z) : Prop :=
  if is_nonterminal isupper (Some sym) then
    exists col m t,
      c !! Z.to_nat span.2 = Some col /\ col !! m = Some t /\
      matches sym span.1 t = true /\ (Z.to_nat span.2 = e -> m < n)
  else
    span.2 = (span.1 + 1)%Z /\ words !! Z.to_nat span.1 = Some sym /\ sym <> [].

Record derived (c : Chart) (e n : nat) (s : State) : Prop := {
  der_head :
    rule s = start_rule \/
    is_nonterminal isupper (Some (head (rule s))) = true /\
    head (rule s) <> gamma;
  der_chain : chain (start s) (backpointers s) (Z.of_nat e);
  der_children : forall k sym span,
    body (rule s) !! k = Some sym -> backpointers s !! k = Some span ->
    child_ok c e n sym span
}.

Definition derived_chart (c : Chart) : Prop :=
  forall e col n s, c !! e = Some col -> col !! n = Some s -> derived c e n s.

(** The leaves of a tree, left to right.  [_build_tree] makes a leaf
    [ParseTree(words[start_pos])] for a terminal, and a node
    [ParseTree(state.rule.head)] without children for an empty rule.  The
    tree carries no tag that tells the two apart, only the naming convention
    does: a node without children is a leaf when its label is not a
    nonterminal, and stands for an empty derivation when it is. *)
Fixpoint leaves (t : ParseTree) : list str :=
  let 'Node s cs := t in
  match cs with
  | [] => if is_nonterminal isupper (Some s) then [] else [s]
  | _ :: _ => concat (map leaves cs)
  end.

Definition yield (ts : list ParseTree) : list str :=
  concat (map leaves ts).

(** What the recursive call must deliver for the states below rank [bound]. *)
Definition builds (c : Chart) (rec : State -> Z -> list str -> result ParseTree)
  (bound : nat) : Prop :=
  forall y col m f pos,
    c !! y = Some col -> col !! m = Some f -> is_complete f = true ->
    (body (rule f) = [] ->
     is_nonterminal isupper (Some (head (rule f))) = true) ->
    rank c y m < bound ->
    exists t, rec f pos words = Ok t /\
      leaves t = slice (start f) (Z.of_nat y) words.

End Notions.

(** ** Derivations of the grammar *)

(** The label of a node: [ParseTree.symbol]. *)
Definition label (t : ParseTree) : str := let 'Node s _ := t in s.

Section Grammar.

Variable isupper : char -> bool.
Variable rs : list Rule.

(** [derives sym ws]: the symbol [sym] derives the token sequence [ws] in the
    grammar [rs].  A terminal derives itself; a nonterminal derives what the
    body symbols of one of its rules derive, one after the other. *)
Inductive derives : str -> list str -> Prop :=
| derives_terminal w :
    is_nonterminal isupper (Some w) = false -> w <> [] -> derives w [w]
| derives_rule r parts :
    r ∈ rs -> is_nonterminal isupper (Some (head r)) = true ->
    Forall2 derives (body r) parts ->
    derives (head r) (concat parts).

(** A derivation tree of the grammar: a leaf is a terminal; any other node
    is labelled by the head of a rule whose body is the row of its
    children's labels (no children for an empty rule). *)
Inductive derivation_tree : ParseTree -> Prop :=
| dt_leaf w :
    is_nonterminal isupper (Some w) = false -> w <> [] ->
    derivation_tree (Node w [])
| dt_node r cs :
    r ∈ rs -> is_nonterminal isupper (Some (head r)) = true ->
    map label cs = body r -> Forall derivation_tree cs ->
    derivation_tree (Node (head r) cs).

End Grammar.

(** More examples: the grammar [S → ε], the token ["y"], and the chart
    [parse] builds for [S → A x], [A → ε] and the sentence ["x"]. *)
Definition empty_rule_grammar : list Rule := [mkRule S_symbol []].

Definition y_symbol : str := [121%N].

Definition epsilon_chart : Chart :=
  [[mkState start_rule 0 0 []; mkState S_rule 0 0 [];
    mkState A_rule 0 0 []; mkState S_rule 1 0 [(0, 0)%Z]];
   [mkState S_rule 2 0 [(0, 0)%Z; (0, 1)%Z];
    mkState start_rule 1 0 [(0, 1)%Z]]].

(** ** Rules as the reader produces them *)

(** A symbol that can be read back: not empty, without whitespace, ['→']
    or ['|']. *)
Definition plain_symbol (isspace : char -> bool) (sym : str) : Prop :=
  sym <> [] /\
  Forall (fun ch => isspace ch = false /\ ch <> arrow /\ ch <> bar) sym.

(** A rule that can be read back: its head has no whitespace at its ends
    and no ['→'], its body symbols are plain, and its body is not the one
    symbol ['ε'] (which the reader takes for the empty body). *)
Record plain_rule (isspace : char -> bool) (r : Rule) : Prop := {
  plain_head : strip isspace (head r) = head r;
  plain_arrow : arrow ∉ head r;
  plain_body : Forall (plain_symbol isspace) (body r);
  plain_epsilon : body r <> [epsilon]
}.

(** The nodes of a tree in preorder, each with its depth below [d]. *)
Fixpoint levels (d : nat) (t : ParseTree) : list (nat * str) :=
  let 'Node s cs := t in (d, s) :: concat (map (levels (S d)) cs).

(** The grammar text of the example, ["S → A x"] and ["A → ε"], and a
    line without an arrow. *)
Definition epsilon_text : list str :=
  [[83; 32; 8594; 32; 65; 32; 120]%N; [65; 32; 8594; 32; 949]%N].

Definition comment_line : str := [35; 32; 83]%N.

(** A grammar without empty rules, [S → a S | a], and a grammar whose start
    symbol derives the empty sentence through a chain of empty rules,
    [S → A X], [X → Y A], [A → B], [B → ε], [Y → ε]. *)
Definition a_grammar : list Rule :=
  [mkRule S_symbol [a_symbol; S_symbol]; mkRule S_symbol [a_symbol]].

Definition B_symbol : str := [66%N].
Definition Y_symbol : str := [89%N].

Definition nullable_chain_grammar : list Rule :=
  [mkRule S_symbol [A_symbol; X_symbol];
   mkRule X_symbol [Y_symbol; A_symbol];
   mkRule A_symbol [B_symbol];
   mkRule B_symbol [];
   mkRule Y_symbol []].

(** * Properties *)

(** ** The exception monad *)

Lemma bind_Ok {A B} (m : result A) (k : A -> result B) b :
  bind m k = Ok b -> exists a, m = Ok a /\ k a = Ok b.
Proof. destruct m as [a|e]; simpl; [eauto | discriminate]. Qed.

Lemma bind_Raise {A B} (m : result A) (k : A -> result B) e :
  bind m k = Raise e ->
  m = Raise e \/ exists a, m = Ok a /\ k a = Raise e.
Proof. destruct m as [a|e']; simpl; [eauto | intros [= ->]; eauto]. Qed.

Lemma of_option_Ok {A} (o : option A) a : of_option o = Ok a -> o = Some a.
Proof. destruct o; simpl; congruence. Qed.

Lemma of_option_fuel {A} (o : option A) : of_option o <> Raise OutOfFuel.
Proof. destruct o; simpl; congruence. Qed.

(** Peel the binds of a hypothesis [H : ... = Ok _]. *)
Ltac inv_bind H :=
  repeat match type of H with
  | bind _ _ = Ok _ =>
    let a := fresh "a" in let Ha := fresh "Ha" in
    apply bind_Ok in H as (a & Ha & H)
  end.

(** ** Subscripting *)

Lemma py_index_nat len (i : nat) : i < len -> py_index len (Z.of_nat i) = Ok i.
Proof.
  intros Hi. unfold py_index.
  destruct (Z.leb_spec 0 (Z.of_nat i)); [|lia].
  destruct (Z.ltb_spec (Z.of_nat i) (Z.of_nat len)); [|lia].
  by rewrite Nat2Z.id.
Qed.

Lemma py_index_to_nat len i :
  (0 <= i < Z.of_nat len)%Z -> py_index len i = Ok (Z.to_nat i).
Proof.
  intros Hi. rewrite <- (Z2Nat.id i) at 1 by lia. apply py_index_nat. lia.
Qed.

Lemma py_index_Ok len i k :
  py_index len i = Ok k ->
  k < len /\
  ((0 <= i)%Z /\ k = Z.to_nat i \/ (i < 0)%Z /\ k = Z.to_nat (Z.of_nat len + i)).
Proof.
  unfold py_index.
  destruct (Z.leb_spec 0 i).
  - destruct (Z.ltb_spec i (Z.of_nat len)); intros [= <-]. split; [lia|]. left. lia.
  - destruct (Z.leb_spec (- Z.of_nat len) i); intros [= <-]. split; [lia|]. right. lia.
Qed.

Lemma py_index_fuel len i : py_index len i <> Raise OutOfFuel.
Proof. unfold py_index. repeat case_match; congruence. Qed.

Lemma getitem_nat {A} (l : list A) (i : nat) x :
  l !! i = Some x -> getitem l (Z.of_nat i) = Ok x.
Proof.
  intros Hx. unfold getitem.
  rewrite py_index_nat; [|by eapply lookup_lt_Some]. simpl. by rewrite Hx.
Qed.

Lemma getitem_fuel {A} (l : list A) i : getitem l i <> Raise OutOfFuel.
Proof.
  unfold getitem. intros [H|(k & _ & H)]%bind_Raise.
  - by apply py_index_fuel in H.
  - by apply of_option_fuel in H.
Qed.

(** ** [_add_to_chart] *)

Lemma add_to_chart_nat st (e : nat) c col :
  c !! e = Some col ->
  _add_to_chart st (Z.of_nat e) c =
    Ok (if bool_decide (st ∈ col) then c else <[e := col ++ [st]]> c).
Proof.
  intros Hcol. unfold _add_to_chart.
  pose proof (lookup_lt_Some _ _ _ Hcol) as Hlt.
  destruct (Z.leb_spec (Z.of_nat (length c)) (Z.of_nat e)); [lia|].
  rewrite py_index_nat; [|done]. simpl. rewrite Hcol. simpl.
  by case_bool_decide.
Qed.

(** Whatever the arguments, a call that returns either leaves the chart alone
    or appends the state to one column that did not contain it. *)
Lemma add_to_chart_Ok st pos c c' :
  _add_to_chart st pos c = Ok c' ->
  c' = c \/
  exists k col, py_index (length c) pos = Ok k /\ c !! k = Some col /\
    (st ∉ col) /\ c' = <[k := col ++ [st]]> c.
Proof.
  unfold _add_to_chart. case_match; [intros [= <-]; by left|].
  intros Hb. inv_bind Hb. apply of_option_Ok in Ha0.
  case_bool_decide; injection Hb as <-; [by left|]. right. eauto 10.
Qed.

Lemma add_to_chart_fuel st pos c : _add_to_chart st pos c <> Raise OutOfFuel.
Proof.
  unfold _add_to_chart. case_match; [done|].
  intros [Hr|(k & _ & [Hr|(col & _ & Hr)]%bind_Raise)]%bind_Raise.
  - by apply py_index_fuel in Hr.
  - by apply of_option_fuel in Hr.
  - by case_bool_decide.
Qed.

Lemma add_to_chart_length st pos c c' :
  _add_to_chart st pos c = Ok c' -> length c' = length c.
Proof.
  intros [->|(k & col & _ & _ & _ & ->)]%add_to_chart_Ok; [done|].
  by rewrite length_insert.
Qed.

(** ** Chart properties that every insertion keeps

    A property kept by every returning call of [_add_to_chart] is kept by
    every returning call of the methods built on it, whatever their
    arguments. *)

Section Preserved.

Variable P : Chart -> Prop.
Hypothesis P_add : forall st pos (c c' : Chart),
  P c -> _add_to_chart st pos c = Ok c' -> P c'.

Lemma complete_step_preserved state pos s (c c' : Chart) :
  P c -> complete_step state pos s c = Ok c' -> P c'.
Proof.
  intros HP. unfold complete_step.
  destruct (negb (is_complete s)); [|by intros [= <-]].
  intros Hb. inv_bind Hb. case_bool_decide; [by eapply P_add|by injection Hb as <-].
Qed.

Lemma complete_loop_preserved fuel state pos cs k (c c' : Chart) :
  P c -> complete_loop fuel state pos cs k c = Ok c' -> P c'.
Proof.
  revert k c. induction fuel as [|fuel IH]; intros k c HP; simpl; [done|].
  intros Hb. inv_bind Hb. destruct (a !! k) as [s|]; [|by injection Hb as <-].
  inv_bind Hb. eapply IH; [|done]. by eapply complete_step_preserved.
Qed.

Lemma complete_preserved state pos (c c' : Chart) :
  P c -> complete state pos c = Ok c' -> P c'.
Proof.
  intros HP. unfold complete.
  destruct (negb (is_complete state)); [by intros [= <-]|].
  intros Hb. inv_bind Hb. by eapply complete_loop_preserved.
Qed.

Section WithRules.
Variable isupper : char -> bool.
Variable rs : list Rule.

Lemma predict_loop_preserved l next pos (c c' : Chart) :
  P c -> predict_loop l next pos c = Ok c' -> P c'.
Proof.
  revert c. induction l as [|r l IH]; intros c HP; simpl; [by intros [= <-]|].
  case_bool_decide; [|by apply IH].
  intros Hb. inv_bind Hb. eapply IH; [|done].
  apply P_add in Ha; [|done].
  destruct (body r); [by eapply complete_preserved|by injection Ha0 as <-].
Qed.

Lemma predict_preserved state pos (c c' : Chart) :
  P c -> predict isupper rs state pos c = Ok c' -> P c'.
Proof.
  intros HP. unfold predict. intros Hb. inv_bind Hb.
  destruct (is_nonterminal isupper a); [|by injection Hb as <-].
  destruct a; [by eapply predict_loop_preserved|by injection Hb as <-].
Qed.

Lemma scan_preserved state pos words (c c' : Chart) :
  P c -> scan state pos words c = Ok c' -> P c'.
Proof.
  intros HP. unfold scan. case_match; [|by intros [= <-]].
  intros Hb. inv_bind Hb. destruct (truthy a); [|by injection Hb as <-].
  inv_bind Hb. case_bool_decide; [by eapply P_add|by injection Hb as <-].
Qed.

Lemma process_preserved state i words (c c' : Chart) :
  P c -> process isupper rs state i words c = Ok c' -> P c'.
Proof.
  intros HP. unfold process.
  destruct (negb (is_complete state)); [|by apply complete_preserved].
  intros Hb. inv_bind Hb.
  destruct (is_nonterminal isupper a);
    [by eapply predict_preserved|by eapply scan_preserved].
Qed.

Lemma while_loop_preserved fuel i j words (c c' : Chart) :
  P c -> while_loop isupper rs fuel i j words c = Ok c' -> P c'.
Proof.
  revert j c. induction fuel as [|fuel IH]; intros j c HP; simpl; [done|].
  intros Hb. inv_bind Hb. case_match; [|by injection Hb as <-].
  inv_bind Hb. eapply IH; [|done]. by eapply process_preserved.
Qed.

Lemma for_loop_preserved fuel range words (c c' : Chart) :
  P c -> for_loop isupper rs fuel range words c = Ok c' -> P c'.
Proof.
  revert c. induction range as [|i range IH]; intros c HP; simpl;
    [by intros [= <-]|].
  intros Hb. inv_bind Hb. eapply IH; [|done]. by eapply while_loop_preserved.
Qed.

End WithRules.
End Preserved.

(** *** No duplicates *)

Lemma add_to_chart_NoDup st pos (c c' : Chart) :
  Forall NoDup c -> _add_to_chart st pos c = Ok c' -> Forall NoDup c'.
Proof.
  intros Hc [->|(k & col & _ & Hk & Hnot & ->)]%add_to_chart_Ok; [done|].
  apply Forall_insert; [done|].
  apply NoDup_app. split_and!.
  - by eapply Forall_lookup_1 in Hc.
  - intros x Hx ->%list_elem_of_singleton. done.
  - apply NoDup_singleton.
Qed.

(** ** States *)

Lemma is_complete_false s :
  is_complete s = false <-> (dot s < Z.of_nat (length (body (rule s))))%Z.
Proof. unfold is_complete. destruct (Z.leb_spec (Z.of_nat (length (body (rule s)))) (dot s)); split; (done || lia). Qed.

Lemma is_complete_true s :
  is_complete s = true <-> (Z.of_nat (length (body (rule s))) <= dot s)%Z.
Proof. unfold is_complete. destruct (Z.leb_spec (Z.of_nat (length (body (rule s)))) (dot s)); split; (done || lia). Qed.

Lemma next_symbol_complete s : is_complete s = true -> next_symbol s = Ok None.
Proof.
  intros H%is_complete_true. unfold next_symbol.
  destruct (Z.ltb_spec (dot s) (Z.of_nat (length (body (rule s))))); [lia|done].
Qed.

Lemma next_symbol_incomplete s :
  is_complete s = false -> (0 <= dot s)%Z ->
  exists x, body (rule s) !! Z.to_nat (dot s) = Some x /\
    next_symbol s = Ok (Some x).
Proof.
  intros H%is_complete_false Hdot. unfold next_symbol.
  destruct (Z.ltb_spec (dot s) (Z.of_nat (length (body (rule s))))); [|lia].
  destruct (lookup_lt_is_Some_2 (body (rule s)) (Z.to_nat (dot s))) as [x Hx]; [lia|].
  exists x. split; [done|].
  rewrite <- (Z2Nat.id (dot s)) at 1 by done. by rewrite (getitem_nat _ _ _ Hx).
Qed.

Lemma next_symbol_fuel s : next_symbol s <> Raise OutOfFuel.
Proof.
  unfold next_symbol. case_match; [|done].
  intros [Hr|(? & _ & Hr)]%bind_Raise; [by apply getitem_fuel in Hr|done].
Qed.

Lemma remaining_advance s span :
  is_complete s = false -> S (remaining (advance s span)) = remaining s.
Proof. intros H%is_complete_false. unfold remaining, advance. simpl. lia. Qed.

(** ** Deduction steps

    A step appends to one column and leaves the rest alone, and it keeps
    the chart well formed. *)

Section Deduction.

Variable isupper : char -> bool.
Variable rs : list Rule.
Variable words : list str.

Abbreviation derivable := (derivable isupper rs words).
Abbreviation step := (step isupper rs words).
Abbreviation wf_state := (wf_state rs).
Abbreviation wf_chart := (wf_chart rs words).

Lemma extends_refl c : extends c c.
Proof. split; [done|]. intros e col ?. by exists col. Qed.

Lemma extends_trans c1 c2 c3 : extends c1 c2 -> extends c2 c3 -> extends c1 c3.
Proof.
  intros [Hl1 H1] [Hl2 H2]. split; [congruence|].
  intros e col (col2 & ? & ?)%H1. destruct (H2 e col2) as (col3 & ? & ?); [done|].
  exists col3. split; [done|]. by etrans.
Qed.

Lemma extends_insert (c : Chart) e col s :
  c !! e = Some col -> extends c (<[e := col ++ [s]]> c).
Proof.
  intros He. split; [by rewrite length_insert|].
  intros e' col' He'. destruct (decide (e' = e)) as [->|Hne].
  - exists (col ++ [s]). rewrite list_lookup_insert_eq; [|by eapply lookup_lt_Some].
    split; [done|]. assert (col' = col) as -> by congruence. by apply prefix_app_r.
  - exists col'. by rewrite list_lookup_insert_ne.
Qed.

Lemma step_extends c c' : step c c' -> extends c c'.
Proof. destruct 1. by apply extends_insert. Qed.

Lemma steps_extends c c' : rtc step c c' -> extends c c'.
Proof.
  induction 1; [apply extends_refl|].
  eapply extends_trans; [by apply step_extends|done].
Qed.

Lemma extends_lookup c c' e col n s :
  extends c c' -> c !! e = Some col -> col !! n = Some s ->
  exists col', c' !! e = Some col' /\ col' !! n = Some s.
Proof.
  intros [_ H] (col' & ? & ?)%H Hn. exists col'. split; [done|].
  by eapply prefix_lookup_Some.
Qed.

Lemma extends_elem_of c c' e col s :
  extends c c' -> c !! e = Some col -> s ∈ col ->
  exists col', c' !! e = Some col' /\ s ∈ col'.
Proof.
  intros Hext He (n & Hn)%list_elem_of_lookup.
  destruct (extends_lookup _ _ _ _ _ _ Hext He Hn) as (col' & ? & ?).
  exists col'. split; [done|]. by eapply list_elem_of_lookup_2.
Qed.

(** *** Well-formed states and charts *)

Lemma wf_state_mono e e' s :
  e <= e' -> wf_state e s ->
  Forall (fun p => (0 <= p.1 <= Z.of_nat e')%Z /\ (0 <= p.2 <= Z.of_nat e')%Z)
    (backpointers s).
Proof.
  intros Hle [_ _ _ _ _ _ H]. eapply Forall_impl; [done|]. simpl. lia.
Qed.

Lemma wf_advance a e s x :
  a <= e -> wf_state a s -> is_complete s = false -> (0 <= x <= Z.of_nat e)%Z ->
  wf_state e (advance s (x, Z.of_nat e)).
Proof.
  intros Hle Hs Hinc%is_complete_false Hx. destruct Hs. constructor; simpl.
  - done.
  - lia.
  - rewrite length_app. simpl. lia.
  - lia.
  - lia.
  - intros x' y'. rewrite last_snoc. by intros [= _ <-].
  - apply Forall_app. split.
    + eapply Forall_impl; [done|]. simpl. lia.
    + apply Forall_singleton. simpl. lia.
Qed.

Lemma derivable_wf c e s :
  wf_chart c -> derivable c e s -> wf_state e s.
Proof.
  intros [Hlen Hc] Hd. destruct Hd as
    [col s r Hcol Hs Hr _ _ _
    |p col s w -> Hcol Hs Hinc _ _ _ Hw
    |colE m t a colA s HcolE Ht Hcomp Hstart HcolA Hs Hinc _].
  - constructor; simpl; try done; try lia. by apply list_elem_of_further.
  - destruct (Hc _ _ Hcol) as [_ Hwf]. rewrite Forall_forall in Hwf.
    replace (Z.of_nat p + 1)%Z with (Z.of_nat (S p)) by lia.
    apply (wf_advance p); [lia|by apply Hwf|done|lia].
  - destruct (Hc _ _ HcolE) as [_ HwfE]. destruct (Hc _ _ HcolA) as [_ HwfA].
    rewrite Forall_forall in HwfA.
    apply (Forall_lookup_1 _ _ _ _ HwfE) in Ht. destruct Ht as [_ _ _ Hst _ _ _].
    apply (wf_advance a); [lia|by apply HwfA|done|lia].
Qed.

Lemma step_wf c c' : wf_chart c -> step c c' -> wf_chart c'.
Proof.
  intros Hwf Hst. pose proof Hwf as [Hlen Hc].
  destruct Hst as [e col s He Hnot Hd]. split; [by rewrite length_insert|].
  intros e' col' He'. destruct (decide (e' = e)) as [->|Hne].
  - rewrite list_lookup_insert_eq in He'; [|by eapply lookup_lt_Some].
    injection He' as <-. destruct (Hc _ _ He) as [Hnd Hall]. split.
    + apply NoDup_app. split_and!; [done| |apply NoDup_singleton].
      by intros x Hx ->%list_elem_of_singleton.
    + apply Forall_app. split; [done|]. apply Forall_singleton.
      by eapply derivable_wf.
  - rewrite list_lookup_insert_ne in He' by done. by apply Hc.
Qed.

Lemma steps_wf c c' : wf_chart c -> rtc step c c' -> wf_chart c'.
Proof. intros Hwf Hst. induction Hst; [done|]. eauto using step_wf. Qed.

End Deduction.

(** ** The methods, seen as deductions

    On a well-formed chart each method returns, and what it did to the chart
    is a sequence of deduction steps. *)

Lemma weight_snoc col t : weight (col ++ [t]) = weight col + S (remaining t).
Proof. induction col as [|s col IH]; simpl; [lia|]. rewrite IH. lia. Qed.

Lemma weight_drop col k s :
  col !! k = Some s -> weight (drop k col) = S (remaining s + weight (drop (S k) col)).
Proof. intros Hk. by rewrite (drop_S _ _ _ Hk). Qed.

Lemma insert_snoc_lookup (c : Chart) i a col colA t :
  c !! i = Some col -> c !! a = Some colA ->
  exists colA', <[i := col ++ [t]]> c !! a = Some colA' /\
    (a <> i /\ colA' = colA \/ a = i /\ colA = col /\ colA' = colA ++ [t]).
Proof.
  intros Hi Ha. destruct (decide (a = i)) as [->|Hne].
  - exists (col ++ [t]). rewrite list_lookup_insert_eq by (by eapply lookup_lt_Some).
    split; [done|]. right. assert (colA = col) as -> by congruence. done.
  - exists colA. rewrite list_lookup_insert_ne by done. split; [done|]. by left.
Qed.

(** [complete] never runs out of the fuel it gives its loop, whatever its
    arguments: every pass of the loop uses up the state it reads, and what it
    appends to the column it reads has less of its rule left to match. *)
Lemma complete_step_Ok state pos s (c c' : Chart) :
  complete_step state pos s c = Ok c' ->
  c' = c \/
  is_complete s = false /\
  exists k col, c !! k = Some col /\
    c' = <[k := col ++ [advance s (start state, pos)]]> c.
Proof.
  unfold complete_step. destruct (is_complete s); cbn [negb];
    [intros [= <-]; by left|].
  intros Hb. apply bind_Ok in Hb as (ns & _ & Hb).
  case_bool_decide; [|injection Hb as <-; by left].
  apply add_to_chart_Ok in Hb as [->|(k & col & _ & Hk & _ & ->)]; [by left|].
  right. split; [done|]. by exists k, col.
Qed.

Lemma complete_step_fuel state pos s (c : Chart) :
  complete_step state pos s c <> Raise OutOfFuel.
Proof.
  unfold complete_step. destruct (negb (is_complete s)); [|done].
  intros [Hr|(ns & _ & Hr)]%bind_Raise; [by apply next_symbol_fuel in Hr|].
  case_bool_decide; [by apply add_to_chart_fuel in Hr|done].
Qed.

Lemma complete_loop_fuel fuel state pos cs k (c : Chart) col :
  c !! cs = Some col -> weight (drop k col) < fuel ->
  complete_loop fuel state pos cs k c <> Raise OutOfFuel.
Proof.
  revert k c col. induction fuel as [|fuel IH]; intros k c col Hcs Hfuel; [lia|].
  simpl. rewrite Hcs. cbn [of_option bind].
  destruct (col !! k) as [s|] eqn:Hk; [|done].
  rewrite (weight_drop _ _ _ Hk) in Hfuel.
  pose proof (lookup_lt_Some _ _ _ Hk) as Hklt.
  intros [Hr|(c' & Hstep & Hr)]%bind_Raise; [by apply complete_step_fuel in Hr|].
  apply complete_step_Ok in Hstep as [->|(Hinc & k' & col' & Hk' & ->)].
  - revert Hr. eapply IH; [done|lia].
  - destruct (insert_snoc_lookup c k' cs col' col (advance s (start state, pos)) Hk' Hcs)
      as (col1 & Hcol1 & [[_ ->]|(_ & _ & ->)]); revert Hr; (eapply IH; [done|]).
    + lia.
    + rewrite drop_app_le, weight_snoc by lia.
      pose proof (remaining_advance s (start state, pos) Hinc). lia.
Qed.

Lemma complete_fuel state pos (c : Chart) :
  complete state pos c <> Raise OutOfFuel.
Proof.
  unfold complete. destruct (negb (is_complete state)); [done|].
  intros [Hr|(cs & _ & [Hr|(col & Hcol%of_option_Ok & Hr)]%bind_Raise)]%bind_Raise.
  - by apply py_index_fuel in Hr.
  - by apply of_option_fuel in Hr.
  - revert Hr. eapply complete_loop_fuel; [done|].
    rewrite drop_0. unfold loop_budget. lia.
Qed.

Section Run.

Variable isupper : char -> bool.
Variable rs : list Rule.
Variable words : list str.

Abbreviation step := (step isupper rs words).
Abbreviation wf_chart := (wf_chart rs words).
Abbreviation initial_chart := (initial_chart words).

Lemma add_steps (c : Chart) e col st :
  c !! e = Some col -> derivable isupper rs words c e st ->
  exists c', _add_to_chart st (Z.of_nat e) c = Ok c' /\ rtc step c c' /\
    (c' = c \/ c' = <[e := col ++ [st]]> c) /\
    exists col', c' !! e = Some col' /\ st ∈ col'.
Proof.
  intros He Hd. rewrite (add_to_chart_nat _ _ _ _ He).
  case_bool_decide as Hin; eexists; (split; [done|]).
  - split_and!; [done|by left|by eauto].
  - split_and!; [|by right|].
    + apply rtc_once. by constructor.
    + exists (col ++ [st]). rewrite list_lookup_insert_eq by (by eapply lookup_lt_Some).
      split; [done|]. apply elem_of_app. right. by apply list_elem_of_singleton.
Qed.

Lemma complete_step_steps (c : Chart) i colI m state a colA s :
  wf_chart c ->
  c !! i = Some colI -> colI !! m = Some state ->
  is_complete state = true -> start state = Z.of_nat a ->
  c !! a = Some colA -> s ∈ colA ->
  exists c', complete_step state (Z.of_nat i) s c = Ok c' /\ rtc step c c' /\
    (c' = c \/
     is_complete s = false /\
     c' = <[i := colI ++ [advance s (Z.of_nat a, Z.of_nat i)]]> c).
Proof.
  intros [_ Hwf] Hi Hm Hcomp Hstart Ha Hs. unfold complete_step.
  destruct (is_complete s) eqn:Hinc; simpl; [by eauto 6 using rtc_refl|].
  destruct (Hwf _ _ Ha) as [_ HwfA]. rewrite Forall_forall in HwfA.
  destruct (next_symbol_incomplete s) as (x & _ & Hnext); [done|apply HwfA, Hs|].
  rewrite Hnext. simpl. case_bool_decide as Heq; [|by eauto 6 using rtc_refl].
  injection Heq as ->. rewrite Hstart.
  destruct (add_steps c i colI (advance s (Z.of_nat a, Z.of_nat i)))
    as (c' & -> & Hsteps & Hc' & _); [done|by econstructor|].
  exists c'. split_and!; [done..|]. destruct Hc'; eauto.
Qed.

Lemma complete_loop_steps fuel (c : Chart) i colI m state a colA k :
  wf_chart c ->
  c !! i = Some colI -> colI !! m = Some state ->
  is_complete state = true -> start state = Z.of_nat a ->
  c !! a = Some colA -> weight (drop k colA) < fuel ->
  exists c', complete_loop fuel state (Z.of_nat i) a k c = Ok c' /\
    rtc step c c'.
Proof.
  revert c colI colA k. induction fuel as [|fuel IH];
    intros c colI colA k Hwf Hi Hm Hcomp Hstart Ha Hfuel; [lia|].
  simpl. rewrite Ha. simpl. destruct (colA !! k) as [s|] eqn:Hk;
    [|by eauto using rtc_refl].
  destruct (complete_step_steps c i colI m state a colA s)
    as (c' & -> & Hsteps & Hc'); [done..|by eapply list_elem_of_lookup_2|].
  simpl. rewrite (weight_drop _ _ _ Hk) in Hfuel.
  assert (exists colI' colA', c' !! i = Some colI' /\ colI' !! m = Some state /\
    c' !! a = Some colA' /\ weight (drop (S k) colA') < fuel)
    as (colI' & colA' & Hi' & Hm' & Ha' & Hfuel').
  { destruct Hc' as [->|[Hinc ->]].
    - exists colI, colA. split_and!; [done..|lia].
    - pose proof (lookup_lt_Some _ _ _ Hi) as Hlt.
      exists (colI ++ [advance s (Z.of_nat a, Z.of_nat i)]).
      rewrite list_lookup_insert_eq by done.
      destruct (decide (a = i)) as [->|Hne].
      + eexists. rewrite list_lookup_insert_eq by done.
        split_and!; [done|by apply lookup_app_l_Some|done|].
        assert (colA = colI) as -> by congruence.
        rewrite drop_app_le by (apply lookup_lt_Some in Hk; lia).
        rewrite weight_snoc. pose proof (remaining_advance s (Z.of_nat i, Z.of_nat i) Hinc). lia.
      + exists colA. rewrite list_lookup_insert_ne by done.
        split_and!; [done|by apply lookup_app_l_Some|done|lia]. }
  destruct (IH c' colI' colA' (S k)) as (c'' & -> & Hsteps');
    [by eapply steps_wf|done..|].
  exists c''. split; [done|]. by etrans.
Qed.

Lemma complete_steps (c : Chart) i colI state :
  wf_chart c -> c !! i = Some colI -> state ∈ colI ->
  is_complete state = true ->
  exists c', complete state (Z.of_nat i) c = Ok c' /\ rtc step c c'.
Proof.
  intros Hwf Hi [m Hm]%list_elem_of_lookup Hcomp. unfold complete.
  rewrite Hcomp. pose proof Hwf as [_ Hc].
  destruct (Hc _ _ Hi) as [_ HwfI].
  pose proof (Forall_lookup_1 _ _ _ _ HwfI Hm) as [_ _ _ Hst _ _ _].
  pose proof (lookup_lt_Some _ _ _ Hi) as Hlt.
  destruct (lookup_lt_is_Some_2 c (Z.to_nat (start state))) as [colA Ha]; [lia|].
  rewrite py_index_to_nat by lia. cbn [negb bind]. rewrite Ha. cbn [of_option bind].
  eapply (complete_loop_steps _ c i colI m state); try done; [lia|].
  rewrite drop_0. unfold loop_budget. lia.
Qed.

Lemma predict_loop_steps l (c : Chart) i col s next :
  wf_chart c -> l ⊆ rs ->
  c !! i = Some col -> s ∈ col -> is_complete s = false ->
  next_symbol s = Ok (Some next) ->
  is_nonterminal isupper (Some next) = true ->
  exists c', predict_loop l next (Z.of_nat i) c = Ok c' /\ rtc step c c'.
Proof.
  revert c col. induction l as [|r l IH];
    intros c col Hwf Hl Hi Hs Hinc Hnext Hnt; simpl; [by eauto using rtc_refl|].
  assert (r ∈ rs) as Hr by (apply Hl; left).
  assert (l ⊆ rs) as Hl' by (intros x Hx; apply Hl; by right).
  case_bool_decide as Hhead; [|by eapply IH]. subst next.
  destruct (add_steps c i col (mkState r 0 (Z.of_nat i) []))
    as (c1 & -> & Hsteps1 & _ & col1 & Hi1 & Hin1); [done|by econstructor|].
  cbn [bind]. pose proof (steps_wf _ _ _ _ _ Hwf Hsteps1) as Hwf1.
  assert (exists c2, match body r with
                     | [] => complete (mkState r 0 (Z.of_nat i) []) (Z.of_nat i) c1
                     | _ :: _ => Ok c1
                     end = Ok c2 /\ rtc step c1 c2) as (c2 & -> & Hsteps2).
  { destruct (body r) eqn:Hbody; [|by eauto using rtc_refl].
    eapply complete_steps; [done..|]. apply is_complete_true. simpl. rewrite Hbody. simpl. lia. }
  cbn [bind]. assert (rtc step c c2) as Hsteps by (by etrans).
  destruct (extends_elem_of _ _ _ _ _ (steps_extends _ _ _ _ _ Hsteps) Hi Hs)
    as (col2 & Hi2 & Hs2).
  destruct (IH c2 col2) as (c3 & -> & Hsteps3); [by eapply steps_wf|done..|].
  exists c3. split; [done|]. by etrans.
Qed.

Lemma predict_steps (c : Chart) i col s :
  wf_chart c -> c !! i = Some col -> s ∈ col -> is_complete s = false ->
  exists c', predict isupper rs s (Z.of_nat i) c = Ok c' /\ rtc step c c'.
Proof.
  intros Hwf Hi Hs Hinc. unfold predict. pose proof Hwf as [_ Hc].
  destruct (Hc _ _ Hi) as [_ Hall]. rewrite Forall_forall in Hall.
  destruct (next_symbol_incomplete s) as (x & _ & Hnext); [done|apply Hall, Hs|].
  rewrite Hnext. cbn [bind].
  destruct (is_nonterminal isupper (Some x)) eqn:Hnt; [|by eauto using rtc_refl].
  by eapply predict_loop_steps.
Qed.

Lemma scan_steps (c : Chart) i col s :
  wf_chart c -> c !! i = Some col -> s ∈ col -> is_complete s = false ->
  (forall x, next_symbol s = Ok x -> is_nonterminal isupper x = false) ->
  exists c', scan s (Z.of_nat i) words c = Ok c' /\ rtc step c c'.
Proof.
  intros Hwf Hi Hs Hinc Hterm. unfold scan. pose proof Hwf as [Hlen Hc].
  destruct (Z.ltb_spec (Z.of_nat i) (Z.of_nat (length words)));
    [|by eauto using rtc_refl].
  destruct (Hc _ _ Hi) as [_ Hall]. rewrite Forall_forall in Hall.
  destruct (next_symbol_incomplete s) as (x & _ & Hnext); [done|apply Hall, Hs|].
  rewrite Hnext. cbn [bind].
  destruct (truthy (Some x)) eqn:Htruthy; [|by eauto using rtc_refl].
  destruct (lookup_lt_is_Some_2 words i) as [w Hw]; [lia|].
  rewrite (getitem_nat _ _ _ Hw). cbn [bind].
  case_bool_decide as Heq; [|by eauto using rtc_refl]. injection Heq as ->.
  destruct (lookup_lt_is_Some_2 c (S i)) as [col' Hi']; [lia|].
  destruct (add_steps c (S i) col' (advance s (Z.of_nat i, Z.of_nat i + 1)%Z))
    as (c' & Hadd & Hsteps & _); [done| |].
  { eapply (der_scan _ _ _ _ _ i); eauto. }
  replace (Z.of_nat (S i)) with (Z.of_nat i + 1)%Z in Hadd by lia.
  rewrite Hadd. by eauto.
Qed.

Lemma process_steps (c : Chart) i col s :
  wf_chart c -> c !! i = Some col -> s ∈ col ->
  exists c', process isupper rs s i words c = Ok c' /\ rtc step c c'.
Proof.
  intros Hwf Hi Hs. unfold process. pose proof Hwf as [_ Hc].
  destruct (is_complete s) eqn:Hinc; cbn [negb]; [by eapply complete_steps|].
  destruct (Hc _ _ Hi) as [_ Hall]. rewrite Forall_forall in Hall.
  destruct (next_symbol_incomplete s) as (x & _ & Hnext); [done|apply Hall, Hs|].
  rewrite Hnext. cbn [bind].
  destruct (is_nonterminal isupper (Some x)) eqn:Hnt; [by eapply predict_steps|].
  eapply scan_steps; [done..|]. intros x'. rewrite Hnext. by intros [= <-].
Qed.

(** *** Columns are bounded *)

Lemma lists_of_elem {A} (xs : list A) l :
  Forall (fun x => x ∈ xs) l -> l ∈ lists_of (length l) xs.
Proof.
  induction 1 as [|x l Hx _ IH]; simpl; [by apply list_elem_of_singleton|].
  apply list_elem_of_bind. exists x. split; [|done].
  by apply list_elem_of_fmap_2.
Qed.

Lemma universe_elem e s :
  e <= length words -> wf_state rs e s -> s ∈ universe rs (length words).
Proof.
  intros He [Hrule Hdot Hlen Hstart _ _ Hspans]. unfold universe.
  assert (forall z, (0 <= z <= Z.of_nat e)%Z ->
    z ∈ Z.of_nat <$> seq 0 (S (length words))) as Hpos.
  { intros z Hz. apply list_elem_of_fmap. exists (Z.to_nat z).
    split; [lia|]. apply elem_of_seq. lia. }
  apply list_elem_of_bind. exists (rule s). split; [|done].
  apply list_elem_of_bind. exists (length (backpointers s)). split;
    [|apply elem_of_seq; lia].
  apply list_elem_of_bind. exists (start s). split; [|by apply Hpos].
  apply list_elem_of_fmap. exists (backpointers s). split.
  { destruct s; simpl in *. by subst. }
  apply lists_of_elem. eapply Forall_impl; [done|].
  intros [x y] [Hx Hy]. cbn [fst snd] in Hx, Hy.
  apply list_elem_of_bind. exists x. split; [|by apply Hpos].
  apply list_elem_of_fmap_2. by apply Hpos.
Qed.

Lemma column_bound (c : Chart) e col :
  wf_chart c -> c !! e = Some col ->
  length col <= length (universe rs (length words)).
Proof.
  intros [Hlen Hc] He. destruct (Hc _ _ He) as [Hnd Hall].
  apply submseteq_length, NoDup_submseteq; [done|].
  intros s Hs. rewrite Forall_forall in Hall.
  apply (universe_elem e); [|by apply Hall].
  apply lookup_lt_Some in He. lia.
Qed.

(** *** The work list and the outer loop *)

Lemma while_loop_steps fuel (c : Chart) i j col :
  wf_chart c -> c !! i = Some col -> j <= length col ->
  length (universe rs (length words)) < fuel + j ->
  exists c', while_loop isupper rs fuel i j words c = Ok c' /\ rtc step c c'.
Proof.
  revert c j col. induction fuel as [|fuel IH]; intros c j col Hwf Hi Hj Hfuel.
  { pose proof (column_bound _ _ _ Hwf Hi). lia. }
  simpl. rewrite Hi. cbn [of_option bind].
  destruct (Nat.ltb_spec j (length col)) as [Hlt|Hge]; [|by eauto using rtc_refl].
  destruct (lookup_lt_is_Some_2 col j) as [s Hs]; [done|].
  rewrite Hs. cbn [of_option bind].
  destruct (process_steps c i col s) as (c1 & -> & Hsteps1);
    [done..|by eapply list_elem_of_lookup_2|].
  cbn [bind].
  destruct (proj2 (steps_extends _ _ _ _ _ Hsteps1) _ _ Hi) as (col1 & Hi1 & Hpre).
  apply prefix_length in Hpre.
  destruct (IH c1 (S j) col1) as (c2 & -> & Hsteps2);
    [by eapply steps_wf|done|lia|lia|].
  exists c2. split; [done|]. by etrans.
Qed.

Lemma for_loop_steps fuel range (c : Chart) :
  wf_chart c -> Forall (fun i => i <= length words) range ->
  length (universe rs (length words)) < fuel ->
  exists c', for_loop isupper rs fuel range words c = Ok c' /\ rtc step c c'.
Proof.
  revert c. induction range as [|i range IH]; intros c Hwf Hrange Hfuel; simpl;
    [by eauto using rtc_refl|].
  apply Forall_cons in Hrange as [Hi Hrange].
  destruct (lookup_lt_is_Some_2 c i) as [col Hcol]; [destruct Hwf; lia|].
  destruct (while_loop_steps fuel c i 0 col) as (c1 & -> & Hsteps1);
    [done|done|lia|lia|].
  cbn [bind]. destruct (IH c1) as (c2 & -> & Hsteps2);
    [by eapply steps_wf|done..|].
  exists c2. split; [done|]. by etrans.
Qed.

(** *** Chart construction *)

Lemma initial_chart_wf : wf_chart initial_chart.
Proof.
  split; [simpl; by rewrite length_replicate|].
  intros [|e] col; simpl.
  - intros [= <-]. split; [apply NoDup_singleton|].
    apply Forall_singleton. constructor; simpl; try done; try lia. by left.
  - intros [-> _]%lookup_replicate. split; [apply NoDup_nil_2|done].
Qed.

Lemma build_chart_steps :
  exists c, build_chart isupper rs words = Ok c /\
    rtc step initial_chart c /\ wf_chart c.
Proof.
  unfold build_chart. rewrite Nat.add_1_r. simpl replicate.
  change (_add_to_chart _ 0 _) with (Ok initial_chart). cbn [bind].
  destruct (for_loop_steps (chart_budget rs (length words))
    (seq 0 (S (length words))) initial_chart) as (c & Hc & Hsteps).
  - apply initial_chart_wf.
  - apply Forall_forall. intros i Hi%elem_of_seq. lia.
  - unfold chart_budget. lia.
  - exists c. split_and!; [done..|]. eapply steps_wf; [apply initial_chart_wf|done].
Qed.

End Run.

(** ** Derivations recorded in the chart

    With the reserved symbol kept out of the rule bodies, the backpointers of
    every state are a chain of adjacent spans from its start to its column,
    each span backed by a token (terminals) or by a complete state stored
    earlier (nonterminals). *)

Lemma chain_snoc a bp x y e :
  chain a (bp ++ [(x, y)]) e <-> chain a bp x /\ (x <= y)%Z /\ y = e.
Proof.
  revert a. induction bp as [|[x' y'] bp IH]; intros a; simpl.
  - split; [intros (-> & ? & ->)|intros (-> & ? & ->)]; done.
  - rewrite IH. tauto.
Qed.

Section Derivations.

Variable isupper : char -> bool.
Variable rs : list Rule.
Variable words : list str.
Hypothesis rs_gamma_free : gamma_free rs.

Abbreviation step := (step isupper rs words).
Abbreviation wf_chart := (wf_chart rs words).

Abbreviation child_ok := (child_ok isupper words).
Abbreviation derived := (derived isupper words).
Abbreviation derived_chart := (derived_chart isupper words).

Lemma child_ok_mono (c c' : Chart) e n e' n' sym span :
  extends c c' ->
  (Z.to_nat span.2 <= e)%nat ->
  (e < e' \/ e = e' /\ n <= n') ->
  child_ok c e n sym span -> child_ok c' e' n' sym span.
Proof.
  intros Hext Hspan Hle. unfold child_ok.
  destruct (is_nonterminal isupper (Some sym)); [|done].
  intros (col & m & t & Hcol & Hm & Hmatch & Hlt).
  destruct (extends_lookup _ _ _ _ _ _ Hext Hcol Hm) as (col' & Hcol' & Hm').
  exists col', m, t. split_and!; [done..|]. lia.
Qed.

Lemma body_not_gamma s :
  s.(rule) ∈ start_rule :: rs -> gamma ∉ body (rule s).
Proof.
  intros [->|Hr]%elem_of_cons; [|by apply rs_gamma_free].
  simpl. by intros [[=]|[]%not_elem_of_nil]%elem_of_cons.
Qed.

Lemma next_symbol_lookup e s x :
  wf_state rs e s -> is_complete s = false -> next_symbol s = Ok (Some x) ->
  body (rule s) !! length (backpointers s) = Some x.
Proof.
  intros Hwf Hinc Hnext.
  destruct (next_symbol_incomplete s) as (x' & Hx' & Hnext');
    [done|apply Hwf|].
  rewrite Hnext in Hnext'. injection Hnext' as ->.
  destruct Hwf as [_ _ Hlen _ _ _ _]. by rewrite <- Hlen, Nat2Z.id in Hx'.
Qed.

(** The children of an advanced state: those of the state it came from, and
    the new one. *)
Lemma derived_advance (c : Chart) a n0 e n s sym span :
  wf_state rs a s -> a <= e -> (a = e -> n0 <= n) ->
  body (rule s) !! length (backpointers s) = Some sym ->
  derived c a n0 s ->
  span.1 = Z.of_nat a -> span.2 = Z.of_nat e ->
  child_ok c e n sym span ->
  derived c e n (advance s span).
Proof.
  intros Hwf Hae Hn Hsym [Hhead Hchain Hchildren] Hs1 Hs2 Hnew.
  constructor; simpl.
  - done.
  - destruct span as [x y]. simpl in *. subst. apply chain_snoc. split_and!; [done|lia|done].
  - intros k sym' span' Hk Hspan'.
    apply lookup_app_Some in Hspan' as [Hspan'|[Hge Hspan']].
    + eapply (child_ok_mono c c a n0); [apply extends_refl| |lia|by eapply Hchildren].
      destruct Hwf as [_ _ _ _ _ _ Hspans].
      apply (Forall_lookup_1 _ _ _ _ Hspans) in Hspan'. lia.
    + apply list_lookup_singleton_Some in Hspan' as [Hk0 <-].
      assert (k = length (backpointers s)) as -> by lia.
      by assert (sym' = sym) as -> by congruence.
Qed.

Lemma derivable_derived (c : Chart) e col s :
  wf_chart c -> derived_chart c -> c !! e = Some col ->
  derivable isupper rs words c e s -> derived c e (length col) s.
Proof.
  intros Hwf Hder He Hd. pose proof Hwf as [Hlen Hc].
  destruct Hd as
    [col0 s0 r Hcol0 [n0 Hn0]%list_elem_of_lookup Hr Hinc Hnext Hnt
    |p colP s0 w -> HcolP [n0 Hn0]%list_elem_of_lookup Hinc Hnext Hnt Htruthy Hw
    |colE m t a colA s0 HcolE Ht Hcomp Hstart HcolA [n0 Hn0]%list_elem_of_lookup Hinc Hnext].
  - constructor; simpl; [|done|intros k sym span _; by rewrite lookup_nil].
    right. split; [done|]. intros Heq.
    destruct (Hc _ _ Hcol0) as [_ Hwf0].
    pose proof (Forall_lookup_1 _ _ _ _ Hwf0 Hn0) as Hwfs0.
    apply (body_not_gamma s0); [apply Hwfs0|].
    eapply list_elem_of_lookup_2. rewrite <- Heq. by eapply next_symbol_lookup.
  - destruct (Hc _ _ HcolP) as [_ HwfP].
    pose proof (Forall_lookup_1 _ _ _ _ HwfP Hn0) as Hwf0.
    eapply (derived_advance c p n0); [done|lia|lia| |by eapply Hder|simpl..].
    + by eapply next_symbol_lookup.
    + done.
    + lia.
    + unfold child_ok. rewrite Hnt. simpl. rewrite Nat2Z.id.
      split_and!; [done..|]. by destruct w.
  - assert (colE = col) as -> by congruence.
    destruct (Hc _ _ HcolA) as [_ HwfA]. destruct (Hc _ _ He) as [_ HwfE].
    pose proof (Forall_lookup_1 _ _ _ _ HwfA Hn0) as Hwf0.
    pose proof (Forall_lookup_1 _ _ _ _ HwfE Ht) as Hwft.
    pose proof (next_symbol_lookup _ _ _ Hwf0 Hinc Hnext) as Hsym.
    assert (a <= e) as Hae by (destruct Hwft; lia).
    eapply (derived_advance c a n0); [done|done| |done|by eapply Hder|done..|].
    + intros ->. assert (colA = col) as -> by congruence.
      apply lookup_lt_Some in Hn0. lia.
    + unfold child_ok.
      assert (is_nonterminal isupper (Some (head (rule t))) = true) as ->.
      { destruct (Hder _ _ _ _ He Ht) as [[Heq|[Hnt _]] _ _]; [|done].
        exfalso. apply (body_not_gamma s0); [apply Hwf0|].
        eapply list_elem_of_lookup_2. rewrite Hsym, Heq. done. }
      exists col, m, t. simpl. rewrite Nat2Z.id. split_and!; [done..| |].
      * unfold matches. rewrite Hcomp. simpl.
        rewrite !bool_decide_eq_true_2; done.
      * intros _. by eapply lookup_lt_Some.
Qed.

Lemma step_derived (c c' : Chart) :
  wf_chart c -> derived_chart c -> step c c' -> derived_chart c'.
Proof.
  intros Hwf Hder Hst. pose proof Hwf as [_ Hc]. destruct Hst as [e col s He Hnot Hd].
  pose proof (extends_insert c e col s He) as Hext.
  pose proof (derivable_derived c e col s Hwf Hder He Hd) as [Hh Hch Hchildren].
  assert (forall e' col' n' s', c !! e' = Some col' -> col' !! n' = Some s' ->
    derived (<[e := col ++ [s]]> c) e' n' s') as Hold.
  { intros e' col' n' s' He' Hn'. destruct (Hder _ _ _ _ He' Hn') as [Hh' Hch' Hchildren'].
    constructor; [done..|]. intros k sym span Hk Hspan.
    eapply (child_ok_mono c _ e' n'); [done| |lia|by eapply Hchildren'].
    destruct (Hc _ _ He') as [_ Hwf'].
    pose proof (Forall_lookup_1 _ _ _ _ Hwf' Hn') as [_ _ _ _ _ _ Hspans].
    apply (Forall_lookup_1 _ _ _ _ Hspans) in Hspan. lia. }
  intros e' col' n' s' He' Hn'. destruct (decide (e' = e)) as [->|Hne].
  - rewrite list_lookup_insert_eq in He' by (by eapply lookup_lt_Some).
    injection He' as <-. apply lookup_app_Some in Hn' as [Hn'|[Hge Hn']].
    + by eapply Hold.
    + apply list_lookup_singleton_Some in Hn' as [Hn0 <-].
      assert (n' = length col) as -> by lia.
      constructor; [done..|]. intros k sym span Hk Hspan.
      eapply (child_ok_mono c _ e (length col)); [done| |lia|by eapply Hchildren].
      pose proof (derivable_wf _ _ _ _ _ _ Hwf Hd) as [_ _ _ _ _ _ Hspans].
      apply (Forall_lookup_1 _ _ _ _ Hspans) in Hspan. lia.
  - rewrite list_lookup_insert_ne in He' by done. by eapply Hold.
Qed.

Lemma steps_derived (c c' : Chart) :
  wf_chart c -> derived_chart c -> rtc step c c' -> derived_chart c'.
Proof.
  intros Hwf Hder Hst. induction Hst as [|c1 c2 c3 H12 _ IH]; [done|].
  apply IH; [by eapply step_wf|by eapply step_derived].
Qed.

Lemma initial_chart_derived : derived_chart (initial_chart words).
Proof.
  intros [|e] col n s; simpl.
  - intros [= <-] [-> <-]%list_lookup_singleton_Some.
    constructor; simpl; [by left|done|]. intros k sym span _. by rewrite lookup_nil.
  - intros [-> _]%lookup_replicate. by rewrite lookup_nil.
Qed.

End Derivations.

(** ** Trees *)

Lemma slice_empty {A} a (l : list A) : slice a a l = [].
Proof. unfold slice. by rewrite Nat.sub_diag. Qed.

Lemma slice_app {A} a m b (l : list A) :
  (0 <= a <= m)%Z -> (m <= b)%Z -> slice a m l ++ slice m b l = slice a b l.
Proof.
  intros Ham Hmb. unfold slice.
  assert (drop (Z.to_nat m) l
    = drop (Z.to_nat m - Z.to_nat a) (drop (Z.to_nat a) l)) as ->.
  { rewrite drop_drop. f_equal. lia. }
  rewrite take_take_drop. f_equal. lia.
Qed.

Lemma slice_one {A} a (l : list A) x :
  (0 <= a)%Z -> l !! Z.to_nat a = Some x -> slice a (a + 1) l = [x].
Proof.
  intros Ha Hx. unfold slice. rewrite (drop_S _ _ _ Hx).
  replace (Z.to_nat (a + 1) - Z.to_nat a) with 1 by lia. done.
Qed.

Lemma slice_all {A} (l : list A) : slice 0 (Z.of_nat (length l)) l = l.
Proof. unfold slice. simpl. rewrite Nat2Z.id, Nat.sub_0_r. apply firstn_all. Qed.

Lemma find_first {A} (p : A -> bool) (l : list A) m x :
  l !! m = Some x -> p x = true ->
  exists m' y, m' <= m /\ l !! m' = Some y /\ p y = true /\ List.find p l = Some y.
Proof.
  revert m. induction l as [|z l IH]; intros m; [by rewrite lookup_nil|].
  simpl. destruct (p z) eqn:Hz.
  - intros _ _. exists 0, z. split_and!; [lia|done..].
  - destruct m as [|m]; simpl; [intros [= ->]; congruence|].
    intros Hm Hx. destruct (IH m Hm Hx) as (m' & y & ? & ? & ? & ?).
    exists (S m'), y. split_and!; [lia|done..].
Qed.

Lemma rank_lt_column (c : Chart) y col m e n :
  c !! y = Some col -> m < length col -> y < e -> rank c y m < rank c e n.
Proof.
  intros Hy Hm Hlt. unfold rank.
  assert (take e c = take (S y) c ++ drop (S y) (take e c)) as ->.
  { rewrite <- (take_drop (S y) (take e c)) at 1. f_equal.
    rewrite take_take. f_equal. lia. }
  rewrite (take_S_r _ _ _ Hy), !concat_app, !length_app. simpl.
  rewrite length_app. lia.
Qed.

Lemma rank_lt_budget (c : Chart) e col n :
  c !! e = Some col -> n < length col -> rank c e n < tree_budget c.
Proof.
  intros He Hn. unfold rank, tree_budget.
  rewrite <- (take_drop e c) at 2. rewrite (drop_S _ _ _ He).
  rewrite concat_app, length_app. simpl. rewrite length_app. lia.
Qed.

Section Trees.

Variable isupper : char -> bool.
Variable rs : list Rule.
Variable words : list str.

Abbreviation leaves := (leaves isupper).
Abbreviation yield := (yield isupper).

Lemma yield_snoc ts t : yield (ts ++ [t]) = yield ts ++ leaves t.
Proof. unfold yield. rewrite map_app, concat_app. simpl. by rewrite app_nil_r. Qed.

Variable c : Chart.
Hypothesis c_wf : wf_chart rs words c.
Hypothesis c_derived : derived_chart isupper words c.

Abbreviation builds := (builds isupper words c).

Lemma build_child_ok rec e n s k sym span acc :
  builds rec (rank c e n) ->
  wf_state rs e s -> child_ok isupper words c e n sym span ->
  backpointers s !! k = Some span ->
  exists t, build_child isupper rec c s words acc (k, sym) = Ok (acc ++ [t]) /\
    leaves t = slice span.1 span.2 words.
Proof.
  intros Hrec Hwf Hchild Hspan. unfold build_child.
  rewrite (getitem_nat _ _ _ Hspan). cbn [bind].
  destruct Hwf as [_ _ _ _ _ _ Hspans].
  apply (Forall_lookup_1 _ _ _ _ Hspans) in Hspan as [Hx Hy].
  destruct span as [x y]. simpl in Hx, Hy. simpl. unfold child_ok in Hchild.
  destruct (is_nonterminal isupper (Some sym)) eqn:Hnt.
  - destruct Hchild as (col & m & t & Hcol & Hm & Hmatch & Hlt). simpl in *.
    destruct sym as [|ch sym]; [done|]. simpl in Hnt. simpl. rewrite Hnt.
    pose proof (lookup_lt_Some _ _ _ Hcol) as Hlen.
    unfold getitem. rewrite py_index_to_nat by lia. cbn [bind].
    rewrite Hcol. cbn [of_option bind].
    destruct (find_first _ _ _ _ Hm Hmatch) as (m' & f & Hm' & Hf & Hmatch' & ->).
    unfold matches in Hmatch'.
    apply andb_true_iff in Hmatch' as [[Hcomp Hhead%bool_decide_eq_true]%andb_true_iff
      Hstart%bool_decide_eq_true].
    destruct (Hrec (Z.to_nat y) col m' f y) as (tr & -> & Htr); [done..| | |].
    + intros _. by rewrite Hhead.
    + destruct (decide (Z.to_nat y = e)) as [<-|Hne].
      * unfold rank. specialize (Hlt eq_refl). lia.
      * eapply rank_lt_column; [done|by eapply lookup_lt_Some|lia].
    + exists tr. split; [done|]. rewrite Htr, Hstart. f_equal. lia.
  - simpl in Hchild. destruct Hchild as (-> & Hw & Hne).
    destruct sym as [|ch sym]; [done|]. simpl in Hnt. simpl. rewrite Hnt.
    unfold getitem. rewrite py_index_to_nat by (apply lookup_lt_Some in Hw; lia).
    cbn [bind]. rewrite Hw. cbn [of_option bind].
    eexists. split; [done|]. simpl. rewrite Hnt.
    symmetry. apply slice_one; [lia|done].
Qed.

Lemma build_children_ok rec e n s syms :
  builds rec (rank c e n) ->
  wf_state rs e s -> derived isupper words c e n s ->
  forall k acc mid,
    drop k (body (rule s)) = syms ->
    length (backpointers s) = length (body (rule s)) ->
    chain mid (drop k (backpointers s)) (Z.of_nat e) ->
    (0 <= start s <= mid)%Z ->
    yield acc = slice (start s) mid words ->
    exists children,
      build_children isupper rec c s words (zip (seq k (length syms)) syms) acc
        = Ok children /\
      yield children = slice (start s) (Z.of_nat e) words /\
      length children = length acc + length syms.
Proof.
  intros Hrec Hwf Hder. induction syms as [|sym syms IH];
    intros k acc mid Hsyms Hlen Hchain Hmid Hacc;
    cbn [length seq zip_with build_children].
  - exists acc. split_and!; [done| |lia].
    assert (length (body (rule s)) <= k) as Hk.
    { rewrite <- (Nat.sub_0_le). by rewrite <- length_drop, Hsyms. }
    rewrite drop_ge in Hchain by lia. simpl in Hchain. by subst mid.
  - assert (body (rule s) !! k = Some sym) as Hk.
    { rewrite <- (Nat.add_0_r k), <- lookup_drop, Hsyms. done. }
    assert (drop (S k) (body (rule s)) = syms) as Hsyms'.
    { rewrite (drop_S _ _ _ Hk) in Hsyms. by injection Hsyms. }
    destruct (lookup_lt_is_Some_2 (backpointers s) k) as [span Hspan].
    { apply lookup_lt_Some in Hk. lia. }
    rewrite (drop_S _ _ _ Hspan) in Hchain. destruct span as [x y].
    destruct Hchain as (-> & Hxy & Hchain).
    destruct (build_child_ok rec e n s k sym (mid, y) acc)
      as (t & -> & Ht); [done..|by eapply (der_children _ _ _ _ _ _ Hder)|done|].
    cbn [bind]. simpl in Ht.
    destruct (IH (S k) (acc ++ [t]) y) as (children & -> & Hyield & Hlength);
      [done..|lia| |].
    + rewrite yield_snoc, Hacc, Ht. apply slice_app; lia.
    + exists children. split_and!; [done..|]. rewrite Hlength, length_app. simpl. lia.
Qed.

Lemma build_tree_ok fuel :
  builds (_build_tree isupper fuel c) fuel.
Proof.
  induction fuel as [|fuel IH]; intros e col n s pos He Hn Hcomp Hnt Hrank; [lia|].
  destruct c_wf as [_ Hc]. destruct (Hc _ _ He) as [_ Hwf].
  apply (Forall_lookup_1 _ _ _ _ Hwf) in Hn as Hwfs.
  pose proof (c_derived _ _ _ _ He Hn) as Hder.
  pose proof Hwfs as [_ Hdot Hlen Hstart Hzero _ _].
  apply is_complete_true in Hcomp.
  cbn [_build_tree]. destruct (body (rule s)) as [|sym0 syms0] eqn:Hbody.
  - eexists. split; [done|]. cbn [leaves]. rewrite Hnt by done.
    simpl in Hdot. rewrite (Hzero ltac:(lia)). by rewrite slice_empty.
  - destruct (build_children_ok (_build_tree isupper fuel c) e n s (sym0 :: syms0))
      with (k := 0) (acc := @nil ParseTree) (mid := start s)
      as (children & Hchildren & Hyield & Hlength).
    + intros y' col' m' f' pos' ? ? ? ? ?. eapply (IH y'); try done. lia.
    + done.
    + done.
    + by rewrite Hbody.
    + rewrite Hbody. simpl in *. lia.
    + apply Hder.
    + lia.
    + by rewrite slice_empty.
    + unfold enumerate. rewrite Hchildren. cbn [bind].
      eexists. split; [done|]. simpl in Hlength.
      destruct children as [|t ts]; [simpl in Hlength; lia|]. done.
Qed.

End Trees.

(** ** The acceptance check *)

Lemma find_Some_first {A} (p : A -> bool) (l : list A) x :
  List.find p l = Some x <->
  exists n, l !! n = Some x /\ p x = true /\
    forall n' y, n' < n -> l !! n' = Some y -> p y = false.
Proof.
  induction l as [|z l IH]; simpl.
  - split; [done|]. intros (n & Hn & _). by rewrite lookup_nil in Hn.
  - destruct (p z) eqn:Hz.
    + split.
      * intros [= ->]. exists 0. split_and!; [done..|]. intros; lia.
      * intros ([|n] & Hn & Hx & Hfirst); [by injection Hn as ->|].
        specialize (Hfirst 0 z ltac:(lia) eq_refl). congruence.
    + rewrite IH. split.
      * intros (n & Hn & Hx & Hfirst). exists (S n). split_and!; [done..|].
        intros [|n'] y Hlt; simpl; [by intros [= <-]|]. apply Hfirst. lia.
      * intros ([|n] & Hn & Hx & Hfirst); [injection Hn as ->; congruence|].
        exists n. split_and!; [done..|]. intros n' y Hlt Hy.
        apply (Hfirst (S n')); [lia|done].
Qed.

Lemma find_None_all {A} (p : A -> bool) (l : list A) :
  List.find p l = None <-> forall x, x ∈ l -> p x = false.
Proof.
  induction l as [|z l IH]; simpl.
  - split; [|done]. by intros _ x ?%not_elem_of_nil.
  - destruct (p z) eqn:Hz.
    + split; [done|]. intros H. specialize (H z ltac:(left)). congruence.
    + rewrite IH. split.
      * intros H x [->|Hx]%elem_of_cons; [done|by apply H].
      * intros H x Hx. apply H. by right.
Qed.

Lemma is_S_state_spec s : is_S_state s = true <-> S_candidate s.
Proof.
  unfold is_S_state, S_candidate.
  rewrite !andb_true_iff, !bool_decide_eq_true. tauto.
Qed.

Lemma is_S_state_false s : is_S_state s = false <-> ~ S_candidate s.
Proof. rewrite <- is_S_state_spec. by destruct (is_S_state s). Qed.

Section Acceptance.

Variable isupper : char -> bool.
Variable rs : list Rule.
Variable words : list str.
Hypothesis rs_gamma_free : gamma_free rs.

Variable c : Chart.
Hypothesis c_wf : wf_chart rs words c.
Hypothesis c_derived : derived_chart isupper words c.

Lemma is_accepting_spec e col s :
  c !! e = Some col -> s ∈ col -> is_accepting s = true <-> accepting s.
Proof.
  intros He [n Hn]%list_elem_of_lookup. unfold is_accepting, accepting.
  rewrite !andb_true_iff, !bool_decide_eq_true.
  split; [|intros (-> & ? & ?); by split_and!].
  intros [[Hhead ?] ?]. split_and!; [|done..].
  by destruct (c_derived _ _ _ _ He Hn) as [[?|[_ ?]] _ _].
Qed.

Lemma S_state_tree last s :
  c !! length words = Some last -> s ∈ last -> S_candidate s ->
  exists t,
    _build_tree isupper (tree_budget c) c s (Z.of_nat (length words)) words
      = Ok t /\
    leaves isupper t = words.
Proof.
  intros Hlast [n Hn]%list_elem_of_lookup (Hcomp & _ & Hstart & Hbp).
  destruct (build_tree_ok isupper rs words c c_wf c_derived (tree_budget c)
    (length words) last n s (Z.of_nat (length words))) as (t & Ht & Hleaves);
    [done..| | |].
  - destruct c_wf as [_ Hc]. destruct (Hc _ _ Hlast) as [_ Hwf].
    apply (Forall_lookup_1 _ _ _ _ Hwf) in Hn as [_ Hdot Hlen _ _ _ _].
    intros Hbody. rewrite Hbody in Hdot. simpl in Hdot. lia.
  - eapply rank_lt_budget; [done|by eapply lookup_lt_Some].
  - exists t. split; [done|]. by rewrite Hleaves, Hstart, slice_all.
Qed.

Lemma check_accepted_spec :
  exists last accepted tree,
    c !! length words = Some last /\
    check_accepted isupper c words = Ok (accepted, tree) /\
    (accepted = true <-> exists s, s ∈ last /\ accepting s) /\
    (accepted = true ->
       (exists s t, first_in S_candidate last s /\
          _build_tree isupper (tree_budget c) c s (Z.of_nat (length words)) words
            = Ok t /\
          tree = Some t /\ leaves isupper t = words) \/
       (forall s, s ∈ last -> ~ S_candidate s) /\ tree = None) /\
    (accepted = false -> tree = None).
Proof.
  destruct (lookup_lt_is_Some_2 c (length words)) as [last Hlast];
    [destruct c_wf; lia|].
  exists last. unfold check_accepted. rewrite (getitem_nat _ _ _ Hlast). cbn [bind].
  destruct (List.find is_accepting last) as [g|] eqn:Hacc.
  - apply find_Some_first in Hacc as (n & Hn & Hg & _).
    assert (exists s, s ∈ last /\ accepting s) as Hex.
    { exists g. apply list_elem_of_lookup_2 in Hn. split; [done|].
      by eapply is_accepting_spec. }
    destruct (List.find is_S_state last) as [s|] eqn:HS.
    + apply find_Some_first in HS as (m & Hm & Hs%is_S_state_spec & Hfirst).
      destruct (S_state_tree last s) as (t & Ht & Hleaves);
        [done|by eapply list_elem_of_lookup_2|done|].
      rewrite Ht. cbn [bind]. exists true, (Some t). split_and!; [done..| |done].
      intros _. left. exists s, t. split_and!; [|done..].
      exists m. split_and!; [done..|]. intros n' y Hlt Hy. apply is_S_state_false. eauto.
    + exists true, None. split_and!; [done..| |done].
      intros _. right. split; [|done]. intros s Hs. apply is_S_state_false.
      by eapply find_None_all.
  - exists false, None. split_and!; [done..| |done|done].
    split; [done|]. intros (s & Hs & Hacc'). 
    eapply is_accepting_spec in Hacc'; [|done..].
    rewrite find_None_all in Hacc. rewrite Hacc in Hacc' by done. done.
Qed.

End Acceptance.

(** ** The charts of a parse

    The charts of [parse_chart] are well formed, the loops of [parse] stay
    within them, and their columns hold no state twice. *)

Section ParseCharts.

Variable isupper : char -> bool.
Variable rs : list Rule.
Variable words : list str.

Abbreviation parse_chart := (parse_chart isupper rs words).

Lemma parse_chart_process (c : Chart) i col state c' :
  parse_chart c -> c !! i = Some col -> state ∈ col ->
  process isupper rs state i words c = Ok c' -> parse_chart c'.
Proof.
  intros Hpc Hi Hs. unfold process.
  destruct (is_complete state) eqn:Hcomp; cbn [negb];
    [by apply (pc_complete _ _ _ c i col state)|].
  intros Hb. apply bind_Ok in Hb as (ns & Hns & Hb).
  destruct (is_nonterminal isupper ns) eqn:Hnt.
  - by apply (pc_predict _ _ _ c i col state ns).
  - by apply (pc_scan _ _ _ c i col state ns).
Qed.

Lemma parse_chart_steps c :
  parse_chart c ->
  wf_chart rs words c /\ rtc (step isupper rs words) (initial_chart words) c.
Proof.
  induction 1 as
    [|c i col state ns c' _ [Hwf Hsteps] Hi Hs Hcomp Hns Hnt Hop
     |c i col state ns c' _ [Hwf Hsteps] Hi Hs Hcomp Hns Hnt Hop
     |c i col state c' _ [Hwf Hsteps] Hi Hs Hcomp Hop].
  - split; [apply initial_chart_wf|done].
  - destruct (predict_steps isupper rs words c i col state) as (c2 & Hc2 & Hst);
      [done..|].
    assert (c2 = c') as -> by congruence.
    split; [by eapply steps_wf|by etrans].
  - destruct (scan_steps isupper rs words c i col state) as (c2 & Hc2 & Hst);
      [done..| |].
    { intros x. rewrite Hns. by intros [= <-]. }
    assert (c2 = c') as -> by congruence.
    split; [by eapply steps_wf|by etrans].
  - destruct (complete_steps isupper rs words c i col state) as (c2 & Hc2 & Hst);
      [done..|].
    assert (c2 = c') as -> by congruence.
    split; [by eapply steps_wf|by etrans].
Qed.

Lemma while_loop_parse_chart fuel i j (c c' : Chart) :
  parse_chart c -> while_loop isupper rs fuel i j words c = Ok c' ->
  parse_chart c'.
Proof.
  revert j c. induction fuel as [|fuel IH]; intros j c Hpc; simpl; [done|].
  intros Hb. apply bind_Ok in Hb as (col & Hcol%of_option_Ok & Hb).
  destruct (j <? length col); [|by injection Hb as <-].
  apply bind_Ok in Hb as (state & Hstate%of_option_Ok & Hb).
  apply bind_Ok in Hb as (c1 & Hc1 & Hb).
  eapply IH; [|done]. eapply parse_chart_process; [done..| |done].
  by eapply list_elem_of_lookup_2.
Qed.

Lemma for_loop_parse_chart fuel range (c c' : Chart) :
  parse_chart c -> for_loop isupper rs fuel range words c = Ok c' ->
  parse_chart c'.
Proof.
  revert c. induction range as [|i range IH]; intros c Hpc; simpl;
    [by intros [= <-]|].
  intros Hb. apply bind_Ok in Hb as (c1 & Hc1 & Hb).
  eapply IH; [|done]. by eapply while_loop_parse_chart.
Qed.

(** [parse] always finishes the construction of its chart, and the chart is
    one of [parse_chart]. *)
Lemma build_chart_parse_chart :
  exists c, build_chart isupper rs words = Ok c /\ parse_chart c.
Proof.
  destruct (build_chart_steps isupper rs words) as (c & Hc & _).
  exists c. split; [done|]. revert Hc. unfold build_chart.
  rewrite Nat.add_1_r. simpl replicate.
  change (_add_to_chart _ 0 _) with (Ok (initial_chart words)). cbn [bind].
  apply for_loop_parse_chart. constructor.
Qed.

Lemma parse_chart_NoDup c : parse_chart c -> Forall NoDup c.
Proof.
  induction 1 as
    [|c i col state ns c' _ IH _ _ _ _ _ Hop
     |c i col state ns c' _ IH _ _ _ _ _ Hop
     |c i col state c' _ IH _ _ _ Hop].
  - constructor; [apply NoDup_singleton|].
    apply Forall_forall. intros col [-> _]%elem_of_replicate. apply NoDup_nil_2.
  - exact (predict_preserved _ add_to_chart_NoDup _ _ _ _ _ _ IH Hop).
  - exact (scan_preserved _ add_to_chart_NoDup _ _ _ _ _ IH Hop).
  - exact (complete_preserved _ add_to_chart_NoDup _ _ _ _ IH Hop).
Qed.

End ParseCharts.

(** ** What [complete] adds *)

Section CompleteSpec.

Variable state : State.
Variable a i : nat.

Let h := head (rule state).
Let adv (s : State) := advance s (Z.of_nat a, Z.of_nat i).

Lemma complete_step_spec (c : Chart) colI s :
  start state = Z.of_nat a -> c !! i = Some colI -> (0 <= dot s)%Z ->
  complete_step state (Z.of_nat i) s c =
    Ok (if bool_decide (waits_for s h /\ adv s ∉ colI)
        then <[i := colI ++ [adv s]]> c else c).
Proof.
  intros Hstart Hi Hdot. unfold complete_step.
  destruct (is_complete s) eqn:Hcomp; cbn [negb].
  { rewrite bool_decide_eq_false_2; [done|]. intros [[Hinc _] _].
    by rewrite Hcomp in Hinc. }
  destruct (next_symbol_incomplete s Hcomp Hdot) as (x & _ & Hnext).
  rewrite Hnext. cbn [bind]. case_bool_decide as Hx.
  - injection Hx as ->. rewrite Hstart, (add_to_chart_nat _ _ _ _ Hi).
    fold (adv s). fold h. case_bool_decide as Hin.
    + rewrite bool_decide_eq_false_2; [done|]. by intros [_ ?].
    + rewrite bool_decide_eq_true_2; [done|]. by split.
  - rewrite bool_decide_eq_false_2; [done|]. intros [[_ Heq] _].
    rewrite Hnext in Heq. by injection Heq as ->.
Qed.

Lemma complete_loop_spec fuel : forall k (c : Chart) colI colA added,
  start state = Z.of_nat a ->
  c !! i = Some (colI ++ added) -> c !! a = Some colA ->
  Forall (fun s => (0 <= dot s)%Z) colA ->
  weight (drop k colA) < fuel ->
  NoDup added ->
  (forall t, t ∈ added ->
     (t ∉ colI) /\ exists s, s ∈ take k colA /\ waits_for s h /\ t = adv s) ->
  (forall s, s ∈ take k colA -> waits_for s h -> adv s ∈ colI ++ added) ->
  exists c' added' colA',
    complete_loop fuel state (Z.of_nat i) a k c = Ok c' /\
    length c' = length c /\
    (forall e, e <> i -> c' !! e = c !! e) /\
    c' !! i = Some (colI ++ added') /\
    c' !! a = Some colA' /\
    NoDup added' /\
    (forall t, t ∈ added' ->
       (t ∉ colI) /\ exists s, s ∈ colA' /\ waits_for s h /\ t = adv s) /\
    (forall s, s ∈ colA' -> waits_for s h -> adv s ∈ colI ++ added').
Proof.
  induction fuel as [|fuel IH];
    intros k c colI colA added Hstart Hi Ha Hvalid Hfuel Hnd Hadded Hall; [lia|].
  cbn [complete_loop]. rewrite Ha. cbn [of_option bind].
  destruct (colA !! k) as [s|] eqn:Hk.
  2:{ apply lookup_ge_None in Hk. rewrite take_ge in Hadded, Hall by done.
      exists c, added, colA. split_and!; done. }
  pose proof (Forall_lookup_1 _ _ _ _ Hvalid Hk) as Hdot. cbn beta in Hdot.
  rewrite (complete_step_spec c (colI ++ added) s Hstart Hi Hdot). cbn [bind].
  rewrite (weight_drop _ _ _ Hk) in Hfuel.
  pose proof (lookup_lt_Some _ _ _ Hk) as Hklt.
  assert (forall x, x ∈ take (S k) colA <-> x ∈ take k colA \/ x = s) as Htake.
  { intros x. rewrite (take_S_r _ _ _ Hk), elem_of_app, list_elem_of_singleton. done. }
  case_bool_decide as Hw.
  - destruct Hw as [Hw Hnew].
    destruct (insert_snoc_lookup c i a (colI ++ added) colA (adv s) Hi Ha)
      as (colA' & Ha' & HcolA').
    assert (take (S k) colA' = take (S k) colA /\
            drop (S k) colA' = drop (S k) colA ++
              (if decide (a = i) then [adv s] else []) /\
            Forall (fun s => (0 <= dot s)%Z) colA') as (Htk & Hdr & Hvalid').
    { destruct HcolA' as [[Hne ->]|(Heq & _ & ->)].
      - rewrite decide_False by done. by rewrite app_nil_r.
      - rewrite decide_True by done. rewrite take_app_le, drop_app_le by lia.
        split_and!; [done..|]. apply Forall_app. split; [done|].
        apply Forall_singleton. simpl. lia. }
    destruct (IH (S k) (<[i := (colI ++ added) ++ [adv s]]> c) colI colA'
      (added ++ [adv s]))
      as (c' & added' & colA'' & Hloop & Hlen & Hother & Hi' & Ha'' & Hnd' & Ht' & Hs').
    + done.
    + rewrite list_lookup_insert_eq by (by eapply lookup_lt_Some). by rewrite app_assoc.
    + done.
    + done.
    + rewrite Hdr. destruct (decide (a = i)).
      * rewrite weight_snoc. pose proof (remaining_advance s (Z.of_nat a, Z.of_nat i) (proj1 Hw)).
        fold (adv s) in *. lia.
      * rewrite app_nil_r. lia.
    + apply NoDup_app. split_and!; [done| |apply NoDup_singleton].
      intros x Hx ->%list_elem_of_singleton. apply Hnew, elem_of_app. by right.
    + intros t [Ht|Ht%list_elem_of_singleton]%elem_of_app; [|subst t].
      * destruct (Hadded t Ht) as (? & s' & ? & ? & ?). split; [done|].
        exists s'. rewrite Htk, Htake. eauto.
      * split; [intros ?; apply Hnew, elem_of_app; by left|].
        exists s. rewrite Htk, Htake. eauto.
    + intros s'. rewrite Htk, Htake, app_assoc. intros [Hs'| ->] Hw'.
      * apply elem_of_app. left. by apply Hall.
      * apply elem_of_app. right. by apply list_elem_of_singleton.
    + exists c', added', colA''. rewrite Hloop. split_and!; try done.
      * by rewrite Hlen, length_insert.
      * intros e He. rewrite Hother by done. by rewrite list_lookup_insert_ne.
  - destruct (IH (S k) c colI colA added)
      as (c' & added' & colA'' & Hloop & Hrest); try done.
    + lia.
    + intros t Ht. destruct (Hadded t Ht) as (? & s' & ? & ? & ?). split; [done|].
      exists s'. rewrite Htake. eauto.
    + intros s'. rewrite Htake. intros [Hs'| ->] Hw'; [by apply Hall|].
      destruct (decide (adv s ∈ colI ++ added)) as [|Hnot]; [done|].
      exfalso. by apply Hw.
    + exists c', added', colA''. by rewrite Hloop.
Qed.

End CompleteSpec.

(** ** The engine only looks at [isupper] through the symbols it meets *)

Section Extensional.

Variables f g : char -> bool.
Hypothesis fg : forall ch, f ch = g ch.

Lemma is_nonterminal_ext x : is_nonterminal f x = is_nonterminal g x.
Proof. destruct x as [[|ch ?]|]; simpl; auto. Qed.

Lemma predict_ext rs state pos (c : Chart) :
  predict f rs state pos c = predict g rs state pos c.
Proof. unfold predict. destruct (next_symbol state); simpl; [|done]. by rewrite is_nonterminal_ext. Qed.

Lemma process_ext rs state i words (c : Chart) :
  process f rs state i words c = process g rs state i words c.
Proof.
  unfold process. destruct (negb (is_complete state)); [|done].
  destruct (next_symbol state) as [ns|]; simpl; [|done].
  by rewrite is_nonterminal_ext, predict_ext.
Qed.

Lemma while_loop_ext rs fuel i j words (c : Chart) :
  while_loop f rs fuel i j words c = while_loop g rs fuel i j words c.
Proof.
  revert j c. induction fuel as [|fuel IH]; intros j c; simpl; [done|].
  destruct (of_option (c !! i)) as [col|]; simpl; [|done].
  destruct (j <? length col); [|done].
  destruct (of_option (col !! j)) as [state|]; simpl; [|done].
  rewrite process_ext. destruct (process g rs state i words c); simpl; [|done].
  apply IH.
Qed.

Lemma for_loop_ext rs fuel range words (c : Chart) :
  for_loop f rs fuel range words c = for_loop g rs fuel range words c.
Proof.
  revert c. induction range as [|i range IH]; intros c; simpl; [done|].
  rewrite while_loop_ext. destruct (while_loop g rs fuel i 0 words c); simpl; [|done].
  apply IH.
Qed.

Lemma build_chart_ext rs words : build_chart f rs words = build_chart g rs words.
Proof.
  unfold build_chart. destruct (_add_to_chart _ _ _); simpl; [|done].
  apply for_loop_ext.
Qed.

Lemma build_child_ext rec1 rec2 (c : Chart) state words children item :
  (forall s pos ws, rec1 s pos ws = rec2 s pos ws) ->
  build_child f rec1 c state words children item
  = build_child g rec2 c state words children item.
Proof.
  intros Hrec. unfold build_child. destruct item as [i symbol].
  destruct (getitem (backpointers state) (Z.of_nat i)) as [[start_pos end_pos]|];
    simpl; [|done].
  destruct (of_option (symbol !! 0)) as [ch|]; simpl; [|done].
  rewrite fg. destruct (g ch); [|done].
  destruct (getitem c end_pos) as [col|]; simpl; [|done].
  destruct (List.find _ col); [|done]. by rewrite Hrec.
Qed.

Lemma build_children_ext rec1 rec2 (c : Chart) state words items children :
  (forall s pos ws, rec1 s pos ws = rec2 s pos ws) ->
  build_children f rec1 c state words items children
  = build_children g rec2 c state words items children.
Proof.
  intros Hrec. revert children. induction items as [|item items IH];
    intros children; simpl; [done|].
  rewrite (build_child_ext rec1 rec2) by done.
  destruct (build_child g rec2 c state words children item); simpl; [|done].
  apply IH.
Qed.

Lemma build_tree_ext fuel (c : Chart) state pos words :
  _build_tree f fuel c state pos words = _build_tree g fuel c state pos words.
Proof.
  revert state pos words. induction fuel as [|fuel IH]; intros state pos words;
    simpl; [done|].
  destruct (body (rule state)); [done|].
  by rewrite (build_children_ext (_build_tree f fuel c) (_build_tree g fuel c)).
Qed.

Lemma check_accepted_ext (c : Chart) words :
  check_accepted f c words = check_accepted g c words.
Proof.
  unfold check_accepted. destruct (getitem c _) as [last|]; cbn [bind]; [|done].
  destruct (List.find is_accepting last); [|done].
  destruct (List.find is_S_state last); [|done]. by rewrite build_tree_ext.
Qed.

Lemma parse_ext split self sentence :
  parse f split self sentence = parse g split self sentence.
Proof.
  unfold parse. rewrite build_chart_ext.
  destruct (build_chart g (rules self) (split sentence)) as [c|]; simpl; [|done].
  by rewrite check_accepted_ext.
Qed.

End Extensional.

Lemma epsilon_grammar_gamma_free : gamma_free epsilon_grammar.
Proof.
  intros r Hr. unfold epsilon_grammar in Hr.
  repeat (apply elem_of_cons in Hr as [->|Hr]); [| |by apply not_elem_of_nil in Hr];
    simpl; intros Hg; repeat (apply elem_of_cons in Hg as [Hg|Hg]; [done|]);
    by apply not_elem_of_nil in Hg.
Defined.

(** ** [parse] as a whole *)

Lemma build_chart_derived isupper rs words :
  gamma_free rs ->
  exists c, build_chart isupper rs words = Ok c /\
    wf_chart rs words c /\ derived_chart isupper words c.
Proof.
  intros Hfree. destruct (build_chart_steps isupper rs words) as (c & Hc & Hsteps & Hwf).
  exists c. split_and!; [done..|].
  eapply steps_derived; [done|apply initial_chart_wf|apply initial_chart_derived|done].
Qed.

Lemma parse_spec isupper split self sentence :
  gamma_free (rules self) ->
  exists c last accepted tree,
    build_chart isupper (rules self) (split sentence) = Ok c /\
    c !! length (split sentence) = Some last /\
    parse isupper split self sentence
      = Ok (mkEarleyParser (rules self) c, (accepted, tree)) /\
    (accepted = true <-> exists s, s ∈ last /\ accepting s) /\
    (accepted = true ->
       (exists s t, first_in S_candidate last s /\
          _build_tree isupper (tree_budget c) c s
            (Z.of_nat (length (split sentence))) (split sentence) = Ok t /\
          tree = Some t /\ leaves isupper t = split sentence) \/
       (forall s, s ∈ last -> ~ S_candidate s) /\ tree = None) /\
    (accepted = false -> tree = None).
Proof.
  intros Hfree.
  destruct (build_chart_derived isupper (rules self) (split sentence) Hfree)
    as (c & Hc & Hwf & Hder).
  destruct (check_accepted_spec isupper (rules self) (split sentence) c Hwf Hder)
    as (last & accepted & tree & Hlast & Hcheck & Hrest).
  exists c, last, accepted, tree. split_and!; [done..| |apply Hrest|apply Hrest|apply Hrest].
  unfold parse. rewrite Hc. cbn [bind]. by rewrite Hcheck.
Qed.

(** ** The chart of the example *)

Lemma epsilon_build_chart :
  build_chart ascii_isupper epsilon_grammar [x_symbol] = Ok epsilon_chart.
Proof. vm_compute. reflexivity. Defined.

Lemma epsilon_chart_parse_chart :
  parse_chart ascii_isupper epsilon_grammar [x_symbol] epsilon_chart.
Proof.
  destruct (build_chart_parse_chart ascii_isupper epsilon_grammar [x_symbol])
    as (c & Hc & Hpc).
  rewrite epsilon_build_chart in Hc. by injection Hc as <-.
Defined.

(** ** Tree building at a symbol without a match *)

Lemma enumerate_lookup {A} (l : list A) k x :
  l !! k = Some x -> enumerate l !! k = Some (k, x).
Proof.
  intros Hk. unfold enumerate. rewrite lookup_zip_with.
  rewrite lookup_seq_lt by (by eapply lookup_lt_Some). simpl. by rewrite Hk.
Qed.

Lemma enumerate_length {A} (l : list A) : length (enumerate l) = length l.
Proof. unfold enumerate. rewrite length_zip_with, length_seq. lia. Qed.

(** The iteration for a nonterminal without a match leaves the children as
    they are. *)
Lemma build_child_no_match isupper rec (c : Chart) state words
    children i symbol ch start_pos end_pos col :
  backpointers state !! i = Some (start_pos, end_pos) ->
  symbol !! 0 = Some ch -> isupper ch = true ->
  getitem c end_pos = Ok col ->
  (forall s, s ∈ col -> matches symbol start_pos s = false) ->
  build_child isupper rec c state words children (i, symbol) = Ok children.
Proof.
  intros Hspan Hch Hupper Hcol Hnone. unfold build_child.
  rewrite (getitem_nat _ _ _ Hspan). cbn [bind]. rewrite Hch. cbn [of_option bind].
  rewrite Hupper, Hcol. cbn [bind].
  by rewrite (proj2 (find_None_all _ _) Hnone).
Qed.

(** An iteration appends one child at most. *)
Lemma build_child_length isupper rec (c : Chart) state words acc item children :
  build_child isupper rec c state words acc item = Ok children ->
  length children <= S (length acc).
Proof.
  destruct item as [i symbol]. unfold build_child. intros Hb.
  apply bind_Ok in Hb as ([x y] & _ & Hb).
  apply bind_Ok in Hb as (ch & _ & Hb). destruct (isupper ch).
  - apply bind_Ok in Hb as (col & _ & Hb).
    destruct (List.find (matches symbol x) col).
    + apply bind_Ok in Hb as (t & _ & [= <-]). rewrite length_app. simpl. lia.
    + injection Hb as <-. lia.
  - apply bind_Ok in Hb as (w & _ & [= <-]). rewrite length_app. simpl. lia.
Qed.

Lemma build_children_length isupper rec (c : Chart) state words items acc
    children :
  build_children isupper rec c state words items acc = Ok children ->
  length children <= length acc + length items.
Proof.
  revert acc. induction items as [|item items IH]; intros acc; simpl.
  - intros [= <-]. lia.
  - intros Hb. apply bind_Ok in Hb as (acc' & Hacc' & Hb).
    apply build_child_length in Hacc'. apply IH in Hb. lia.
Qed.

(** The loop over the body symbols runs as if the symbol without a match
    were not there. *)
Lemma build_children_skip isupper rec (c : Chart) state words
    i symbol ch start_pos end_pos col :
  backpointers state !! i = Some (start_pos, end_pos) ->
  symbol !! 0 = Some ch -> isupper ch = true ->
  getitem c end_pos = Ok col ->
  (forall s, s ∈ col -> matches symbol start_pos s = false) ->
  forall items k acc,
    items !! k = Some (i, symbol) ->
    build_children isupper rec c state words items acc
    = build_children isupper rec c state words (delete k items) acc.
Proof.
  intros Hspan Hch Hupper Hcol Hnone.
  induction items as [|item items IH]; intros k acc; [by rewrite lookup_nil|].
  destruct k as [|k]; simpl.
  - intros [= ->].
    by rewrite (build_child_no_match _ _ _ _ _ _ _ _ _ _ _ _ Hspan Hch Hupper Hcol Hnone).
  - intros Hk. destruct (build_child isupper rec c state words acc item);
      cbn [bind]; [by apply IH|done].
Qed.

(** * The specification, claim by claim *)

(** C1 (as amended): for every grammar whose rule bodies do not mention the
    reserved symbol γ, [parse] builds its chart and returns; it returns
    accepted = true exactly when the last column of that chart holds a
    complete state of the augmented start rule with start 0; when it
    accepts, the tree is the one [_build_tree] builds from the first state
    of the last column that is complete, has head S, start 0 and at least
    one backpointer, and there is no tree when the column has no such
    state; when it rejects there is no tree. *)
Theorem parse_acceptance isupper split self sentence :
  gamma_free (rules self) ->
  exists c last accepted tree,
    build_chart isupper (rules self) (split sentence) = Ok c /\
    c !! length (split sentence) = Some last /\
    parse isupper split self sentence
      = Ok (mkEarleyParser (rules self) c, (accepted, tree)) /\
    (accepted = true <-> exists s, s ∈ last /\ accepting s) /\
    (accepted = true ->
       (exists s t, first_in S_candidate last s /\
          _build_tree isupper (tree_budget c) c s
            (Z.of_nat (length (split sentence))) (split sentence) = Ok t /\
          tree = Some t) \/
       (forall s, s ∈ last -> ~ S_candidate s) /\ tree = None) /\
    (accepted = false -> tree = None).
Proof.
  intros Hfree.
  destruct (parse_spec isupper split self sentence Hfree)
    as (c & last & accepted & tree & Hc & Hlast & Hparse & Hacc & Htree & Hrej).
  exists c, last, accepted, tree. split_and!; [done..| |done].
  intros Htrue. destruct (Htree Htrue) as [(s & t & ? & ? & ? & _)|?]; [|by right].
  left. by exists s, t.
Qed.

Lemma parse_acceptance_witness :
  gamma_free (rules epsilon_parser) /\
  exists c accepted tree,
    parse ascii_isupper ascii_split epsilon_parser x_symbol
      = Ok (mkEarleyParser epsilon_grammar c, (accepted, tree)).
Proof.
  split; [exact epsilon_grammar_gamma_free|].
  destruct (parse_acceptance ascii_isupper ascii_split epsilon_parser x_symbol
    epsilon_grammar_gamma_free) as (c & last & accepted & tree & _ & _ & Hparse & _).
  by exists c, accepted, tree.
Defined.

(** C1 as stated fails when a rule body mentions γ.  [parse] uses the
    literal ['γ'] as the head of its start rule and nothing keeps a grammar
    from using it too; a state that waits for γ is advanced by the
    completion of the start rule itself.  For [S → ε | γ] and the empty
    sentence the only column of the finished chart holds the complete start
    state [γ → S •] with start 0, and yet [parse] returns nothing: it picks
    [S → γ •] as the S state and the tree builder subscripts the empty
    token list. *)
Lemma accepting_state_without_result :
  ascii_split [] = [] /\
  build_chart ascii_isupper collision_grammar []
    = Ok [[mkState start_rule 0 0 [];
           mkState (mkRule S_symbol []) 0 0 [];
           mkState start_rule 1 0 [(0, 0)%Z];
           mkState (mkRule S_symbol [gamma]) 0 0 [];
           mkState (mkRule S_symbol [gamma]) 1 0 [(0, 0)%Z]]] /\
  accepting (mkState start_rule 1 0 [(0, 0)%Z]) /\
  parse ascii_isupper ascii_split (mkEarleyParser collision_grammar []) []
    = Raise IndexError.
Proof.
  split_and!; [reflexivity|vm_compute; reflexivity|by split_and!|
    vm_compute; reflexivity].
Qed.

(** C2 (as amended): for every grammar whose rule bodies do not mention the
    reserved symbol γ, and every sentence for which [parse] returns
    accepted = true together with a tree, the leaves of the tree, read left
    to right, are exactly the input tokens. *)
Theorem leaves_are_the_tokens isupper split self sentence self' t :
  gamma_free (rules self) ->
  parse isupper split self sentence = Ok (self', (true, Some t)) ->
  leaves isupper t = split sentence.
Proof.
  intros Hfree Hparse.
  destruct (parse_spec isupper split self sentence Hfree)
    as (c & last & accepted & tree & _ & _ & Hparse' & _ & Htree & _).
  rewrite Hparse in Hparse'. injection Hparse' as _ <- <-.
  destruct (Htree eq_refl) as [(s & t' & _ & _ & [= ->] & Hleaves)|[_ [=]]].
  done.
Qed.

Lemma leaves_are_the_tokens_witness :
  gamma_free (rules epsilon_parser) /\
  parse ascii_isupper ascii_split epsilon_parser x_symbol
    = Ok (mkEarleyParser epsilon_grammar
            [[mkState start_rule 0 0 []; mkState S_rule 0 0 [];
              mkState A_rule 0 0 []; mkState S_rule 1 0 [(0, 0)%Z]];
             [mkState S_rule 2 0 [(0, 0)%Z; (0, 1)%Z];
              mkState start_rule 1 0 [(0, 1)%Z]]],
          (true, Some epsilon_tree)) /\
  leaves ascii_isupper epsilon_tree = ascii_split x_symbol.
Proof.
  split; [exact epsilon_grammar_gamma_free|].
  assert (parse ascii_isupper ascii_split epsilon_parser x_symbol
    = Ok (mkEarleyParser epsilon_grammar
            [[mkState start_rule 0 0 []; mkState S_rule 0 0 [];
              mkState A_rule 0 0 []; mkState S_rule 1 0 [(0, 0)%Z]];
             [mkState S_rule 2 0 [(0, 0)%Z; (0, 1)%Z];
              mkState start_rule 1 0 [(0, 1)%Z]]],
          (true, Some epsilon_tree))) as Hparse by (vm_compute; reflexivity).
  split; [exact Hparse|].
  exact (leaves_are_the_tokens ascii_isupper ascii_split epsilon_parser x_symbol
    _ epsilon_tree epsilon_grammar_gamma_free Hparse).
Defined.

(** C2 as stated fails when a rule body mentions γ: for [S → a a | X c],
    [X → γ b] and the sentence ["a a b c"], [parse] accepts and returns the
    tree [S(X("a", "b"), "c")].  The span of γ in [X → γ b] is the span
    (0, 2) of the completed start rule, and the tree builder puts the single
    token [words[0]] there. *)
Lemma leaves_differ_from_tokens :
  exists self',
    ascii_split a_a_b_c = [a_symbol; a_symbol; b_symbol; c_symbol] /\
    parse ascii_isupper ascii_split (mkEarleyParser lost_token_grammar [])
      a_a_b_c
    = Ok (self', (true, Some lost_token_tree)) /\
    leaves ascii_isupper lost_token_tree = [a_symbol; b_symbol; c_symbol] /\
    leaves ascii_isupper lost_token_tree <> ascii_split a_a_b_c.
Proof.
  eexists. split_and!; [reflexivity|vm_compute; reflexivity|reflexivity|].
  vm_compute. discriminate.
Qed.

(** The leaves of C2 are the leaves as C6 counts them: in [S(A(), "x")] the
    node for [A] has no children and is no leaf. *)
Example epsilon_node_is_no_leaf :
  childless_nodes epsilon_tree = [A_symbol; x_symbol] /\
  leaves ascii_isupper epsilon_tree = [x_symbol].
Proof. split; reflexivity. Qed.

(** C3: [parse] builds its chart through charts of [parse_chart] (the
    initial chart and whatever the [predict], [scan] and [complete] calls of
    the work list make of it); no column of such a chart holds the same
    state twice; and every single insertion keeps it so, because
    [_add_to_chart] either leaves the chart alone or appends the state to a
    column that did not hold it. *)
Theorem chart_columns_have_no_duplicates isupper rs words :
  (exists c, build_chart isupper rs words = Ok c /\
     parse_chart isupper rs words c) /\
  (forall c, parse_chart isupper rs words c -> Forall NoDup c) /\
  (forall (c : Chart) state position c',
     Forall NoDup c -> _add_to_chart state position c = Ok c' ->
     Forall NoDup c' /\
     (c' = c \/
      exists k col, c !! k = Some col /\ (state ∉ col) /\
        c' = <[k := col ++ [state]]> c)).
Proof.
  split_and!; [apply build_chart_parse_chart|apply parse_chart_NoDup|].
  intros c state position c' Hnd Hadd. split; [by eapply add_to_chart_NoDup|].
  apply add_to_chart_Ok in Hadd as [->|(k & col & _ & ? & ? & ->)]; [by left|].
  right. by exists k, col.
Qed.

(** C4: in every chart of a parse, a state stored in column [e] has as many
    backpointers as its dot says, starts at [e] when its dot is 0, and
    otherwise has [e] as the end of its last backpointer.  The charts of a
    parse are closed under the [predict], [scan] and [complete] calls, so
    each of their insertions keeps this. *)
Theorem stored_state_invariant isupper rs words (c : Chart) e col s :
  parse_chart isupper rs words c ->
  c !! e = Some col -> s ∈ col ->
  Z.of_nat (length (backpointers s)) = dot s /\
  (dot s = 0%Z -> start s = Z.of_nat e) /\
  ((0 < dot s)%Z -> exists x, last (backpointers s) = Some (x, Z.of_nat e)).
Proof.
  intros [[_ Hc] _]%parse_chart_steps He Hs.
  destruct (Hc _ _ He) as [_ Hall]. rewrite Forall_forall in Hall.
  destruct (Hall s Hs) as [_ _ Hlen _ Hzero Hlast _]. split_and!; [done..|].
  intros Hdot. destruct (last (backpointers s)) as [[x y]|] eqn:Hl.
  - exists x. by rewrite (Hlast x y).
  - apply last_None in Hl. rewrite Hl in Hlen. simpl in Hlen. lia.
Qed.

Lemma stored_state_invariant_witness :
  parse_chart ascii_isupper epsilon_grammar [x_symbol] epsilon_chart /\
  epsilon_chart !! 1
    = Some [mkState S_rule 2 0 [(0, 0)%Z; (0, 1)%Z];
            mkState start_rule 1 0 [(0, 1)%Z]] /\
  mkState S_rule 2 0 [(0, 0)%Z; (0, 1)%Z]
    ∈ [mkState S_rule 2 0 [(0, 0)%Z; (0, 1)%Z];
       mkState start_rule 1 0 [(0, 1)%Z]] /\
  Z.of_nat (length (backpointers (mkState S_rule 2 0 [(0, 0)%Z; (0, 1)%Z])))
    = dot (mkState S_rule 2 0 [(0, 0)%Z; (0, 1)%Z]) /\
  (dot (mkState S_rule 2 0 [(0, 0)%Z; (0, 1)%Z]) = 0%Z ->
   start (mkState S_rule 2 0 [(0, 0)%Z; (0, 1)%Z]) = Z.of_nat 1) /\
  ((0 < dot (mkState S_rule 2 0 [(0, 0)%Z; (0, 1)%Z]))%Z ->
   exists x,
     last (backpointers (mkState S_rule 2 0 [(0, 0)%Z; (0, 1)%Z]))
     = Some (x, Z.of_nat 1)).
Proof.
  assert (mkState S_rule 2 0 [(0, 0)%Z; (0, 1)%Z]
    ∈ [mkState S_rule 2 0 [(0, 0)%Z; (0, 1)%Z];
       mkState start_rule 1 0 [(0, 1)%Z]]) as Hin by (by left).
  split; [exact epsilon_chart_parse_chart|].
  split; [reflexivity|]. split; [exact Hin|].
  exact (stored_state_invariant ascii_isupper epsilon_grammar [x_symbol]
    epsilon_chart 1 _ (mkState S_rule 2 0 [(0, 0)%Z; (0, 1)%Z])
    epsilon_chart_parse_chart eq_refl Hin).
Defined.

(** C5 (as amended): for a complete state whose [start] is the index [a] of
    a chart column, and a position that is the index [i] of a chart column,
    [complete] returns and changes column [i] only, by appending states; the
    appended states are distinct, new to column [i], and each is the state
    [(s.rule, s.dot + 1, s.start, s.backpointers + ((state.start, i),))] of
    an incomplete state [s] of column [a] whose next symbol is the head of
    the completed rule; and for every such [s] of column [a] that state is
    in column [i] afterwards.  The states of column [a] are assumed to have
    a dot that is not negative.  Column [a] is read as [complete] leaves it:
    when [a = i] the loop also visits the states it appends. *)
Theorem complete_adds_advanced_states state a i (c : Chart) colA colI :
  is_complete state = true -> start state = Z.of_nat a ->
  c !! a = Some colA -> c !! i = Some colI ->
  Forall (fun s => (0 <= dot s)%Z) colA ->
  exists c' added colA',
    complete state (Z.of_nat i) c = Ok c' /\
    length c' = length c /\
    (forall e, e <> i -> c' !! e = c !! e) /\
    c' !! i = Some (colI ++ added) /\
    c' !! a = Some colA' /\
    (a <> i -> colA' = colA) /\
    NoDup added /\
    (forall t, t ∈ added ->
       (t ∉ colI) /\
       exists s, s ∈ colA' /\
         is_complete s = false /\
         next_symbol s = Ok (Some (head (rule state))) /\
         t = mkState (rule s) (dot s + 1) (start s)
               (backpointers s ++ [(start state, Z.of_nat i)])) /\
    (forall s, s ∈ colA' ->
       is_complete s = false ->
       next_symbol s = Ok (Some (head (rule state))) ->
       mkState (rule s) (dot s + 1) (start s)
         (backpointers s ++ [(start state, Z.of_nat i)]) ∈ colI ++ added).
Proof.
  intros Hcomp Hstart Ha Hi Hvalid. unfold complete. rewrite Hcomp. cbn [negb].
  rewrite Hstart, py_index_nat by (by eapply lookup_lt_Some). cbn [bind].
  rewrite Ha. cbn [of_option bind].
  destruct (complete_loop_spec state a i (loop_budget colA) 0 c colI colA [])
    as (c' & added & colA' & Hloop & Hlen & Hother & Hi' & Ha' & Hnd & Hadded & Hall).
  - done.
  - by rewrite app_nil_r.
  - done.
  - done.
  - rewrite drop_0. unfold loop_budget. lia.
  - apply NoDup_nil_2.
  - by intros t ?%not_elem_of_nil.
  - by intros s ?%not_elem_of_nil.
  - exists c', added, colA'. split_and!; [done..| |done| |].
    + intros Hne. rewrite Hother, Ha in Ha' by done. by injection Ha' as <-.
    + intros t Ht. destruct (Hadded t Ht) as [Hnew (s & Hs & [Hinc Hnext] & ->)].
      split; [done|]. exists s. by split_and!.
    + intros s Hs Hinc Hnext. by apply Hall.
Qed.

Lemma complete_adds_advanced_states_witness :
  is_complete (mkState A_rule 0 0 []) = true /\
  start (mkState A_rule 0 0 []) = Z.of_nat 0 /\
  [[mkState start_rule 0 0 []; mkState S_rule 0 0 []]; []] !! 0
    = Some [mkState start_rule 0 0 []; mkState S_rule 0 0 []] /\
  Forall (fun s => (0 <= dot s)%Z)
    [mkState start_rule 0 0 []; mkState S_rule 0 0 []] /\
  complete (mkState A_rule 0 0 []) (Z.of_nat 0)
    [[mkState start_rule 0 0 []; mkState S_rule 0 0 []]; []]
  = Ok [[mkState start_rule 0 0 []; mkState S_rule 0 0 [];
         mkState S_rule 1 0 [(0, 0)%Z]]; []] /\
  exists c' added colA',
    complete (mkState A_rule 0 0 []) (Z.of_nat 0)
      [[mkState start_rule 0 0 []; mkState S_rule 0 0 []]; []] = Ok c' /\
    length c'
      = length [[mkState start_rule 0 0 []; mkState S_rule 0 0 []]; []] /\
    (forall e, e <> 0 ->
       c' !! e = [[mkState start_rule 0 0 []; mkState S_rule 0 0 []]; []] !! e) /\
    c' !! 0 = Some ([mkState start_rule 0 0 []; mkState S_rule 0 0 []] ++ added) /\
    c' !! 0 = Some colA' /\
    (0 <> 0 -> colA' = [mkState start_rule 0 0 []; mkState S_rule 0 0 []]) /\
    NoDup added /\
    (forall t, t ∈ added ->
       (t ∉ [mkState start_rule 0 0 []; mkState S_rule 0 0 []]) /\
       exists s, s ∈ colA' /\
         is_complete s = false /\
         next_symbol s = Ok (Some (head (rule (mkState A_rule 0 0 [])))) /\
         t = mkState (rule s) (dot s + 1) (start s)
               (backpointers s ++ [(start (mkState A_rule 0 0 []), Z.of_nat 0)])) /\
    (forall s, s ∈ colA' ->
       is_complete s = false ->
       next_symbol s = Ok (Some (head (rule (mkState A_rule 0 0 [])))) ->
       mkState (rule s) (dot s + 1) (start s)
         (backpointers s ++ [(start (mkState A_rule 0 0 []), Z.of_nat 0)])
       ∈ [mkState start_rule 0 0 []; mkState S_rule 0 0 []] ++ added).
Proof.
  assert (Forall (fun s => (0 <= dot s)%Z)
    [mkState start_rule 0 0 []; mkState S_rule 0 0 []]) as Hvalid
    by (repeat constructor; simpl; lia).
  split_and!; [reflexivity|reflexivity|reflexivity|exact Hvalid|reflexivity|].
  exact (complete_adds_advanced_states (mkState A_rule 0 0 []) 0 0
    [[mkState start_rule 0 0 []; mkState S_rule 0 0 []]; []]
    [mkState start_rule 0 0 []; mkState S_rule 0 0 []]
    [mkState start_rule 0 0 []; mkState S_rule 0 0 []]
    eq_refl eq_refl eq_refl eq_refl Hvalid).
Defined.

(** C5 as stated fails for positions and starts that are not the index of a
    column.  In the chart whose column 0 holds [γ → • S] and [S → • A x],
    the second of which waits for [A]: completing [A → •] at position 7
    adds nothing and returns the chart as it was, and completing a state
    [A → •] with start 5 raises [IndexError]. *)
Lemma complete_outside_the_chart :
  is_complete (mkState A_rule 0 0 []) = true /\
  is_complete (mkState S_rule 0 0 []) = false /\
  next_symbol (mkState S_rule 0 0 []) = Ok (Some (head A_rule)) /\
  complete (mkState A_rule 0 0 []) 7
    [[mkState start_rule 0 0 []; mkState S_rule 0 0 []]; []]
  = Ok [[mkState start_rule 0 0 []; mkState S_rule 0 0 []]; []] /\
  is_complete (mkState A_rule 0 5 []) = true /\
  complete (mkState A_rule 0 5 []) 0
    [[mkState start_rule 0 0 []; mkState S_rule 0 0 []]; []]
  = Raise IndexError.
Proof. split_and!; reflexivity. Qed.

(** C6: for the grammar [S → A x], [A → ε] and the one-token sentence ["x"],
    [parse] accepts and returns the tree [S(A(), "x")]; and the call of
    [predict] on [S → • A x] in column 0 puts, right after the new state
    [A → •], the advanced state [S → A • x] into the column: the empty rule
    is completed inside [predict]. *)
Theorem epsilon_example isupper split chart0 :
  isupper 83%N = true -> isupper 65%N = true -> isupper 120%N = false ->
  split x_symbol = [x_symbol] ->
  (exists c,
     parse isupper split (mkEarleyParser epsilon_grammar chart0) x_symbol
       = Ok (mkEarleyParser epsilon_grammar c, (true, Some epsilon_tree))) /\
  predict isupper epsilon_grammar (mkState S_rule 0 0 []) 0
    [[mkState start_rule 0 0 []; mkState S_rule 0 0 []]; []]
  = Ok [[mkState start_rule 0 0 []; mkState S_rule 0 0 [];
         mkState A_rule 0 0 []; mkState S_rule 1 0 [(0, 0)%Z]]; []].
Proof.
  intros HS HA Hx Hsplit.
  set (g := fun ch : char =>
    if (ch =? 83)%N then true else if (ch =? 65)%N then true
    else if (ch =? 120)%N then false else isupper ch).
  assert (forall ch, isupper ch = g ch) as Hg.
  { intros ch. unfold g.
    destruct (N.eqb_spec ch 83) as [->|_]; [done|].
    destruct (N.eqb_spec ch 65) as [->|_]; [done|].
    by destruct (N.eqb_spec ch 120) as [->|_]. }
  split.
  - rewrite (parse_ext isupper g Hg). unfold parse. cbn [rules]. rewrite Hsplit.
    eexists. vm_compute. reflexivity.
  - rewrite (predict_ext isupper g Hg). vm_compute. reflexivity.
Qed.

Lemma epsilon_example_witness :
  exists c,
    parse ascii_isupper ascii_split epsilon_parser x_symbol
      = Ok (mkEarleyParser epsilon_grammar c, (true, Some epsilon_tree)).
Proof.
  exact (proj1 (epsilon_example ascii_isupper ascii_split []
    eq_refl eq_refl eq_refl eq_refl)).
Defined.

(** C7: what [parse] returns does not depend on the chart the parser object
    holds when it is called, so calling it again on the object it left
    behind returns the same result, parser object and acceptance boolean
    included. *)
Theorem parse_deterministic isupper split self sentence :
  (forall other,
     parse isupper split (mkEarleyParser (rules self) other) sentence
     = parse isupper split self sentence) /\
  (forall self' r,
     parse isupper split self sentence = Ok (self', r) ->
     parse isupper split self' sentence = Ok (self', r)).
Proof.
  split; [done|]. intros self' r Hparse. unfold parse in *.
  destruct (build_chart isupper (rules self) (split sentence)) as [c|] eqn:Hc;
    cbn [bind] in Hparse; [|done].
  destruct (check_accepted isupper c (split sentence)) as [r'|] eqn:Hr;
    cbn [bind] in Hparse; [|done].
  injection Hparse as <- <-. cbn [rules]. rewrite Hc. cbn [bind]. by rewrite Hr.
Qed.

(** C8 (as amended): for every state and every position at or beyond the
    length of the chart, [_add_to_chart] returns without an error and leaves
    the chart as it was. *)
Theorem add_to_chart_beyond_last_column state position (chart : Chart) :
  (Z.of_nat (length chart) <= position)%Z ->
  _add_to_chart state position chart = Ok chart.
Proof.
  intros Hpos. unfold _add_to_chart.
  by destruct (Z.leb_spec (Z.of_nat (length chart)) position); [|lia].
Qed.

Lemma add_to_chart_beyond_last_column_witness :
  (Z.of_nat (length ([[]; []] : Chart)) <= 2)%Z /\
  _add_to_chart (mkState start_rule 0 0 []) 2 [[]; []] = Ok [[]; []].
Proof.
  assert (Z.of_nat (length ([[]; []] : Chart)) <= 2)%Z as Hpos by (simpl; lia).
  split; [exact Hpos|].
  exact (add_to_chart_beyond_last_column (mkState start_rule 0 0 []) 2 [[]; []] Hpos).
Defined.

(** C8 as stated fails below zero: position -1 is not a column index of a
    chart of two columns, yet the state is appended to the last column
    (Python counts negative subscripts from the end); position -3 raises. *)
Lemma add_to_chart_negative_position :
  ~ (0 <= -1 < Z.of_nat (length ([[]; []] : Chart)))%Z /\
  _add_to_chart (mkState start_rule 0 0 []) (-1) [[]; []]
    = Ok [[]; [mkState start_rule 0 0 []]] /\
  _add_to_chart (mkState start_rule 0 0 []) (-3) [[]; []] = Raise IndexError.
Proof. split_and!; [simpl; lia|reflexivity|reflexivity]. Qed.

(** C9 (as amended): when [_build_tree] comes to a nonterminal body symbol
    and the column named by its backpointer holds no complete state with
    that head and that start, it raises nothing and appends no child for
    that symbol: the call gives what the loop over the other body symbols
    gives, and the node it returns has fewer children than its rule has
    body symbols. *)
Theorem build_tree_without_match isupper fuel (c : Chart) state pos words
    k symbol ch start_pos end_pos col :
  body (rule state) !! k = Some symbol ->
  backpointers state !! k = Some (start_pos, end_pos) ->
  symbol !! 0 = Some ch -> isupper ch = true ->
  getitem c end_pos = Ok col ->
  (forall s, s ∈ col -> matches symbol start_pos s = false) ->
  _build_tree isupper (S fuel) c state pos words
  = (let* children :=
       build_children isupper (_build_tree isupper fuel c) c state words
         (delete k (enumerate (body (rule state)))) [] in
     Ok (Node (head (rule state)) children)) /\
  forall t, _build_tree isupper (S fuel) c state pos words = Ok t ->
    exists children, t = Node (head (rule state)) children /\
      length children < length (body (rule state)).
Proof.
  intros Hk Hspan Hch Hupper Hcol Hnone.
  assert (_build_tree isupper (S fuel) c state pos words
    = (let* children :=
         build_children isupper (_build_tree isupper fuel c) c state words
           (delete k (enumerate (body (rule state)))) [] in
       Ok (Node (head (rule state)) children))) as Heq.
  { cbn [_build_tree]. pose proof (enumerate_lookup _ _ _ Hk) as Hitem.
    rewrite <- (build_children_skip isupper _ c state words k symbol ch start_pos
      end_pos col Hspan Hch Hupper Hcol Hnone _ k [] Hitem).
    destruct (body (rule state)); [by rewrite lookup_nil in Hk|done]. }
  split; [exact Heq|]. intros t Ht. rewrite Heq in Ht.
  apply bind_Ok in Ht as (children & Hchildren & [= <-]).
  exists children. split; [done|].
  apply build_children_length in Hchildren.
  rewrite length_delete, enumerate_length in Hchildren
    by (rewrite (enumerate_lookup _ _ _ Hk); by eexists).
  apply lookup_lt_Some in Hk. simpl in Hchildren. lia.
Qed.

Lemma build_tree_without_match_witness :
  body (rule (mkState S_rule 2 0 [(0, 0)%Z; (0, 1)%Z])) !! 0 = Some A_symbol /\
  backpointers (mkState S_rule 2 0 [(0, 0)%Z; (0, 1)%Z]) !! 0
    = Some (0, 0)%Z /\
  A_symbol !! 0 = Some 65%N /\ ascii_isupper 65%N = true /\
  getitem ([[]; []] : Chart) 0 = Ok [] /\
  (forall s, s ∈ [] -> matches A_symbol 0 s = false) /\
  _build_tree ascii_isupper 2 [[]; []]
    (mkState S_rule 2 0 [(0, 0)%Z; (0, 1)%Z]) 1 [x_symbol]
  = (let* children :=
       build_children ascii_isupper (_build_tree ascii_isupper 1 [[]; []])
         [[]; []] (mkState S_rule 2 0 [(0, 0)%Z; (0, 1)%Z]) [x_symbol]
         (delete 0
            (enumerate (body (rule (mkState S_rule 2 0 [(0, 0)%Z; (0, 1)%Z])))))
         [] in
     Ok (Node (head (rule (mkState S_rule 2 0 [(0, 0)%Z; (0, 1)%Z]))) children)) /\
  forall t,
    _build_tree ascii_isupper 2 [[]; []]
      (mkState S_rule 2 0 [(0, 0)%Z; (0, 1)%Z]) 1 [x_symbol] = Ok t ->
    exists children,
      t = Node (head (rule (mkState S_rule 2 0 [(0, 0)%Z; (0, 1)%Z]))) children /\
      length children
        < length (body (rule (mkState S_rule 2 0 [(0, 0)%Z; (0, 1)%Z]))).
Proof.
  assert (forall s : State, s ∈ [] -> matches A_symbol 0 s = false) as Hnone.
  { intros s Hs. by apply not_elem_of_nil in Hs. }
  split; [reflexivity|]. split; [reflexivity|]. split; [reflexivity|].
  split; [reflexivity|]. split; [reflexivity|]. split; [exact Hnone|].
  exact (build_tree_without_match ascii_isupper 1 [[]; []]
    (mkState S_rule 2 0 [(0, 0)%Z; (0, 1)%Z]) 1 [x_symbol] 0 A_symbol 65%N
    0%Z 0%Z [] eq_refl eq_refl eq_refl eq_refl eq_refl Hnone).
Defined.

(** C9 as stated fails: for the state [S → A x •] with backpointers (0,0),
    (0,1) and a chart whose column 0 is empty, so that no state for [A] can
    be found there, [_build_tree] returns the tree [S("x")], the child for
    [A] silently missing. *)
Lemma build_tree_drops_missing_child :
  getitem ([[]; []] : Chart) 0 = Ok [] /\
  _build_tree ascii_isupper 2 [[]; []]
    (mkState S_rule 2 0 [(0, 0)%Z; (0, 1)%Z]) 1 [x_symbol]
  = Ok (Node S_symbol [Node x_symbol []]).
Proof. split; reflexivity. Qed.

(** C10: for every state whose dot is below the length of its rule body, and
    every position, [complete] returns at its guard and the chart is
    unchanged. *)
Theorem complete_incomplete_state state position (chart : Chart) :
  (dot state < Z.of_nat (length (body (rule state))))%Z ->
  complete state position chart = Ok chart.
Proof.
  intros Hdot%is_complete_false. unfold complete. by rewrite Hdot.
Qed.

Lemma complete_incomplete_state_witness :
  (dot (mkState S_rule 1 0 [(0, 0)%Z])
     < Z.of_nat (length (body (rule (mkState S_rule 1 0 [(0, 0)%Z])))))%Z /\
  complete (mkState S_rule 1 0 [(0, 0)%Z]) 1
    [[mkState S_rule 1 0 [(0, 0)%Z]]; []]
  = Ok [[mkState S_rule 1 0 [(0, 0)%Z]]; []].
Proof.
  assert (dot (mkState S_rule 1 0 [(0, 0)%Z])
     < Z.of_nat (length (body (rule (mkState S_rule 1 0 [(0, 0)%Z])))))%Z
    as Hdot by (simpl; lia).
  split; [exact Hdot|].
  exact (complete_incomplete_state _ 1 _ Hdot).
Defined.

(** * Further properties of the code *)

(** ** Insertion and the methods built on it *)

Lemma add_to_chart_extends st pos (c0 c c' : Chart) :
  extends c0 c -> _add_to_chart st pos c = Ok c' -> extends c0 c'.
Proof.
  intros Hext [->|(k & col & _ & Hk & _ & ->)]%add_to_chart_Ok; [done|].
  eapply extends_trans; [done|]. by apply extends_insert.
Qed.

Lemma getitem_Ok_nat {A} (l : list A) i x :
  getitem l i = Ok x -> (0 <= i)%Z -> l !! Z.to_nat i = Some x.
Proof.
  unfold getitem. intros Hb Hi. inv_bind Hb.
  apply py_index_Ok in Ha as [_ [[_ ->]|[? _]]]; [|lia].
  by apply of_option_Ok.
Qed.

(** ** Backpointers tile the span of a state *)

Section Spans.

Variable isupper : char -> bool.
Variable rs : list Rule.
Variable words : list str.

Abbreviation step := (step isupper rs words).
Abbreviation wf_chart := (wf_chart rs words).

Lemma step_chained (c c' : Chart) :
  wf_chart c ->
  (forall e col s, c !! e = Some col -> s ∈ col ->
     chain (start s) (backpointers s) (Z.of_nat e)) ->
  step c c' ->
  forall e col s, c' !! e = Some col -> s ∈ col ->
    chain (start s) (backpointers s) (Z.of_nat e).
Proof.
  intros Hwf Hch Hst. pose proof Hwf as [_ Hc].
  destruct Hst as [e0 col0 s0 He0 _ Hd].
  intros e col s He Hs. destruct (decide (e = e0)) as [->|Hne].
  2:{ rewrite list_lookup_insert_ne in He by done. by eapply Hch. }
  rewrite list_lookup_insert_eq in He by (by eapply lookup_lt_Some).
  injection He as <-.
  apply elem_of_app in Hs as [Hs|Hs%list_elem_of_singleton]; [by eapply Hch|].
  subst s. destruct Hd as
    [colP s r HcolP Hs Hr _ _ _
    |p colP s w -> HcolP Hs Hinc _ _ _ Hw
    |colE m t a colA s HcolE Ht Hcomp Hstart HcolA Hs Hinc _]; simpl.
  - done.
  - apply chain_snoc. split_and!; [by eapply Hch|lia|lia].
  - apply chain_snoc. split_and!; [by eapply Hch| |done].
    destruct (Hc _ _ HcolE) as [_ HwfE].
    apply (Forall_lookup_1 _ _ _ _ HwfE) in Ht as [_ _ _ ? _ _ _]. lia.
Qed.

Lemma steps_chained (c c' : Chart) :
  wf_chart c ->
  (forall e col s, c !! e = Some col -> s ∈ col ->
     chain (start s) (backpointers s) (Z.of_nat e)) ->
  rtc step c c' ->
  forall e col s, c' !! e = Some col -> s ∈ col ->
    chain (start s) (backpointers s) (Z.of_nat e).
Proof.
  intros Hwf Hch Hst. induction Hst as [|c1 c2 c3 H12 _ IH]; [done|].
  apply IH; [by eapply step_wf|by eapply step_chained].
Qed.

Lemma initial_chart_chained e col s :
  initial_chart words !! e = Some col -> s ∈ col ->
  chain (start s) (backpointers s) (Z.of_nat e).
Proof.
  destruct e as [|e]; simpl.
  - by intros [= <-] ->%list_elem_of_singleton.
  - intros [-> _]%lookup_replicate. by intros ?%not_elem_of_nil.
Qed.

End Spans.

(** ** Derivation trees *)

Section Conformity.

Variable isupper : char -> bool.
Variable rs : list Rule.
Variable words : list str.
Hypothesis rs_gamma_free : gamma_free rs.

Variable c : Chart.
Hypothesis c_wf : wf_chart rs words c.
Hypothesis c_derived : derived_chart isupper words c.

Abbreviation derivation_tree := (derivation_tree isupper rs).

Lemma stored_rule e col m f :
  c !! e = Some col -> col !! m = Some f -> head (rule f) <> gamma ->
  rule f ∈ rs /\ is_nonterminal isupper (Some (head (rule f))) = true.
Proof.
  intros He Hm Hhead. destruct c_wf as [_ Hc]. destruct (Hc _ _ He) as [_ Hwf].
  apply (Forall_lookup_1 _ _ _ _ Hwf) in Hm as Hwff.
  destruct Hwff as [[Heq|Hr]%elem_of_cons _ _ _ _ _ _]; [by rewrite Heq in Hhead|].
  split; [done|].
  destruct (c_derived _ _ _ _ He Hm) as [[Heq|[? _]] _ _]; [by rewrite Heq in Hhead|done].
Qed.

Section Children.

Variable rec : State -> Z -> list str -> result ParseTree.
Hypothesis rec_conforms : forall y col m f pos t,
  c !! y = Some col -> col !! m = Some f -> is_complete f = true ->
  head (rule f) <> gamma -> rec f pos words = Ok t ->
  derivation_tree t /\ label t = head (rule f).

Lemma build_child_conforms e n s k sym span acc children :
  wf_state rs e s -> child_ok isupper words c e n sym span ->
  backpointers s !! k = Some span -> sym <> gamma ->
  build_child isupper rec c s words acc (k, sym) = Ok children ->
  exists t, children = acc ++ [t] /\ derivation_tree t /\ label t = sym.
Proof.
  intros Hwf Hchild Hspan Hsym. unfold build_child.
  rewrite (getitem_nat _ _ _ Hspan). cbn [bind].
  destruct Hwf as [_ _ _ _ _ _ Hspans].
  apply (Forall_lookup_1 _ _ _ _ Hspans) in Hspan as [Hx Hy].
  destruct span as [x y]. simpl in Hx, Hy. unfold child_ok in Hchild.
  destruct (is_nonterminal isupper (Some sym)) eqn:Hnt.
  - destruct Hchild as (col & m & t & Hcol & Hm & Hmatch & Hlt). simpl in *.
    destruct sym as [|ch sym]; [done|]. simpl in Hnt. simpl. rewrite Hnt.
    pose proof (lookup_lt_Some _ _ _ Hcol) as Hlen.
    unfold getitem. rewrite py_index_to_nat by lia. cbn [bind].
    rewrite Hcol. cbn [of_option bind].
    destruct (find_first _ _ _ _ Hm Hmatch) as (m' & f & Hm' & Hf & Hmatch' & ->).
    unfold matches in Hmatch'.
    apply andb_true_iff in Hmatch' as [[Hcomp Hhead%bool_decide_eq_true]%andb_true_iff
      Hstart%bool_decide_eq_true].
    intros Hb. apply bind_Ok in Hb as (tr & Htr & [= <-]).
    destruct (rec_conforms _ _ _ _ _ _ Hcol Hf Hcomp ltac:(by rewrite Hhead) Htr)
      as [Hdt Hlab].
    exists tr. split_and!; [done..|]. by rewrite Hlab.
  - simpl in Hchild. destruct Hchild as (-> & Hw & Hne).
    destruct sym as [|ch sym]; [done|]. simpl in Hnt. simpl. rewrite Hnt.
    unfold getitem. rewrite py_index_to_nat by (apply lookup_lt_Some in Hw; lia).
    cbn [bind]. rewrite Hw. cbn [of_option bind]. intros [= <-].
    eexists. split_and!; [done| |done]. by constructor.
Qed.

Lemma build_children_conforms e n s syms :
  wf_state rs e s -> derived isupper words c e n s ->
  length (backpointers s) = length (body (rule s)) ->
  forall k acc children,
    drop k (body (rule s)) = syms ->
    Forall derivation_tree acc ->
    map label acc = take k (body (rule s)) ->
    build_children isupper rec c s words (zip (seq k (length syms)) syms) acc
      = Ok children ->
    Forall derivation_tree children /\ map label children = body (rule s).
Proof.
  intros Hwf Hder Hlen. induction syms as [|sym syms IH];
    intros k acc children Hsyms Hacc Hlab;
    cbn [length seq zip_with build_children].
  - intros [= <-]. split; [done|]. rewrite Hlab. apply take_ge.
    rewrite <- (Nat.sub_0_le). by rewrite <- length_drop, Hsyms.
  - assert (body (rule s) !! k = Some sym) as Hk.
    { rewrite <- (Nat.add_0_r k), <- lookup_drop, Hsyms. done. }
    assert (drop (S k) (body (rule s)) = syms) as Hsyms'.
    { rewrite (drop_S _ _ _ Hk) in Hsyms. by injection Hsyms. }
    destruct (lookup_lt_is_Some_2 (backpointers s) k) as [span Hspan].
    { apply lookup_lt_Some in Hk. lia. }
    intros Hb. apply bind_Ok in Hb as (children' & Hchild & Hb).
    destruct (build_child_conforms e n s k sym span acc children')
      as (t & -> & Hdt & Hlabel); [done|by eapply (der_children _ _ _ _ _ _ Hder)|done| |done|].
    { intros ->. eapply (body_not_gamma rs rs_gamma_free s); [apply Hwf|].
      by eapply list_elem_of_lookup_2. }
    eapply (IH (S k)); [done| | |done].
    + apply Forall_app. split; [done|]. by apply Forall_singleton.
    + rewrite map_app, Hlab. simpl. rewrite Hlabel. by rewrite (take_S_r _ _ _ Hk).
Qed.

End Children.

Lemma build_tree_conforms fuel y col m f pos t :
  c !! y = Some col -> col !! m = Some f -> is_complete f = true ->
  head (rule f) <> gamma ->
  _build_tree isupper fuel c f pos words = Ok t ->
  derivation_tree t /\ label t = head (rule f).
Proof.
  revert y col m f pos t. induction fuel as [|fuel IH];
    intros y col m f pos t Hy Hm Hcomp Hhead; [done|].
  destruct (stored_rule _ _ _ _ Hy Hm Hhead) as [Hr Hnt].
  destruct c_wf as [_ Hc]. destruct (Hc _ _ Hy) as [_ Hwf].
  apply (Forall_lookup_1 _ _ _ _ Hwf) in Hm as Hwff.
  pose proof Hwff as [_ Hdot Hlen _ _ _ _].
  apply is_complete_true in Hcomp.
  cbn [_build_tree]. destruct (body (rule f)) as [|sym0 syms0] eqn:Hbody.
  - intros [= <-]. split; [|done]. by apply dt_node.
  - intros Hb. apply bind_Ok in Hb as (children & Hchildren & [= <-]).
    split; [|done].
    destruct (build_children_conforms (_build_tree isupper fuel c) IH y m f
      (sym0 :: syms0)) with (k := 0) (acc := @nil ParseTree) (children := children)
      as [Hall Hlab].
    + done.
    + by apply c_derived with col.
    + rewrite Hbody. simpl in *. lia.
    + by rewrite Hbody.
    + done.
    + done.
    + exact Hchildren.
    + apply dt_node; [done..|by rewrite Hlab|done].
Qed.

End Conformity.

Lemma derivation_tree_derives isupper rs t :
  derivation_tree isupper rs t -> derives isupper rs (label t) (leaves isupper t).
Proof.
  revert t. fix IH 2. intros t [w Hnt Hne|r cs Hr Hnt Hlab Hcs].
  - cbn [label leaves]. rewrite Hnt. by constructor.
  - assert (leaves isupper (Node (head r) cs) = concat (map (leaves isupper) cs)) as ->.
    { destruct cs; [|done]. cbn [leaves]. by rewrite Hnt. }
    cbn [label]. apply derives_rule; [done..|]. rewrite <- Hlab. clear Hlab.
    induction Hcs as [|t' cs Ht Hcs IHcs]; constructor; [by apply IH|done].
Qed.

(** ** Acceptance is sound *)

(** Every token of a derived sequence is the symbol itself or stands in the
    body of a rule. *)
Lemma derives_tokens isupper rs sym ws :
  derives isupper rs sym ws ->
  forall w, w ∈ ws -> w = sym \/ exists r, r ∈ rs /\ w ∈ body r.
Proof.
  revert sym ws. fix IH 3. intros sym ws [w Hnt Hne|r parts Hr Hnt Hparts] w'.
  - intros ->%list_elem_of_singleton. by left.
  - intros Hw. right.
    assert (forall s, s ∈ body r -> s ∈ body r) as Hsub by done.
    revert Hparts Hsub Hw. generalize (body r) at 1 2 as syms. intros syms Hparts.
    induction Hparts as [|sym' part syms parts Hd Hparts IHparts]; intros Hsub Hw;
      [by apply not_elem_of_nil in Hw|].
    simpl in Hw. apply elem_of_app in Hw as [Hw|Hw].
    + destruct (IH _ _ Hd w' Hw) as [->|?]; [|done].
      exists r. split; [done|]. apply Hsub. by left.
    + apply IHparts; [|done]. intros s Hs. apply Hsub. by right.
Qed.

Section Soundness.

Variable isupper : char -> bool.
Variable rs : list Rule.
Variable words : list str.
Hypothesis rs_gamma_free : gamma_free rs.

Variable c : Chart.
Hypothesis c_wf : wf_chart rs words c.
Hypothesis c_derived : derived_chart isupper words c.

(** Accepted, but no state of the last column to build a tree from: the
    sentence is empty and [S → ε] is a rule (or [S] does not count as a
    nonterminal and the sentence is the one token [S]). *)
Lemma accepted_no_tree last s :
  c !! length words = Some last -> s ∈ last -> accepting s ->
  (forall s', s' ∈ last -> ~ S_candidate s') ->
  is_nonterminal isupper (Some S_symbol) = true /\ words = [] /\
    mkRule S_symbol [] ∈ rs \/
  is_nonterminal isupper (Some S_symbol) = false /\ words = [S_symbol].
Proof.
  intros Hlast [n Hn]%list_elem_of_lookup (Hrule & Hcomp & Hstart) Hnone.
  pose proof c_wf as [Hlen Hc]. destruct (Hc _ _ Hlast) as [_ Hwf].
  pose proof (Forall_lookup_1 _ _ _ _ Hwf Hn) as [_ Hdot Hbp _ _ _ _].
  pose proof (c_derived _ _ _ _ Hlast Hn) as [_ Hchain Hchildren].
  apply is_complete_true in Hcomp. rewrite Hrule in Hdot, Hcomp, Hchildren.
  simpl in Hdot, Hcomp.
  destruct (backpointers s) as [|[x y] [|? ?]] eqn:Hbps; simpl in Hbp; [lia| |lia].
  simpl in Hchain. destruct Hchain as (-> & _ & ->). rewrite Hstart in *.
  specialize (Hchildren 0 S_symbol (0, Z.of_nat (length words))%Z eq_refl eq_refl).
  unfold child_ok in Hchildren.
  destruct (is_nonterminal isupper (Some S_symbol)) eqn:Hnt.
  - left. split; [done|].
    destruct Hchildren as (col & m & t & Hcol & Hm & Hmatch & _). simpl in Hcol.
    rewrite Nat2Z.id, Hlast in Hcol. injection Hcol as <-.
    unfold matches in Hmatch.
    apply andb_true_iff in Hmatch as [[Hcompt Hhead%bool_decide_eq_true]%andb_true_iff
      Hstartt%bool_decide_eq_true]. simpl in Hstartt.
    pose proof (Forall_lookup_1 _ _ _ _ Hwf Hm) as [Hr Hdott Hbpt _ Hzero _ _].
    assert (~ 0 < length (backpointers t)) as Hno.
    { intros Hpos. apply (Hnone t); [by eapply list_elem_of_lookup_2|]. by split_and!. }
    assert (dot t = 0%Z) as Hdot0 by lia.
    apply is_complete_true in Hcompt.
    specialize (Hzero Hdot0). rewrite Hstartt in Hzero.
    assert (length words = 0) as ->%nil_length_inv by lia.
    split; [done|].
    assert (body (rule t) = []) as Hbody by (apply nil_length_inv; lia).
    apply elem_of_cons in Hr as [Heq|Hr]; [by rewrite Heq in Hhead|].
    destruct (rule t) as [h b]. simpl in *. by subst.
  - right. split; [done|]. simpl in Hchildren. destruct Hchildren as (Hone & Hw & _).
    assert (length words = 1) as Hl by lia.
    destruct words as [|w [|? ?]]; simpl in Hl; try lia.
    simpl in Hw. by injection Hw as ->.
Qed.

Lemma check_accepted_sound tree :
  check_accepted isupper c words = Ok (true, tree) ->
  derives isupper rs S_symbol words.
Proof.
  intros Hcheck.
  destruct (check_accepted_spec isupper rs words c c_wf c_derived)
    as (last & accepted & tree' & Hlast & Hcheck' & Hiff & Hacc & _).
  rewrite Hcheck in Hcheck'. injection Hcheck' as <- <-.
  destruct (Hacc eq_refl) as [(s & t & (m & Hm & Hs & _) & Ht & _ & Hleaves)|[Hnone _]].
  - destruct Hs as (Hcomp & Hhead & _).
    destruct (build_tree_conforms isupper rs words rs_gamma_free c c_wf c_derived
      _ _ _ _ _ _ _ Hlast Hm Hcomp ltac:(by rewrite Hhead) Ht) as [Hdt Hlab].
    apply derivation_tree_derives in Hdt. by rewrite Hlab, Hhead, Hleaves in Hdt.
  - destruct (proj1 Hiff eq_refl) as (s & Hs & Hacc').
    destruct (accepted_no_tree last s Hlast Hs Hacc' Hnone)
      as [(Hnt & -> & Hr)|(Hnt & ->)].
    + by apply (derives_rule isupper rs (mkRule S_symbol []) []).
    + by apply derives_terminal.
Qed.

End Soundness.

Lemma parse_Ok_inv isupper split self sentence p accepted tree :
  gamma_free (rules self) ->
  parse isupper split self sentence = Ok (p, (accepted, tree)) ->
  exists c,
    wf_chart (rules self) (split sentence) c /\
    derived_chart isupper (split sentence) c /\
    check_accepted isupper c (split sentence) = Ok (accepted, tree).
Proof.
  intros Hfree Hp.
  destruct (build_chart_derived isupper (rules self) (split sentence) Hfree)
    as (c & Hc & Hwf & Hder).
  exists c. split_and!; [done..|].
  unfold parse in Hp. rewrite Hc in Hp. cbn [bind] in Hp.
  apply bind_Ok in Hp as (r & Hr & [= _ ->]). done.
Qed.

Lemma empty_rule_grammar_gamma_free : gamma_free empty_rule_grammar.
Proof.
  intros r ->%list_elem_of_singleton. simpl. apply not_elem_of_nil.
Defined.

Lemma epsilon_parse :
  parse ascii_isupper ascii_split epsilon_parser x_symbol
  = Ok (mkEarleyParser epsilon_grammar epsilon_chart, (true, Some epsilon_tree)).
Proof. vm_compute. reflexivity. Defined.

(** ** [predict] *)

Lemma predict_loop_adds l next (i : nat) (c c' : Chart) :
  i < length c -> predict_loop l next (Z.of_nat i) c = Ok c' ->
  forall r, r ∈ l -> head r = next ->
    exists col', c' !! i = Some col' /\ mkState r 0 (Z.of_nat i) [] ∈ col'.
Proof.
  revert c. induction l as [|r0 l IH]; intros c Hi; simpl;
    [by intros _ r ?%not_elem_of_nil|].
  case_bool_decide as Hhead.
  - intros Hb. apply bind_Ok in Hb as (c1 & Hc1 & Hb).
    apply bind_Ok in Hb as (c2 & Hc2 & Hb).
    assert (extends c1 c2) as H12.
    { destruct (body r0); [|injection Hc2 as <-; apply extends_refl].
      eapply (complete_preserved (extends c1)); [|apply extends_refl|done].
      intros *. apply add_to_chart_extends. }
    assert (extends c2 c') as H2.
    { eapply (predict_loop_preserved (extends c2)); [|apply extends_refl|done].
      intros *. apply add_to_chart_extends. }
    pose proof (add_to_chart_length _ _ _ _ Hc1) as Hl1.
    intros r [->|Hr]%elem_of_cons Hnext.
    + destruct (lookup_lt_is_Some_2 c i Hi) as [col Hcol].
      rewrite (add_to_chart_nat _ _ _ _ Hcol) in Hc1. injection Hc1 as Hc1.
      assert (exists col1, c1 !! i = Some col1 /\ mkState r0 0 (Z.of_nat i) [] ∈ col1)
        as (col1 & Hcol1 & Hin1).
      { subst c1. case_bool_decide; [by eauto|].
        exists (col ++ [mkState r0 0 (Z.of_nat i) []]).
        rewrite list_lookup_insert_eq by done. split; [done|].
        apply elem_of_app. right. by apply list_elem_of_singleton. }
      destruct (extends_elem_of _ _ _ _ _ H12 Hcol1 Hin1) as (col2 & Hcol2 & Hin2).
      by destruct (extends_elem_of _ _ _ _ _ H2 Hcol2 Hin2) as (col' & ? & ?); eauto.
    + eapply (IH c2); [|done..]. destruct H12 as [-> _]. lia.
  - intros Hb r [->|Hr]%elem_of_cons Hnext; [done|]. by eapply (IH c).
Qed.

Lemma predict_loop_none l next pos (c : Chart) :
  (forall r, r ∈ l -> head r <> next) -> predict_loop l next pos c = Ok c.
Proof.
  induction l as [|r0 l IH]; intros Hnone; simpl; [done|].
  rewrite bool_decide_eq_false_2 by (apply Hnone; by left).
  apply IH. intros r Hr. apply Hnone. by right.
Qed.

(** ** Acceptance, trees and the chart, property by property *)

(** X1: [parse] accepts only sentences of the grammar.  For every grammar
    whose rule bodies do not mention γ: when [parse] returns accepted = true,
    the start symbol S derives the token sequence of the sentence by the
    rules of the grammar. *)
Theorem parse_accepts_only_derivable isupper split self sentence self' tree :
  gamma_free (rules self) ->
  parse isupper split self sentence = Ok (self', (true, tree)) ->
  derives isupper (rules self) S_symbol (split sentence).
Proof.
  intros Hfree Hparse.
  destruct (parse_Ok_inv _ _ _ _ _ _ _ Hfree Hparse) as (c & Hwf & Hder & Hcheck).
  by eapply check_accepted_sound.
Qed.

Lemma parse_accepts_only_derivable_witness :
  gamma_free (rules epsilon_parser) /\
  parse ascii_isupper ascii_split epsilon_parser x_symbol
    = Ok (mkEarleyParser epsilon_grammar epsilon_chart, (true, Some epsilon_tree)) /\
  derives ascii_isupper (rules epsilon_parser) S_symbol (ascii_split x_symbol).
Proof.
  split; [exact epsilon_grammar_gamma_free|].
  split; [exact epsilon_parse|].
  exact (parse_accepts_only_derivable ascii_isupper ascii_split epsilon_parser
    x_symbol _ _ epsilon_grammar_gamma_free epsilon_parse).
Defined.

(** X2: the tree [parse] returns is a derivation tree of the grammar.  For
    every grammar whose rule bodies do not mention γ, the returned tree has
    the root S; every node with children is labelled by the head of a rule
    whose body is the row of its children's labels; a node without children
    is a terminal, or a nonterminal with an empty rule. *)
Theorem parse_tree_is_derivation_tree isupper split self sentence self'
    accepted t :
  gamma_free (rules self) ->
  parse isupper split self sentence = Ok (self', (accepted, Some t)) ->
  label t = S_symbol /\ derivation_tree isupper (rules self) t.
Proof.
  intros Hfree Hparse.
  destruct (parse_Ok_inv _ _ _ _ _ _ _ Hfree Hparse) as (c & Hwf & Hder & Hcheck).
  destruct (check_accepted_spec isupper (rules self) (split sentence) c Hwf Hder)
    as (last & accepted' & tree' & Hlast & Hcheck' & _ & Hacc & Hrej).
  rewrite Hcheck in Hcheck'. injection Hcheck' as <- <-.
  destruct accepted; [|by specialize (Hrej eq_refl)].
  destruct (Hacc eq_refl)
    as [(s & t' & (m & Hm & (Hcomp & Hhead & _) & _) & Ht & [= <-] & _)|[_ [=]]].
  destruct (build_tree_conforms isupper (rules self) (split sentence) Hfree c Hwf
    Hder _ _ _ _ _ _ _ Hlast Hm Hcomp ltac:(by rewrite Hhead) Ht) as [Hdt Hlab].
  split; [by rewrite Hlab|done].
Qed.

Lemma parse_tree_is_derivation_tree_witness :
  gamma_free (rules epsilon_parser) /\
  parse ascii_isupper ascii_split epsilon_parser x_symbol
    = Ok (mkEarleyParser epsilon_grammar epsilon_chart, (true, Some epsilon_tree)) /\
  label epsilon_tree = S_symbol /\
  derivation_tree ascii_isupper (rules epsilon_parser) epsilon_tree.
Proof.
  split; [exact epsilon_grammar_gamma_free|].
  split; [exact epsilon_parse|].
  exact (parse_tree_is_derivation_tree ascii_isupper ascii_split epsilon_parser
    x_symbol _ _ _ epsilon_grammar_gamma_free epsilon_parse).
Defined.

(** X3: [parse] answers accepted = true without a tree only for the empty
    sentence and a grammar with the rule [S → ε].  (The S state it then
    finds has no backpointers, and the search for the tree's root skips
    it.) *)
Theorem accepted_without_tree isupper split self sentence self' :
  gamma_free (rules self) -> isupper 83%N = true ->
  parse isupper split self sentence = Ok (self', (true, None)) ->
  split sentence = [] /\ mkRule S_symbol [] ∈ rules self.
Proof.
  intros Hfree HS Hparse.
  destruct (parse_Ok_inv _ _ _ _ _ _ _ Hfree Hparse) as (c & Hwf & Hder & Hcheck).
  destruct (check_accepted_spec isupper (rules self) (split sentence) c Hwf Hder)
    as (last & accepted' & tree' & Hlast & Hcheck' & Hiff & Hacc & _).
  rewrite Hcheck in Hcheck'. injection Hcheck' as <- <-.
  destruct (Hacc eq_refl) as [(s & t' & _ & _ & [=] & _)|[Hnone _]].
  destruct (proj1 Hiff eq_refl) as (s & Hs & Hacc').
  destruct (accepted_no_tree isupper (rules self) (split sentence) c Hwf Hder
    last s Hlast Hs Hacc' Hnone) as [(_ & ? & ?)|(Hnt & _)]; [done|].
  simpl in Hnt. congruence.
Qed.

Lemma accepted_without_tree_witness :
  gamma_free (rules (mkEarleyParser empty_rule_grammar [])) /\
  ascii_isupper 83%N = true /\
  parse ascii_isupper ascii_split (mkEarleyParser empty_rule_grammar []) []
    = Ok (mkEarleyParser empty_rule_grammar
            [[mkState start_rule 0 0 []; mkState (mkRule S_symbol []) 0 0 [];
              mkState start_rule 1 0 [(0, 0)%Z]]],
          (true, None)) /\
  ascii_split [] = [] /\
  mkRule S_symbol [] ∈ rules (mkEarleyParser empty_rule_grammar []).
Proof.
  split; [exact empty_rule_grammar_gamma_free|].
  split; [reflexivity|].
  assert (parse ascii_isupper ascii_split (mkEarleyParser empty_rule_grammar []) []
    = Ok (mkEarleyParser empty_rule_grammar
            [[mkState start_rule 0 0 []; mkState (mkRule S_symbol []) 0 0 [];
              mkState start_rule 1 0 [(0, 0)%Z]]],
          (true, None))) as Hparse by (vm_compute; reflexivity).
  split; [exact Hparse|].
  exact (accepted_without_tree ascii_isupper ascii_split
    (mkEarleyParser empty_rule_grammar []) [] _ empty_rule_grammar_gamma_free
    eq_refl Hparse).
Defined.

(** X4: a sentence with a token that no rule body mentions is rejected.  For
    every grammar whose rule bodies do not mention γ, and every sentence one
    of whose tokens is neither S nor a symbol of a rule body, [parse]
    returns accepted = false and no tree. *)
Theorem parse_rejects_unknown_token isupper split self sentence w :
  gamma_free (rules self) ->
  w ∈ split sentence -> w <> S_symbol ->
  (forall r, r ∈ rules self -> w ∉ body r) ->
  exists c, parse isupper split self sentence
    = Ok (mkEarleyParser (rules self) c, (false, None)).
Proof.
  intros Hfree Hw HS Hnone.
  destruct (parse_spec isupper split self sentence Hfree)
    as (c & last & accepted & tree & _ & _ & Hparse & _ & _ & Hrej).
  destruct accepted; [|exists c; by rewrite (Hrej eq_refl) in Hparse].
  exfalso.
  destruct (parse_Ok_inv _ _ _ _ _ _ _ Hfree Hparse) as (c' & Hwf & Hder & Hcheck).
  pose proof (check_accepted_sound isupper (rules self) (split sentence) Hfree
    c' Hwf Hder tree Hcheck) as Hd.
  destruct (derives_tokens _ _ _ _ Hd w Hw) as [?|(r & Hr & Hin)]; [done|].
  by apply (Hnone r).
Qed.

Lemma parse_rejects_unknown_token_witness :
  gamma_free (rules epsilon_parser) /\
  y_symbol ∈ ascii_split y_symbol /\ y_symbol <> S_symbol /\
  (forall r, r ∈ rules epsilon_parser -> y_symbol ∉ body r) /\
  exists c, parse ascii_isupper ascii_split epsilon_parser y_symbol
    = Ok (mkEarleyParser (rules epsilon_parser) c, (false, None)).
Proof.
  assert (y_symbol ∈ ascii_split y_symbol) as Hin by (vm_compute; left).
  assert (y_symbol <> S_symbol) as Hne by discriminate.
  assert (forall r, r ∈ rules epsilon_parser -> y_symbol ∉ body r) as Hnone.
  { intros r Hr. simpl in Hr. unfold epsilon_grammar in Hr.
    repeat (apply elem_of_cons in Hr as [->|Hr]); [| |by apply not_elem_of_nil in Hr];
      simpl; intros Hg; repeat (apply elem_of_cons in Hg as [Hg|Hg]; [done|]);
      by apply not_elem_of_nil in Hg. }
  split; [exact epsilon_grammar_gamma_free|].
  split; [exact Hin|]. split; [exact Hne|]. split; [exact Hnone|].
  exact (parse_rejects_unknown_token ascii_isupper ascii_split epsilon_parser
    y_symbol y_symbol epsilon_grammar_gamma_free Hin Hne Hnone).
Defined.

(** X5: in every chart of a parse, for every grammar, a state stored in
    column [e] belongs to a rule of the grammar or to the start rule, has
    its dot within the rule body and its start between 0 and [e], and its
    backpointers tile the span from its start to [e]: the first span begins
    at [state.start], each next one begins where the one before ends, none
    runs backwards, and the last one ends at [e]. *)
Theorem stored_state_spans isupper rs words (c : Chart) e col s :
  parse_chart isupper rs words c ->
  c !! e = Some col -> s ∈ col ->
  e <= length words /\
  rule s ∈ start_rule :: rs /\
  (0 <= dot s <= Z.of_nat (length (body (rule s))))%Z /\
  (0 <= start s <= Z.of_nat e)%Z /\
  chain (start s) (backpointers s) (Z.of_nat e).
Proof.
  intros [Hwf Hsteps]%parse_chart_steps He Hs.
  pose proof Hwf as [Hlen Hc].
  destruct (Hc _ _ He) as [_ Hall]. rewrite Forall_forall in Hall.
  destruct (Hall s Hs) as [Hr Hdot _ Hstart _ _ _].
  split; [apply lookup_lt_Some in He; lia|].
  split; [done|]. split; [lia|]. split; [lia|].
  eapply (steps_chained isupper rs words (initial_chart words) c);
    [apply initial_chart_wf|apply initial_chart_chained|done..].
Qed.

Lemma stored_state_spans_witness :
  parse_chart ascii_isupper epsilon_grammar [x_symbol] epsilon_chart /\
  epsilon_chart !! 1
    = Some [mkState S_rule 2 0 [(0, 0)%Z; (0, 1)%Z];
            mkState start_rule 1 0 [(0, 1)%Z]] /\
  mkState S_rule 2 0 [(0, 0)%Z; (0, 1)%Z]
    ∈ [mkState S_rule 2 0 [(0, 0)%Z; (0, 1)%Z];
       mkState start_rule 1 0 [(0, 1)%Z]] /\
  1 <= length [x_symbol] /\
  rule (mkState S_rule 2 0 [(0, 0)%Z; (0, 1)%Z])
    ∈ start_rule :: epsilon_grammar /\
  (0 <= dot (mkState S_rule 2 0 [(0, 0)%Z; (0, 1)%Z])
     <= Z.of_nat (length (body (rule (mkState S_rule 2 0 [(0, 0)%Z; (0, 1)%Z])))))%Z /\
  (0 <= start (mkState S_rule 2 0 [(0, 0)%Z; (0, 1)%Z]) <= Z.of_nat 1)%Z /\
  chain (start (mkState S_rule 2 0 [(0, 0)%Z; (0, 1)%Z]))
    (backpointers (mkState S_rule 2 0 [(0, 0)%Z; (0, 1)%Z])) (Z.of_nat 1).
Proof.
  assert (mkState S_rule 2 0 [(0, 0)%Z; (0, 1)%Z]
    ∈ [mkState S_rule 2 0 [(0, 0)%Z; (0, 1)%Z];
       mkState start_rule 1 0 [(0, 1)%Z]]) as Hin by (by left).
  split; [exact epsilon_chart_parse_chart|].
  split; [reflexivity|]. split; [exact Hin|].
  exact (stored_state_spans ascii_isupper epsilon_grammar [x_symbol]
    epsilon_chart 1 _ (mkState S_rule 2 0 [(0, 0)%Z; (0, 1)%Z])
    epsilon_chart_parse_chart eq_refl Hin).
Defined.

(** X6: [predict], [scan] and [complete] only ever append.  Whatever the
    arguments, a call that returns leaves the number of columns unchanged
    and every column of the old chart a prefix of the same column of the
    new one: no stored state is removed, replaced or moved. *)
Theorem methods_only_append isupper rs state position words (c c' : Chart) :
  predict isupper rs state position c = Ok c' \/
  scan state position words c = Ok c' \/
  complete state position c = Ok c' ->
  extends c c'.
Proof.
  assert (forall st pos (c1 c2 : Chart),
    extends c c1 -> _add_to_chart st pos c1 = Ok c2 -> extends c c2) as Hadd.
  { intros *. apply add_to_chart_extends. }
  intros [H|[H|H]].
  - by eapply (predict_preserved (extends c) Hadd); [apply extends_refl|].
  - by eapply (scan_preserved (extends c) Hadd); [apply extends_refl|].
  - by eapply (complete_preserved (extends c) Hadd); [apply extends_refl|].
Qed.

Lemma methods_only_append_witness :
  (predict ascii_isupper epsilon_grammar (mkState start_rule 0 0 []) 0
     (initial_chart [x_symbol])
   = Ok [[mkState start_rule 0 0 []; mkState S_rule 0 0 []]; []] \/
   scan (mkState start_rule 0 0 []) 0 [x_symbol] (initial_chart [x_symbol])
   = Ok [[mkState start_rule 0 0 []; mkState S_rule 0 0 []]; []] \/
   complete (mkState start_rule 0 0 []) 0 (initial_chart [x_symbol])
   = Ok [[mkState start_rule 0 0 []; mkState S_rule 0 0 []]; []]) /\
  extends (initial_chart [x_symbol])
    [[mkState start_rule 0 0 []; mkState S_rule 0 0 []]; []].
Proof.
  assert (predict ascii_isupper epsilon_grammar (mkState start_rule 0 0 []) 0
     (initial_chart [x_symbol])
   = Ok [[mkState start_rule 0 0 []; mkState S_rule 0 0 []]; []]) as Hp
    by (vm_compute; reflexivity).
  split; [left; exact Hp|].
  exact (methods_only_append ascii_isupper epsilon_grammar
    (mkState start_rule 0 0 []) 0 [x_symbol] _ _ (or_introl Hp)).
Defined.

(** X7: [_add_to_chart] at a position that names a column: the call returns,
    the state is in that column afterwards, the old column is a prefix of
    the new one, the other columns are untouched, and adding the same
    state again changes nothing. *)
Theorem add_to_chart_stores st (i : nat) (c : Chart) col :
  c !! i = Some col ->
  exists c' col',
    _add_to_chart st (Z.of_nat i) c = Ok c' /\
    c' !! i = Some col' /\ st ∈ col' /\ col `prefix_of` col' /\
    (forall e, e <> i -> c' !! e = c !! e) /\
    _add_to_chart st (Z.of_nat i) c' = Ok c'.
Proof.
  intros Hcol. pose proof (add_to_chart_nat st _ _ _ Hcol) as Hadd.
  destruct (decide (st ∈ col)) as [Hin|Hin].
  - rewrite bool_decide_eq_true_2 in Hadd by done.
    exists c, col. by split_and!.
  - rewrite bool_decide_eq_false_2 in Hadd by done.
    assert ((<[i := col ++ [st]]> c) !! i = Some (col ++ [st])) as Hcol'.
    { apply list_lookup_insert_eq. by eapply lookup_lt_Some. }
    assert (st ∈ col ++ [st]) as Hin'.
    { apply elem_of_app. right. by apply list_elem_of_singleton. }
    exists (<[i := col ++ [st]]> c), (col ++ [st]).
    split_and!; [done..|by apply prefix_app_r| |].
    + intros e He. by rewrite list_lookup_insert_ne.
    + by rewrite (add_to_chart_nat _ _ _ _ Hcol'), bool_decide_eq_true_2.
Qed.

Lemma add_to_chart_stores_witness :
  (initial_chart [x_symbol]) !! 1 = Some [] /\
  exists c' col',
    _add_to_chart (mkState S_rule 0 0 []) (Z.of_nat 1) (initial_chart [x_symbol])
      = Ok c' /\
    c' !! 1 = Some col' /\ mkState S_rule 0 0 [] ∈ col' /\ [] `prefix_of` col' /\
    (forall e, e <> 1 -> c' !! e = initial_chart [x_symbol] !! e) /\
    _add_to_chart (mkState S_rule 0 0 []) (Z.of_nat 1) c' = Ok c'.
Proof.
  split; [reflexivity|].
  exact (add_to_chart_stores (mkState S_rule 0 0 []) 1 (initial_chart [x_symbol])
    [] eq_refl).
Defined.

(** X8: [predict] on a state whose next symbol is a nonterminal, at a
    position that names a column: if the call returns, the chart has only
    grown, and for every rule of the grammar with that head the state
    [(rule, 0, position, ())] is in the column afterwards; if the grammar
    has no rule with that head, the chart is unchanged. *)
Theorem predict_adds_every_rule isupper rs state (i : nat) (c c' : Chart) next :
  i < length c ->
  next_symbol state = Ok (Some next) ->
  is_nonterminal isupper (Some next) = true ->
  predict isupper rs state (Z.of_nat i) c = Ok c' ->
  extends c c' /\
  (forall r, r ∈ rs -> head r = next ->
     exists col', c' !! i = Some col' /\ mkState r 0 (Z.of_nat i) [] ∈ col') /\
  ((forall r, r ∈ rs -> head r <> next) -> c' = c).
Proof.
  intros Hi Hnext Hnt Hp. split_and!.
  - eapply (predict_preserved (extends c)); [|apply extends_refl|done].
    intros *. apply add_to_chart_extends.
  - unfold predict in Hp. rewrite Hnext in Hp. cbn [bind] in Hp. rewrite Hnt in Hp.
    by apply (predict_loop_adds rs next i c).
  - intros Hnone. unfold predict in Hp. rewrite Hnext in Hp. cbn [bind] in Hp.
    rewrite Hnt in Hp. rewrite predict_loop_none in Hp by done. by injection Hp.
Qed.

Lemma predict_adds_every_rule_witness :
  0 < length (initial_chart [x_symbol]) /\
  next_symbol (mkState start_rule 0 0 []) = Ok (Some S_symbol) /\
  is_nonterminal ascii_isupper (Some S_symbol) = true /\
  predict ascii_isupper epsilon_grammar (mkState start_rule 0 0 []) (Z.of_nat 0)
    (initial_chart [x_symbol])
  = Ok [[mkState start_rule 0 0 []; mkState S_rule 0 0 []]; []] /\
  extends (initial_chart [x_symbol])
    [[mkState start_rule 0 0 []; mkState S_rule 0 0 []]; []].
Proof.
  assert (0 < length (initial_chart [x_symbol])) as Hi by (simpl; lia).
  assert (predict ascii_isupper epsilon_grammar (mkState start_rule 0 0 [])
    (Z.of_nat 0) (initial_chart [x_symbol])
    = Ok [[mkState start_rule 0 0 []; mkState S_rule 0 0 []]; []]) as Hp
    by (vm_compute; reflexivity).
  split; [exact Hi|]. split; [reflexivity|]. split; [reflexivity|].
  split; [exact Hp|].
  exact (proj1 (predict_adds_every_rule ascii_isupper epsilon_grammar
    (mkState start_rule 0 0 []) 0 _ _ S_symbol Hi eq_refl eq_refl Hp)).
Defined.

(** X9: [scan] at position [i], for a state whose dot is not negative and a
    chart that has column [i + 1]: the call returns; it appends the state
    advanced over the span (i, i + 1) to column [i + 1] when the state is
    incomplete, the symbol after its dot is not empty and equals token [i]
    of the sentence, and the advanced state is not yet in that column; in
    every other case, also when [i] is past the last token, the chart is
    unchanged. *)
Theorem scan_effect state (i : nat) words (c : Chart) col :
  (0 <= dot state)%Z -> c !! S i = Some col ->
  scan state (Z.of_nat i) words c =
  Ok (match words !! i with
      | Some w =>
        let new_state := advance state (Z.of_nat i, Z.of_nat i + 1)%Z in
        if bool_decide (waits_for state w /\ w <> [] /\ new_state ∉ col)
        then <[S i := col ++ [new_state]]> c
        else c
      | None => c
      end).
Proof.
  intros Hdot Hcol. unfold scan.
  destruct (Z.ltb_spec (Z.of_nat i) (Z.of_nat (length words))) as [Hlt|Hge].
  2:{ rewrite lookup_ge_None_2 by lia. done. }
  destruct (lookup_lt_is_Some_2 words i) as [w Hw]; [lia|]. rewrite Hw.
  cbn zeta.
  destruct (is_complete state) eqn:Hcomp.
  - rewrite next_symbol_complete by done. cbn [bind truthy].
    rewrite bool_decide_eq_false_2; [done|]. intros [[Hc _] _]. congruence.
  - destruct (next_symbol_incomplete state Hcomp Hdot) as (x & _ & Hnext).
    rewrite Hnext. cbn [bind]. destruct x as [|ch x]; cbn [truthy].
    + rewrite bool_decide_eq_false_2; [done|].
      intros ([_ Hn] & Hne & _). rewrite Hnext in Hn. by injection Hn as <-.
    + rewrite (getitem_nat _ _ _ Hw). cbn [bind].
      case_bool_decide as Heq.
      * injection Heq as <-.
        replace (_add_to_chart (advance state (Z.of_nat i, (Z.of_nat i + 1)%Z))
                   (Z.of_nat i + 1) c)
          with (_add_to_chart (advance state (Z.of_nat i, (Z.of_nat i + 1)%Z))
                   (Z.of_nat (S i)) c) by (f_equal; lia).
        rewrite (add_to_chart_nat _ _ _ _ Hcol).
        case_bool_decide as Hin.
        -- rewrite bool_decide_eq_false_2; [done|]. by intros (_ & _ & ?).
        -- rewrite bool_decide_eq_true_2; [done|]. by split_and!.
      * rewrite bool_decide_eq_false_2; [done|].
        intros ([_ Hn] & _). rewrite Hnext in Hn. congruence.
Qed.

Lemma scan_effect_witness :
  (0 <= dot (mkState S_rule 1 0 [(0, 0)%Z]))%Z /\
  [[mkState S_rule 1 0 [(0, 0)%Z]]; []] !! 1 = Some ([] : list State) /\
  scan (mkState S_rule 1 0 [(0, 0)%Z]) (Z.of_nat 0) [x_symbol]
    [[mkState S_rule 1 0 [(0, 0)%Z]]; []]
  = Ok [[mkState S_rule 1 0 [(0, 0)%Z]];
        [mkState S_rule 2 0 [(0, 0)%Z; (0, 1)%Z]]].
Proof.
  assert (0 <= dot (mkState S_rule 1 0 [(0, 0)%Z]))%Z as Hdot by (simpl; lia).
  split; [exact Hdot|]. split; [reflexivity|].
  exact (scan_effect (mkState S_rule 1 0 [(0, 0)%Z]) 0 [x_symbol]
    [[mkState S_rule 1 0 [(0, 0)%Z]]; []] [] Hdot eq_refl).
Defined.

(** ** Completion reaches every waiting state *)

Lemma add_to_chart_member st pos (c c' : Chart) k :
  _add_to_chart st pos c = Ok c' -> py_index (length c) pos = Ok k ->
  exists col, c' !! k = Some col /\ st ∈ col.
Proof.
  unfold _add_to_chart. intros Hadd Hk.
  destruct (Z.leb_spec (Z.of_nat (length c)) pos) as [Hle|Hlt].
  - apply py_index_Ok in Hk as [? [[? ->]|[? ->]]]; lia.
  - rewrite Hk in Hadd. cbn [bind] in Hadd.
    apply bind_Ok in Hadd as (col & Hcol%of_option_Ok & Hadd).
    case_bool_decide; injection Hadd as <-; [by eauto|].
    exists (col ++ [st]). rewrite list_lookup_insert_eq by (by eapply lookup_lt_Some).
    split; [done|]. apply elem_of_app. right. by apply list_elem_of_singleton.
Qed.

Lemma complete_loop_reaches fuel state pos cs ci k (c c' : Chart) col n s :
  complete_loop fuel state pos cs k c = Ok c' ->
  py_index (length c) pos = Ok ci ->
  c !! cs = Some col -> col !! n = Some s -> k <= n ->
  waits_for s (head (rule state)) ->
  exists col', c' !! ci = Some col' /\ advance s (start state, pos) ∈ col'.
Proof.
  assert (forall (c0 : Chart) st p (c1 c2 : Chart),
    extends c0 c1 -> _add_to_chart st p c1 = Ok c2 -> extends c0 c2) as Hadd.
  { intros *. apply add_to_chart_extends. }
  revert k c col. induction fuel as [|fuel IH]; intros k c col; simpl; [done|].
  intros Hb Hci Hcol Hn Hk Hwait. rewrite Hcol in Hb. cbn [of_option bind] in Hb.
  destruct (col !! k) as [s'|] eqn:Hs'.
  2:{ apply lookup_ge_None in Hs'. apply lookup_lt_Some in Hn. lia. }
  apply bind_Ok in Hb as (c1 & Hc1 & Hb).
  assert (extends c c1) as H01.
  { by eapply (complete_step_preserved (extends c) (Hadd c)); [apply extends_refl|]. }
  destruct (decide (k = n)) as [->|Hne].
  - assert (s' = s) as -> by congruence.
    destruct Hwait as [Hinc Hnext]. unfold complete_step in Hc1.
    rewrite Hinc, Hnext in Hc1. cbn [negb bind] in Hc1.
    rewrite bool_decide_eq_true_2 in Hc1 by done.
    destruct (add_to_chart_member _ _ _ _ _ Hc1 Hci) as (col1 & Hcol1 & Hin1).
    eapply extends_elem_of; [|done..].
    by eapply (complete_loop_preserved (extends c1) (Hadd c1)); [apply extends_refl|].
  - destruct (extends_lookup _ _ _ _ _ _ H01 Hcol Hn) as (col1 & Hcol1 & Hn1).
    eapply (IH (S k) c1 col1); [done| |done..|lia|done].
    by destruct H01 as [-> _].
Qed.

Lemma predict_loop_completes l next (i : nat) (c c' : Chart) col s r :
  predict_loop l next (Z.of_nat i) c = Ok c' ->
  c !! i = Some col -> s ∈ col -> waits_for s next ->
  r ∈ l -> head r = next -> body r = [] ->
  exists col', c' !! i = Some col' /\
    advance s (Z.of_nat i, Z.of_nat i) ∈ col'.
Proof.
  assert (forall (c0 : Chart) st p (c1 c2 : Chart),
    extends c0 c1 -> _add_to_chart st p c1 = Ok c2 -> extends c0 c2) as Hadd.
  { intros *. apply add_to_chart_extends. }
  revert c col. induction l as [|r0 l IH]; intros c col; simpl;
    [by intros _ _ _ _ ?%not_elem_of_nil|].
  intros Hb Hcol Hs Hwait Hr Hhead Hbody. case_bool_decide as Hhead0.
  2:{ apply elem_of_cons in Hr as [->|Hr]; [done|]. by eapply (IH c col). }
  apply bind_Ok in Hb as (c1 & Hc1 & Hb). apply bind_Ok in Hb as (c2 & Hc2 & Hb).
  assert (extends c c1) as H01 by (by eapply Hadd; [apply extends_refl|]).
  assert (extends c1 c2) as H12.
  { destruct (body r0); [|injection Hc2 as <-; apply extends_refl].
    by eapply (complete_preserved (extends c1) (Hadd c1)); [apply extends_refl|]. }
  assert (extends c2 c') as H2.
  { by eapply (predict_loop_preserved (extends c2) (Hadd c2)); [apply extends_refl|]. }
  destruct (extends_elem_of _ _ _ _ _ H01 Hcol Hs) as (col1 & Hcol1 & Hs1).
  apply elem_of_cons in Hr as [->|Hr].
  - rewrite Hbody in Hc2. unfold complete in Hc2.
    assert (is_complete (mkState r0 0 (Z.of_nat i) []) = true) as Hcomp.
    { apply is_complete_true. simpl. rewrite Hbody. simpl. lia. }
    rewrite Hcomp in Hc2. cbn [negb start] in Hc2.
    pose proof (lookup_lt_Some _ _ _ Hcol1) as Hi.
    rewrite py_index_nat in Hc2 by done. cbn [bind] in Hc2.
    rewrite Hcol1 in Hc2. cbn [of_option bind] in Hc2.
    apply list_elem_of_lookup in Hs1 as [n Hn].
    destruct (complete_loop_reaches _ _ _ _ i _ _ _ _ _ _ Hc2 (py_index_nat _ _ Hi)
      Hcol1 Hn ltac:(lia)) as (col2 & Hcol2 & Hin2).
    { simpl. by rewrite Hhead. }
    by eapply extends_elem_of.
  - destruct (extends_elem_of _ _ _ _ _ H12 Hcol1 Hs1) as (col2 & Hcol2 & Hs2).
    by eapply (IH c2 col2).
Qed.

(** The first pass of the work list of column 0 is [predict] on the initial
    state. *)
Lemma build_chart_first_pass isupper rs words c :
  isupper 83%N = true ->
  build_chart isupper rs words = Ok c ->
  exists c1,
    predict_loop rs S_symbol (Z.of_nat 0) (initial_chart words) = Ok c1 /\
    extends c1 c.
Proof.
  assert (forall (c0 : Chart) st p (c1 c2 : Chart),
    extends c0 c1 -> _add_to_chart st p c1 = Ok c2 -> extends c0 c2) as Hadd.
  { intros *. apply add_to_chart_extends. }
  intros HS. unfold build_chart. rewrite Nat.add_1_r. simpl replicate.
  change (_add_to_chart _ 0 _) with (Ok (initial_chart words)). cbn [bind].
  cbn [seq for_loop]. intros Hb. apply bind_Ok in Hb as (c0 & Hc0 & Hb).
  unfold chart_budget in Hc0. cbn [while_loop] in Hc0.
  change (initial_chart words !! 0) with (Some [mkState start_rule 0 0 []]) in Hc0.
  cbn [of_option bind length Nat.ltb Nat.leb lookup list_lookup] in Hc0.
  apply bind_Ok in Hc0 as (c1 & Hc1 & Hc0).
  unfold process in Hc1.
  change (is_complete (mkState start_rule 0 0 [])) with false in Hc1.
  change (next_symbol (mkState start_rule 0 0 [])) with (Ok (Some S_symbol)) in Hc1.
  cbn [negb bind] in Hc1.
  assert (is_nonterminal isupper (Some S_symbol) = true) as Hnt by done.
  rewrite Hnt in Hc1. unfold predict in Hc1.
  change (next_symbol (mkState start_rule 0 0 [])) with (Ok (Some S_symbol)) in Hc1.
  cbn [bind] in Hc1. rewrite Hnt in Hc1.
  exists c1. split; [done|].
  eapply extends_trans.
  - by eapply (while_loop_preserved (extends c1) (Hadd c1)); [apply extends_refl|].
  - by eapply (for_loop_preserved (extends c0) (Hadd c0)); [apply extends_refl|].
Qed.

(** X10: the empty sentence is accepted when [S → ε] is a rule.  For every
    grammar whose rule bodies do not mention γ and that has [S → ε] among
    its rules, and every sentence without tokens, [parse] returns accepted
    = true: [predict] completes the empty rule the moment it predicts it,
    which advances the start rule in column 0. *)
Theorem empty_sentence_accepted isupper split self sentence :
  gamma_free (rules self) -> isupper 83%N = true ->
  mkRule S_symbol [] ∈ rules self -> split sentence = [] ->
  exists c tree, parse isupper split self sentence
    = Ok (mkEarleyParser (rules self) c, (true, tree)).
Proof.
  intros Hfree HS Hrule Hempty.
  destruct (parse_spec isupper split self sentence Hfree)
    as (c & last & accepted & tree & Hc & Hlast & Hparse & Hiff & _).
  exists c, tree. rewrite Hparse. repeat f_equal. apply Hiff.
  destruct (build_chart_first_pass _ _ _ _ HS Hc) as (c1 & Hc1 & Hext).
  rewrite Hempty in *. simpl in Hlast.
  destruct (predict_loop_completes (rules self) S_symbol 0 _ _
    [mkState start_rule 0 0 []] (mkState start_rule 0 0 []) (mkRule S_symbol [])
    Hc1) as (col1 & Hcol1 & Hin1); [done|by left|done..|].
  destruct (extends_elem_of _ _ _ _ _ Hext Hcol1 Hin1) as (col & Hcol & Hin).
  assert (col = last) as -> by congruence.
  eexists. split; [done|]. by split_and!.
Qed.

Lemma empty_sentence_accepted_witness :
  gamma_free (rules (mkEarleyParser empty_rule_grammar [])) /\
  ascii_isupper 83%N = true /\
  mkRule S_symbol [] ∈ rules (mkEarleyParser empty_rule_grammar []) /\
  ascii_split [] = [] /\
  exists c tree,
    parse ascii_isupper ascii_split (mkEarleyParser empty_rule_grammar []) []
    = Ok (mkEarleyParser (rules (mkEarleyParser empty_rule_grammar [])) c,
          (true, tree)).
Proof.
  assert (mkRule S_symbol [] ∈ rules (mkEarleyParser empty_rule_grammar []))
    as Hin by (by left).
  split; [exact empty_rule_grammar_gamma_free|].
  split; [reflexivity|]. split; [exact Hin|]. split; [reflexivity|].
  exact (empty_sentence_accepted ascii_isupper ascii_split
    (mkEarleyParser empty_rule_grammar []) [] empty_rule_grammar_gamma_free
    eq_refl Hin eq_refl).
Defined.

(** ** Text *)

Section TextFacts.

Variable isspace : char -> bool.

Abbreviation lstrip := (lstrip isspace).
Abbreviation rstrip := (rstrip isspace).
Abbreviation strip := (strip isspace).
Abbreviation split_from := (split_from isspace).
Abbreviation split_whitespace := (split_whitespace isspace).

Abbreviation blank := (Forall (fun ch => isspace ch = true)).
Abbreviation spaceless := (Forall (fun ch => isspace ch = false)).

Lemma rstrip_cons ch s :
  rstrip (ch :: s) =
    match rstrip s with
    | [] => if isspace ch then [] else [ch]
    | _ :: _ => ch :: rstrip s
    end.
Proof. simpl. by destruct (rstrip s). Qed.

Lemma rstrip_blank s : blank s -> rstrip s = [].
Proof.
  induction 1 as [|ch s Hch _ IH]; [done|]. by rewrite rstrip_cons, IH, Hch.
Qed.

Lemma rstrip_nil_blank s : rstrip s = [] -> blank s.
Proof.
  induction s as [|ch s IH]; [done|]. rewrite rstrip_cons.
  destruct (rstrip s); [|done]. destruct (isspace ch) eqn:Hch; [|done].
  intros _. constructor; [done|by apply IH].
Qed.

Lemma rstrip_app_blank s t : blank t -> rstrip (s ++ t) = rstrip s.
Proof.
  intros Ht. induction s as [|ch s IH]; simpl app.
  - by rewrite rstrip_blank.
  - by rewrite !rstrip_cons, IH.
Qed.

Lemma rstrip_snoc s ch : isspace ch = false -> rstrip (s ++ [ch]) = s ++ [ch].
Proof.
  intros Hch. induction s as [|ch' s IH]; simpl app.
  - by rewrite rstrip_cons, Hch.
  - rewrite rstrip_cons, IH. by destruct s.
Qed.

Lemma rstrip_spaceless s : spaceless s -> rstrip s = s.
Proof.
  intros Hs. induction s as [|ch s _] using rev_ind; [done|].
  apply Forall_app in Hs as [_ Hch]. apply Forall_inv in Hch.
  by apply rstrip_snoc.
Qed.

Lemma rstrip_idemp s : rstrip (rstrip s) = rstrip s.
Proof.
  induction s as [|ch s IH]; [done|]. rewrite rstrip_cons.
  destruct (rstrip s) as [|ch' r] eqn:Hr.
  - destruct (isspace ch) eqn:Hch; [done|]. by rewrite rstrip_cons, Hch.
  - by rewrite rstrip_cons, IH.
Qed.

Lemma lstrip_blank s : blank s -> lstrip s = [].
Proof. induction 1 as [|ch s Hch _ IH]; [done|]. simpl. by rewrite Hch. Qed.

Lemma lstrip_idemp s : lstrip (lstrip s) = lstrip s.
Proof.
  induction s as [|ch s IH]; [done|]. simpl.
  destruct (isspace ch) eqn:Hch; [done|]. simpl. by rewrite Hch.
Qed.

Lemma lstrip_rstrip s : lstrip (rstrip s) = rstrip (lstrip s).
Proof.
  induction s as [|ch s IH]; [done|]. rewrite rstrip_cons. simpl lstrip at 2.
  destruct (isspace ch) eqn:Hch.
  - rewrite <- IH. destruct (rstrip s) as [|ch' r]; [done|]. simpl. by rewrite Hch.
  - rewrite rstrip_cons.
    destruct (rstrip s) as [|ch' r]; simpl; by rewrite Hch.
Qed.

Lemma strip_lstrip s : strip (lstrip s) = strip s.
Proof. unfold strip. by rewrite lstrip_idemp. Qed.

Lemma strip_rstrip s : strip (rstrip s) = strip s.
Proof. unfold strip. by rewrite lstrip_rstrip, rstrip_idemp. Qed.

Lemma strip_idemp s : strip (strip s) = strip s.
Proof. unfold strip at 2. by rewrite strip_rstrip, strip_lstrip. Qed.

Lemma strip_blank s : blank s -> strip s = [].
Proof. intros Hs. unfold strip. by rewrite lstrip_blank. Qed.

Lemma lstrip_subseteq s : lstrip s ⊆ s.
Proof.
  induction s as [|ch s IH]; [done|]. simpl. destruct (isspace ch); [|done].
  intros x Hx. right. by apply IH.
Qed.

Lemma rstrip_subseteq s : rstrip s ⊆ s.
Proof.
  induction s as [|ch s IH]; [done|]. rewrite rstrip_cons.
  destruct (rstrip s) as [|ch' r].
  - destruct (isspace ch); [apply list_subseteq_nil|].
    intros x ->%list_elem_of_singleton. by left.
  - intros x [->|Hx]%elem_of_cons; [by left|]. right. by apply IH.
Qed.

Lemma strip_subseteq s : strip s ⊆ s.
Proof. unfold strip. etrans; [apply rstrip_subseteq|apply lstrip_subseteq]. Qed.

Lemma strip_nil_blank s : strip s = [] -> blank s.
Proof.
  unfold strip. intros H%rstrip_nil_blank. induction s as [|ch s IH]; [done|].
  simpl in H. destruct (isspace ch) eqn:Hch.
  - constructor; [done|by apply IH].
  - apply Forall_cons in H as [H _]. congruence.
Qed.

(** *** [split()] *)

Lemma split_from_blank cur s :
  blank s -> split_from cur s = match cur with [] => [] | _ :: _ => [reverse cur] end.
Proof.
  intros Hs. revert cur. induction Hs as [|ch s Hch _ IH]; intros cur; [done|].
  simpl. rewrite Hch, IH. by destruct cur.
Qed.

Lemma split_from_lstrip s : split_from [] (lstrip s) = split_from [] s.
Proof.
  induction s as [|ch s IH]; [done|]. simpl. destruct (isspace ch) eqn:Hch; [done|].
  simpl. by rewrite Hch.
Qed.

Lemma split_from_app_blank cur s t :
  blank t -> split_from cur (s ++ t) = split_from cur s.
Proof.
  intros Ht. revert cur. induction s as [|ch s IH]; intros cur; simpl.
  - by apply split_from_blank.
  - destruct (isspace ch); [|done]. rewrite IH. done.
Qed.

Lemma split_from_nil_blank cur s : split_from cur s = [] -> cur = [] /\ blank s.
Proof.
  revert cur. induction s as [|ch s IH]; intros cur; simpl.
  - by destruct cur.
  - destruct (isspace ch) eqn:Hch.
    + destruct cur; [|done]. intros [_ H]%IH. split; [done|]. by constructor.
    + by intros [[=] _]%IH.
Qed.

Lemma split_from_words cur s :
  spaceless cur ->
  Forall (fun w => w <> [] /\ spaceless w) (split_from cur s).
Proof.
  revert cur. induction s as [|ch s IH]; intros cur Hcur; simpl.
  - destruct cur as [|c0 cur]; [done|]. apply Forall_singleton. split.
    + intros H%(f_equal length). rewrite length_reverse in H. done.
    + by apply Forall_reverse.
  - destruct (isspace ch) eqn:Hch.
    + destruct cur as [|c0 cur]; [by apply IH|]. constructor; [|by apply IH]. split.
      * intros H%(f_equal length). rewrite length_reverse in H. done.
      * by apply Forall_reverse.
    + apply IH. by constructor.
Qed.

Lemma split_from_subseteq cur s w :
  w ∈ split_from cur s -> w ⊆ cur ++ s.
Proof.
  revert cur. induction s as [|ch s IH]; intros cur; simpl.
  - destruct cur as [|c0 cur]; [by intros ?%not_elem_of_nil|].
    intros ->%list_elem_of_singleton x Hx. rewrite elem_of_reverse in Hx.
    by rewrite app_nil_r.
  - destruct (isspace ch).
    + assert (w ∈ split_from [] s -> w ⊆ cur ++ ch :: s) as Hrest.
      { intros Hw%IH x Hx%Hw. apply elem_of_app. right. by right. }
      destruct cur as [|c0 cur]; [done|].
      intros [->|Hw]%elem_of_cons; [|by apply Hrest].
      intros x Hx. rewrite elem_of_reverse in Hx. apply elem_of_app. by left.
    + intros Hw%IH x Hx%Hw. change ((ch :: cur) ++ s) with (ch :: (cur ++ s)) in Hx.
      apply elem_of_cons in Hx as [->|Hx]; [apply elem_of_app; right; by left|].
      apply elem_of_app in Hx as [Hx|Hx]; apply elem_of_app; [by left|right; by right].
Qed.

Lemma split_from_app_word cur w s :
  spaceless w -> split_from cur (w ++ s) = split_from (reverse w ++ cur) s.
Proof.
  intros Hw. revert cur. induction Hw as [|ch w Hch _ IH]; intros cur; [done|].
  simpl. rewrite Hch, IH, reverse_cons. by rewrite <- app_assoc.
Qed.

Lemma split_from_word w s :
  spaceless w -> w <> [] -> blank s -> split_from [] (w ++ s) = [w].
Proof.
  intros Hw Hne Hs. rewrite split_from_app_word, app_nil_r, split_from_blank by done.
  destruct (reverse w) eqn:Hr; [|by rewrite <- Hr, reverse_involutive].
  apply (f_equal length) in Hr. rewrite length_reverse in Hr. by destruct w.
Qed.

Lemma split_from_word_space w ch s :
  spaceless w -> w <> [] -> isspace ch = true ->
  split_from [] (w ++ ch :: s) = w :: split_from [] s.
Proof.
  intros Hw Hne Hch. rewrite split_from_app_word, app_nil_r by done.
  simpl. rewrite Hch.
  destruct (reverse w) eqn:Hr; [|by rewrite <- Hr, reverse_involutive].
  apply (f_equal length) in Hr. rewrite length_reverse in Hr. by destruct w.
Qed.

Lemma split_join body :
  isspace space = true ->
  Forall (fun w => w <> [] /\ spaceless w) body ->
  split_whitespace (join [space] body) = body.
Proof.
  intros Hsp. unfold split_whitespace.
  induction 1 as [|w body [Hne Hw] Hbody IH]; [done|].
  cbn [join]. destruct body as [|w' body].
  - rewrite <- (app_nil_r w) at 1. by apply split_from_word.
  - cbn [app]. rewrite split_from_word_space by done. by rewrite IH.
Qed.

(** A stripped string with one word is that word. *)
Lemma split_from_single cur s w :
  spaceless cur -> cur <> [] -> split_from cur s = [w] ->
  rstrip (reverse cur ++ s) = w.
Proof.
  revert cur. induction s as [|ch s IH]; intros cur Hcur Hne; simpl.
  - destruct cur; [done|]. intros [= <-]. rewrite app_nil_r.
    apply rstrip_spaceless. by apply Forall_reverse.
  - destruct (isspace ch) eqn:Hch.
    + destruct cur; [done|]. intros [= <- [_ Hs]%split_from_nil_blank].
      rewrite rstrip_app_blank by (by constructor).
      apply rstrip_spaceless. by apply Forall_reverse.
    + intros H. apply IH in H; [|by constructor|done].
      by rewrite reverse_cons, <- app_assoc in H.
Qed.

Lemma split_whitespace_single s w : split_whitespace s = [w] -> strip s = w.
Proof.
  unfold split_whitespace. induction s as [|ch s IH]; [done|]. simpl.
  destruct (isspace ch) eqn:Hch.
  - intros H%IH. unfold strip. simpl. by rewrite Hch.
  - intros H%split_from_single; [|by repeat constructor|done].
    unfold strip. simpl. by rewrite Hch.
Qed.

(** *** [split(sep)] *)

Lemma split_on_cons sep s : exists p ps, split_on sep s = p :: ps.
Proof.
  induction s as [|ch s (p & ps & IH)]; simpl; [by eauto|].
  case_bool_decide; [by eauto|]. rewrite IH. by eauto.
Qed.

Lemma split_on_length sep s :
  length (split_on sep s) = S (length (filter (fun ch => ch = sep) s)).
Proof.
  induction s as [|ch s IH]; [done|]. simpl.
  rewrite filter_cons. case_bool_decide as Heq.
  - rewrite decide_True by done. simpl. by rewrite IH.
  - rewrite decide_False by done. rewrite <- IH.
    by destruct (split_on_cons sep s) as (p & ps & ->).
Qed.

Lemma split_on_parts sep s p :
  p ∈ split_on sep s -> (sep ∉ p) /\ p ⊆ s.
Proof.
  revert p. induction s as [|ch s IH]; intros p; simpl.
  - intros ->%list_elem_of_singleton. split; [apply not_elem_of_nil|done].
  - case_bool_decide as Heq.
    + intros [->|[Hp Hsub]%IH]%elem_of_cons.
      * split; [apply not_elem_of_nil|apply list_subseteq_nil].
      * split; [done|]. intros x Hx. right. by apply Hsub.
    + destruct (split_on_cons sep s) as (p0 & ps & Hs). rewrite Hs in *.
      intros [->|Hp]%elem_of_cons.
      * destruct (IH p0) as [Hp0 Hsub]; [by left|]. split.
        -- intros [?|?]%elem_of_cons; [by subst|done].
        -- intros x [->|Hx]%elem_of_cons; [by left|]. right. by apply Hsub.
      * destruct (IH p) as [Hp0 Hsub]; [by right|]. split; [done|].
        intros x Hx. right. by apply Hsub.
Qed.

Lemma split_on_none sep s : sep ∉ s -> split_on sep s = [s].
Proof.
  induction s as [|ch s IH]; [done|]. intros [Hne Hs]%not_elem_of_cons. simpl.
  rewrite bool_decide_eq_false_2 by done. by rewrite IH.
Qed.

Lemma split_on_app sep s t :
  sep ∉ s -> split_on sep (s ++ sep :: t) = s :: split_on sep t.
Proof.
  induction s as [|ch s IH]; simpl.
  - intros _. by rewrite bool_decide_eq_true_2.
  - intros [Hne Hs]%not_elem_of_cons. rewrite bool_decide_eq_false_2 by done.
    by rewrite IH.
Qed.

Lemma split_on_lstrip sep s :
  isspace sep = false ->
  exists p ps, split_on sep s = p :: ps /\
    split_on sep (lstrip s) = lstrip p :: ps.
Proof.
  intros Hsep. induction s as [|ch s (p & ps & IH & IH')]; [by exists [], []|].
  simpl. destruct (isspace ch) eqn:Hch.
  - rewrite bool_decide_eq_false_2 by congruence. rewrite IH.
    exists (ch :: p), ps. split; [done|]. simpl. by rewrite Hch.
  - case_bool_decide as Heq.
    + exists [], (split_on sep s). split; [done|]. simpl.
      by rewrite bool_decide_eq_true_2.
    + rewrite IH. exists (ch :: p), ps. split; [done|]. simpl.
      rewrite bool_decide_eq_false_2 by done. by rewrite IH, Hch.
Qed.

Lemma split_on_single_nil sep s : split_on sep s = [[]] -> s = [].
Proof.
  destruct s as [|ch s]; [done|]. simpl.
  destruct (split_on_cons sep s) as (p & ps & ->). by case_bool_decide.
Qed.

Lemma rstrip_cons_nonspace ch s :
  isspace ch = false -> rstrip (ch :: s) = ch :: rstrip s.
Proof. intros Hch. rewrite rstrip_cons, Hch. by destruct (rstrip s). Qed.

Lemma rstrip_cons_nonnil ch s :
  rstrip s <> [] -> rstrip (ch :: s) = ch :: rstrip s.
Proof. intros Hs. rewrite rstrip_cons. by destruct (rstrip s). Qed.

Lemma split_on_rstrip sep s :
  isspace sep = false ->
  exists ps p, split_on sep s = ps ++ [p] /\
    split_on sep (rstrip s) = ps ++ [rstrip p].
Proof.
  intros Hsep. induction s as [|ch s (ps & p & IH & IH')]; [by exists [], []|].
  destruct (decide (ch = sep)) as [->|Hne].
  - exists ([] :: ps), p. rewrite rstrip_cons_nonspace by done. simpl.
    rewrite bool_decide_eq_true_2 by done. by rewrite IH, IH'.
  - assert (split_on sep (ch :: s) =
      match ps ++ [p] with q :: qs => (ch :: q) :: qs | [] => [[ch]] end) as Hs.
    { simpl. rewrite bool_decide_eq_false_2 by done. by rewrite IH. }
    destruct (decide (rstrip s = [])) as [Hnil|Hnn].
    + rewrite Hnil in IH'. simpl in IH'.
      destruct ps as [|? [|? ?]]; simpl in IH'; [|done..]. injection IH' as IH'.
      exists [], (ch :: p). split; [done|].
      rewrite (rstrip_cons ch s), (rstrip_cons ch p), Hnil, <- IH'. simpl.
      destruct (isspace ch); [done|]. simpl. by rewrite bool_decide_eq_false_2.
    + rewrite rstrip_cons_nonnil by done. simpl split_on at 2.
      rewrite bool_decide_eq_false_2 by done. rewrite IH'.
      destruct ps as [|p0 ps].
      * exists [], (ch :: p). split; [done|].
        rewrite (rstrip_cons_nonnil ch p); [done|]. intros Hp. rewrite Hp in IH'.
        by apply split_on_single_nil in IH'.
      * by exists ((ch :: p0) :: ps), p.
Qed.

End TextFacts.

Lemma ascii_split_from_eq cur s :
  ascii_split_from cur s = split_from ascii_isspace cur s.
Proof.
  revert cur. induction s as [|ch s IH]; intros cur; [done|]. simpl.
  by rewrite !IH.
Qed.

Lemma join_elem_of sep l x :
  x ∈ join sep l -> x ∈ sep \/ exists w, w ∈ l /\ x ∈ w.
Proof.
  induction l as [|w l IH]; [by intros ?%not_elem_of_nil|]. cbn [join].
  destruct l as [|w' l].
  - intros Hx. right. exists w. split; [by left|done].
  - intros [Hx|[Hx|Hx]%elem_of_app]%elem_of_app.
    + right. exists w. split; [by left|done].
    + by left.
    + destruct (IH Hx) as [?|(w0 & ? & ?)]; [by left|].
      right. exists w0. split; [by right|done].
Qed.

Lemma unpack_pair_Some {A} (l : list A) a b :
  unpack_pair l = Some (a, b) <-> l = [a; b].
Proof.
  destruct l as [|? [|? [|? ?]]]; simpl; split; intros H; try done;
    by injection H as -> ->.
Qed.

Lemma unpack_pair_None {A} (l : list A) :
  length l <> 2 -> unpack_pair l = None.
Proof. by destruct l as [|? [|? [|? ?]]]. Qed.

Section Reader.

Variable isspace : char -> bool.

Abbreviation strip := (strip isspace).
Abbreviation split_whitespace := (split_whitespace isspace).
Abbreviation read_line := (read_line isspace).
Abbreviation read_alternative := (read_alternative isspace).
Abbreviation __init__ := (__init__ isspace).

Lemma foldl_read_lines acc lines :
  foldl (fun rules rule_str => rules ++ read_line rule_str) acc lines
  = acc ++ concat (map read_line lines).
Proof.
  revert acc. induction lines as [|l lines IH]; intros acc; simpl.
  - by rewrite app_nil_r.
  - by rewrite IH, app_assoc.
Qed.

Lemma rules_init lines : rules (__init__ lines) = concat (map read_line lines).
Proof. unfold __init__. simpl. by rewrite foldl_read_lines. Qed.

Lemma read_line_elem r l :
  r ∈ read_line l ->
  exists h b a,
    split_on arrow l = [h; b] /\ a ∈ split_on bar b /\
    r = read_alternative (strip h) (strip a).
Proof.
  unfold read_line.
  destruct (unpack_pair (split_on arrow l)) as [[h b]|] eqn:Hu;
    [|by intros ?%not_elem_of_nil].
  apply unpack_pair_Some in Hu. cbn zeta.
  intros (alt & -> & (a & -> & Ha)%list_elem_of_fmap)%list_elem_of_fmap.
  by exists h, b, a.
Qed.

Lemma read_line_symbol r l sym :
  r ∈ read_line l -> sym ∈ body r ->
  sym <> [] /\ Forall (fun ch => isspace ch = false) sym /\
  (arrow ∉ sym) /\ (bar ∉ sym) /\ sym ⊆ l.
Proof.
  intros (h & b & a & Hl & Ha & ->)%read_line_elem. unfold read_alternative.
  case_bool_decide; [by intros ?%not_elem_of_nil|]. simpl. intros Hsym.
  pose proof (split_from_words isspace [] (strip a) ltac:(done)) as Hwords.
  rewrite Forall_forall in Hwords. destruct (Hwords sym Hsym) as [Hne Hsp].
  apply split_from_subseteq in Hsym. rewrite app_nil_l in Hsym.
  destruct (split_on_parts bar b a Ha) as [Hbar Hab].
  destruct (split_on_parts arrow l b) as [Harrow Hbl].
  { rewrite Hl. right. by left. }
  assert (sym ⊆ a) as Hsa by (etrans; [done|apply strip_subseteq]).
  split_and!; [done..| | |].
  - intros Hin. apply Harrow. by apply Hab, Hsa.
  - intros Hin. by apply Hbar, Hsa.
  - by do 2 (etrans; [|done]).
Qed.

Lemma read_line_plain r l : r ∈ read_line l -> plain_rule isspace r.
Proof.
  intros Hr. pose proof Hr as (h & b & a & Hl & Ha & Heq)%read_line_elem.
  constructor.
  - subst r. unfold read_alternative. case_bool_decide; simpl; apply strip_idemp.
  - subst r. destruct (split_on_parts arrow l h) as [Harrow _].
    { rewrite Hl. by left. }
    intros Hin. apply Harrow.
    unfold read_alternative in Hin. case_bool_decide; simpl in Hin;
      by apply (strip_subseteq isspace h).
  - apply Forall_forall. intros sym Hsym.
    destruct (read_line_symbol r l sym Hr Hsym) as (Hne & Hsp & Harrow & Hbar & _).
    split; [done|]. apply Forall_forall. intros ch Hch.
    rewrite Forall_forall in Hsp. split_and!; [by apply Hsp|by intros ->..].
  - subst r. unfold read_alternative. case_bool_decide as Heps; simpl; [done|].
    intros Hb%split_whitespace_single. by rewrite strip_idemp in Hb.
Qed.

(** *** Reading a printed rule *)

Lemma strip_app_blank s t :
  Forall (fun ch => isspace ch = true) t -> strip (s ++ t) = strip s.
Proof.
  intros Ht. unfold strip. by rewrite <- !lstrip_rstrip, rstrip_app_blank.
Qed.

Lemma strip_cons_space ch s : isspace ch = true -> strip (ch :: s) = strip s.
Proof. intros Hch. unfold strip. simpl. by rewrite Hch. Qed.

Lemma rstrip_app_nonnil s t :
  rstrip isspace t <> [] -> rstrip isspace (s ++ t) = s ++ rstrip isspace t.
Proof.
  intros Ht. induction s as [|ch s IH]; [done|]. simpl app.
  rewrite rstrip_cons_nonnil; rewrite IH; [done|]. by destruct s.
Qed.

Lemma join_nonnil body :
  Forall (fun w => w <> [] /\ Forall (fun ch => isspace ch = false) w) body ->
  body <> [] -> join [space] body <> [].
Proof.
  destruct 1 as [|w body [Hne _] _]; [done|]. intros _. cbn [join].
  destruct body; [done|]. by destruct w.
Qed.

Lemma strip_join body :
  Forall (fun w => w <> [] /\ Forall (fun ch => isspace ch = false) w) body ->
  strip (join [space] body) = join [space] body.
Proof.
  intros Hbody. unfold strip.
  assert (lstrip isspace (join [space] body) = join [space] body) as ->.
  { destruct Hbody as [|w body [Hne Hw] _]; [done|].
    destruct w as [|ch w]; [done|]. apply Forall_cons in Hw as [Hch _].
    cbn [join]. destruct body; simpl; by rewrite Hch. }
  induction Hbody as [|w body [Hne Hw] Hbody IH]; [done|]. cbn [join].
  destruct body as [|w' body]; [by apply rstrip_spaceless|].
  rewrite rstrip_app_nonnil; cbn [app]; rewrite rstrip_cons_nonnil; rewrite IH;
    try done; by apply join_nonnil.
Qed.

Lemma strip_spaceless s :
  Forall (fun ch => isspace ch = false) s -> strip s = s.
Proof.
  intros Hs. unfold strip.
  assert (lstrip isspace s = s) as ->; [|by apply rstrip_spaceless].
  destruct Hs as [|ch s Hch _]; [done|]. simpl. by rewrite Hch.
Qed.

Lemma read_line_Rule_str r :
  isspace space = true -> isspace 949%N = false ->
  plain_rule isspace r -> read_line (Rule_str r) = [r].
Proof.
  intros Hsp Heps [Hhead Harrow Hbody Hne].
  assert (Forall (fun w => w <> [] /\ Forall (fun ch => isspace ch = false) w)
    (body r)) as Hwords.
  { eapply Forall_impl; [done|]. intros w [? Hw]. split; [done|].
    eapply Forall_impl; [done|]. by intros ch [? _]. }
  set (B := match body r with [] => epsilon | _ :: _ => join [space] (body r) end).
  assert (forall x, x ∈ B -> x <> arrow /\ x <> bar) as HB.
  { intros x. unfold B. destruct (body r) as [|w ws] eqn:Hb.
    - intros ->%list_elem_of_singleton. by split.
    - intros [->%list_elem_of_singleton|(w0 & Hw0 & Hx)]%join_elem_of; [by split|].
      rewrite Forall_forall in Hbody. destruct (Hbody w0 Hw0) as [_ Hall].
      rewrite Forall_forall in Hall. by destruct (Hall x Hx) as (_ & ? & ?). }
  assert (Rule_str r = (head r ++ [space]) ++ arrow :: space :: B) as ->.
  { unfold Rule_str. by rewrite <- app_assoc. }
  unfold read_line. rewrite split_on_app.
  2:{ intros [?|Hin]%elem_of_app; [done|].
      rewrite list_elem_of_singleton in Hin. discriminate. }
  rewrite split_on_none.
  2:{ intros [[=]|Hin]%elem_of_cons. by destruct (HB _ Hin). }
  cbn [unpack_pair]. cbn zeta.
  rewrite split_on_none.
  2:{ intros [[=]|Hin]%elem_of_cons. by destruct (HB _ Hin). }
  rewrite strip_app_blank by (by repeat constructor).
  rewrite Hhead. cbn [fmap list_fmap]. rewrite strip_cons_space by done.
  unfold B. destruct r as [h b]. simpl in *. destruct b as [|w ws].
  - rewrite strip_spaceless by (by repeat constructor).
    unfold read_alternative. by rewrite bool_decide_eq_true_2.
  - rewrite strip_join by done. unfold read_alternative.
    rewrite split_join by done.
    rewrite bool_decide_eq_false_2; [done|]. intros Heq.
    apply Hne. rewrite <- (split_join isspace (w :: ws)) by done. rewrite Heq.
    rewrite <- (app_nil_r epsilon). unfold split_whitespace.
    apply split_from_word; by repeat constructor.
Qed.

(** *** Whitespace around a line *)

Lemma read_line_blank l : isspace arrow = false -> strip l = [] -> read_line l = [].
Proof.
  intros Harrow Hl%strip_nil_blank. unfold read_line.
  rewrite split_on_none; [done|]. intros Hin. rewrite Forall_forall in Hl.
  specialize (Hl _ Hin). congruence.
Qed.

Lemma fmap_strip_rstrip sep b :
  isspace sep = false ->
  strip <$> split_on sep (rstrip isspace b) = strip <$> split_on sep b.
Proof.
  intros Hsep. destruct (split_on_rstrip isspace sep b Hsep) as (ps & p & -> & ->).
  by rewrite !fmap_app, !list_fmap_singleton, strip_rstrip.
Qed.

Lemma read_line_strip l :
  isspace arrow = false -> isspace bar = false ->
  read_line (strip l) = read_line l.
Proof.
  intros Harrow Hbar. unfold read_line.
  destruct (split_on_lstrip isspace arrow l Harrow) as (p & ps & Hl & Hl').
  destruct (split_on_rstrip isspace arrow (lstrip isspace l) Harrow)
    as (qs & q & Hq & Hq').
  unfold strip at 1. rewrite Hq', Hl. rewrite Hl' in Hq.
  assert (length qs = length ps) as Hlen.
  { apply (f_equal length) in Hq. rewrite length_app in Hq. simpl in Hq. lia. }
  destruct ps as [|b [|b' ps']]; destruct qs as [|q0 [|q1 qs']];
    simpl in Hlen; try lia.
  - done.
  - simpl in Hq. injection Hq as <- <-. simpl.
    by rewrite strip_lstrip, fmap_strip_rstrip.
  - by destruct qs'.
Qed.

End Reader.

Lemma elem_of_concat {A} (x : A) (ls : list (list A)) :
  x ∈ concat ls -> exists l, l ∈ ls /\ x ∈ l.
Proof.
  induction ls as [|l ls IH]; simpl; [by intros ?%not_elem_of_nil|].
  intros [Hx|(l' & ? & ?)%IH]%elem_of_app.
  - exists l. split; [by left|done].
  - exists l'. split; [by right|done].
Qed.

Lemma tokenize_split isspace sentence :
  tokenize isspace sentence = split_whitespace isspace sentence.
Proof.
  unfold tokenize. destruct (strip isspace sentence) eqn:Hs; [|done].
  apply strip_nil_blank in Hs. unfold split_whitespace.
  by rewrite split_from_blank.
Qed.

Lemma init_gamma_free isspace lines :
  (forall l, l ∈ lines -> 947%N ∉ l) ->
  gamma_free (rules (__init__ isspace lines)).
Proof.
  intros Hlines r. rewrite rules_init.
  intros (rs & (l & -> & Hl)%list_elem_of_fmap & Hr)%elem_of_concat Hg.
  destruct (read_line_symbol isspace r l gamma Hr Hg) as (_ & _ & _ & _ & Hsub).
  apply (Hlines l Hl). apply Hsub. by left.
Qed.

Lemma init_Rule_str isspace rs :
  isspace space = true -> isspace 949%N = false ->
  Forall (plain_rule isspace) rs ->
  rules (__init__ isspace (Rule_str <$> rs)) = rs.
Proof.
  intros Hsp Heps Hrs. rewrite rules_init.
  induction Hrs as [|r rs Hr _ IH]; [done|]. rewrite fmap_cons. cbn [map concat].
  by rewrite read_line_Rule_str, IH.
Qed.

Lemma init_plain isspace lines :
  Forall (plain_rule isspace) (rules (__init__ isspace lines)).
Proof.
  apply Forall_forall. intros r. rewrite rules_init.
  intros (rs & (l & -> & Hl)%list_elem_of_fmap & Hr)%elem_of_concat.
  by eapply read_line_plain.
Qed.

Lemma epsilon_text_init : __init__ ascii_isspace epsilon_text = epsilon_parser.
Proof. vm_compute. reflexivity. Defined.

(** X11: the guard of the tokenizer is redundant.  [parse] computes its
    tokens as [sentence.split() if sentence.strip() else []]; for every
    sentence this is [sentence.split()]. *)
Theorem tokenize_is_split isspace sentence :
  tokenize isspace sentence = split_whitespace isspace sentence.
Proof. apply tokenize_split. Qed.

(** X12: the rules [__init__] reads are well formed, whatever the text.
    The head of every rule has no whitespace at its ends and no '→'; every
    body symbol is not empty and holds no whitespace, no '→' and no '|';
    and no body is the single symbol 'ε'.  In particular [symbol[0]] in
    [_build_tree] is defined for every body symbol. *)
Theorem init_rules_are_plain isspace lines r :
  r ∈ rules (__init__ isspace lines) -> plain_rule isspace r.
Proof.
  intros Hr. pose proof (init_plain isspace lines) as Hall.
  rewrite Forall_forall in Hall. by apply Hall.
Qed.

Lemma init_rules_are_plain_witness :
  S_rule ∈ rules (__init__ ascii_isspace epsilon_text) /\
  plain_rule ascii_isspace S_rule.
Proof.
  assert (S_rule ∈ rules (__init__ ascii_isspace epsilon_text)) as Hin.
  { rewrite epsilon_text_init. by left. }
  split; [exact Hin|].
  exact (init_rules_are_plain ascii_isspace epsilon_text S_rule Hin).
Defined.

(** X13: reading back what [Rule.__str__] prints.  When the space counts as
    whitespace and 'ε' does not, [__init__] applied to the printed forms of
    well-formed rules gives exactly these rules, in order. *)
Theorem init_reads_printed_rules isspace rs :
  isspace space = true -> isspace 949%N = false ->
  Forall (plain_rule isspace) rs ->
  rules (__init__ isspace (Rule_str <$> rs)) = rs.
Proof. apply init_Rule_str. Qed.

Lemma init_reads_printed_rules_witness :
  ascii_isspace space = true /\ ascii_isspace 949%N = false /\
  Forall (plain_rule ascii_isspace) (rules (__init__ ascii_isspace epsilon_text)) /\
  rules (__init__ ascii_isspace
           (Rule_str <$> rules (__init__ ascii_isspace epsilon_text)))
  = rules (__init__ ascii_isspace epsilon_text).
Proof.
  split; [reflexivity|]. split; [reflexivity|].
  split; [exact (init_plain ascii_isspace epsilon_text)|].
  exact (init_reads_printed_rules ascii_isspace _ eq_refl eq_refl
    (init_plain ascii_isspace epsilon_text)).
Defined.

(** X14: printing the rules of a parser and reading them again changes
    nothing.  For every grammar text, [__init__] applied to the
    [Rule.__str__] forms of the rules that [__init__] read from the text
    gives the same list of rules. *)
Theorem init_print_read_fixpoint isspace lines :
  isspace space = true -> isspace 949%N = false ->
  rules (__init__ isspace (Rule_str <$> rules (__init__ isspace lines)))
  = rules (__init__ isspace lines).
Proof. intros Hsp Heps. apply init_Rule_str; [done..|apply init_plain]. Qed.

Lemma init_print_read_fixpoint_witness :
  ascii_isspace space = true /\ ascii_isspace 949%N = false /\
  rules (__init__ ascii_isspace
           (Rule_str <$> rules (__init__ ascii_isspace [comment_line])))
  = rules (__init__ ascii_isspace [comment_line]).
Proof.
  split; [reflexivity|]. split; [reflexivity|].
  exact (init_print_read_fixpoint ascii_isspace [comment_line] eq_refl eq_refl).
Defined.

(** X15: a line that does not hold exactly one '→' is skipped and changes
    nothing else: the rules read from a text with such a line are the rules
    read from the text without it. *)
Theorem init_skips_malformed_line isspace before line after :
  length (filter (fun ch => ch = arrow) line) <> 1 ->
  rules (__init__ isspace (before ++ line :: after))
  = rules (__init__ isspace (before ++ after)).
Proof.
  intros Hcount. rewrite !rules_init, !map_app, !concat_app. simpl.
  unfold read_line at 2. rewrite unpack_pair_None; [done|].
  rewrite split_on_length. lia.
Qed.

Lemma init_skips_malformed_line_witness :
  length (filter (fun ch => ch = arrow) comment_line) <> 1 /\
  rules (__init__ ascii_isspace ([] ++ comment_line :: epsilon_text))
  = rules (__init__ ascii_isspace ([] ++ epsilon_text)).
Proof.
  assert (length (filter (fun ch => ch = arrow) comment_line) <> 1) as Hc
    by (vm_compute; lia).
  split; [exact Hc|].
  exact (init_skips_malformed_line ascii_isspace [] comment_line epsilon_text Hc).
Defined.

(** X16: a line [h → b] with no other '→' adds one rule per alternative:
    one more than there are '|' in [b], each with the stripped [h] as its
    head. *)
Theorem line_adds_alternatives isspace h b :
  arrow ∉ h -> arrow ∉ b ->
  length (read_line isspace (h ++ arrow :: b))
    = S (length (filter (fun ch => ch = bar) b)) /\
  Forall (fun r => head r = strip isspace h) (read_line isspace (h ++ arrow :: b)).
Proof.
  intros Hh Hb. unfold read_line.
  rewrite split_on_app, split_on_none by done. cbn [unpack_pair]. cbn zeta.
  split.
  - by rewrite !length_fmap, split_on_length.
  - apply Forall_fmap, Forall_fmap, Forall_forall. intros a _. simpl.
    unfold read_alternative. by case_bool_decide.
Qed.

Lemma line_adds_alternatives_witness :
  (arrow ∉ [83; 32]%N) /\ (arrow ∉ [32; 65; 32; 120]%N) /\
  length (read_line ascii_isspace ([83; 32]%N ++ arrow :: [32; 65; 32; 120]%N))
    = S (length (filter (fun ch => ch = bar) [32; 65; 32; 120]%N)).
Proof.
  assert (arrow ∉ [83; 32]%N) as Hh.
  { intros Hin. repeat (apply elem_of_cons in Hin as [Hin|Hin]; [done|]).
    by apply not_elem_of_nil in Hin. }
  assert (arrow ∉ [32; 65; 32; 120]%N) as Hb.
  { intros Hin. repeat (apply elem_of_cons in Hin as [Hin|Hin]; [done|]).
    by apply not_elem_of_nil in Hin. }
  split; [exact Hh|]. split; [exact Hb|].
  exact (proj1 (line_adds_alternatives ascii_isspace _ _ Hh Hb)).
Defined.

(** X17: [from_file] and [__init__] read the same grammar.  When '→' and
    '|' do not count as whitespace, stripping the lines of the file and
    dropping the blank ones, as [from_file] does before it calls
    [__init__], changes nothing: the parser is the one [__init__] builds
    from the unstripped lines. *)
Theorem from_file_is_init isspace lines :
  isspace arrow = false -> isspace bar = false ->
  from_file isspace (Lines lines) = Some (__init__ isspace lines).
Proof.
  intros Harrow Hbar. unfold from_file. f_equal. unfold __init__. f_equal.
  rewrite !foldl_read_lines. f_equal.
  induction lines as [|l lines IH]; [done|]. rewrite filter_cons.
  destruct (decide (strip isspace l <> [])) as [Hl|Hl].
  - rewrite fmap_cons. cbn [map concat]. by rewrite IH, read_line_strip.
  - cbn [map concat]. rewrite IH, (read_line_blank isspace l); [done..|].
    destruct (strip isspace l); [done|]. by destruct Hl.
Qed.

Lemma from_file_is_init_witness :
  ascii_isspace arrow = false /\ ascii_isspace bar = false /\
  from_file ascii_isspace (Lines epsilon_text)
  = Some (__init__ ascii_isspace epsilon_text).
Proof.
  split; [reflexivity|]. split; [reflexivity|].
  exact (from_file_is_init ascii_isspace epsilon_text eq_refl eq_refl).
Defined.

(** X18: reading a grammar text and parsing with it.  For every grammar
    text without the character 'γ' and every sentence, [parse] on the
    parser that [__init__] builds returns; if it accepts, S derives the
    tokens of the sentence by the rules read; and a returned tree is a
    derivation tree of these rules with root S whose leaves are the
    tokens. *)
Theorem read_then_parse isupper isspace lines sentence :
  (forall l, l ∈ lines -> 947%N ∉ l) ->
  exists c accepted tree,
    parse isupper (tokenize isspace) (__init__ isspace lines) sentence
      = Ok (mkEarleyParser (rules (__init__ isspace lines)) c, (accepted, tree)) /\
    (accepted = true ->
     derives isupper (rules (__init__ isspace lines)) S_symbol
       (split_whitespace isspace sentence)) /\
    (forall t, tree = Some t ->
       accepted = true /\ label t = S_symbol /\
       derivation_tree isupper (rules (__init__ isspace lines)) t /\
       leaves isupper t = split_whitespace isspace sentence).
Proof.
  intros Hfree%(init_gamma_free isspace). rewrite <- tokenize_split.
  destruct (build_chart_derived isupper (rules (__init__ isspace lines))
    (tokenize isspace sentence) Hfree) as (c & Hc & Hwf & Hder).
  destruct (check_accepted_spec isupper _ _ c Hwf Hder)
    as (last & accepted & tree & Hlast & Hcheck & Hiff & Hacc & Hrej).
  exists c, accepted, tree. split_and!.
  - unfold parse. rewrite Hc. cbn [bind]. by rewrite Hcheck.
  - intros ->. by eapply check_accepted_sound.
  - intros t ->. destruct accepted; [|by specialize (Hrej eq_refl)].
    destruct (Hacc eq_refl)
      as [(s & t' & (m & Hm & (Hcomp & Hhead & _) & _) & Ht & [= <-] & Hleaves)
         |[_ [=]]].
    destruct (build_tree_conforms isupper _ _ Hfree c Hwf Hder _ _ _ _ _ _ _
      Hlast Hm Hcomp ltac:(by rewrite Hhead) Ht) as [Hdt Hlab].
    split_and!; [done|by rewrite Hlab|done..].
Qed.

Lemma read_then_parse_witness :
  (forall l, l ∈ epsilon_text -> 947%N ∉ l) /\
  exists c accepted tree,
    parse ascii_isupper (tokenize ascii_isspace)
      (__init__ ascii_isspace epsilon_text) x_symbol
      = Ok (mkEarleyParser (rules (__init__ ascii_isspace epsilon_text)) c,
            (accepted, tree)) /\
    (accepted = true ->
     derives ascii_isupper (rules (__init__ ascii_isspace epsilon_text)) S_symbol
       (split_whitespace ascii_isspace x_symbol)) /\
    (forall t, tree = Some t ->
       accepted = true /\ label t = S_symbol /\
       derivation_tree ascii_isupper
         (rules (__init__ ascii_isspace epsilon_text)) t /\
       leaves ascii_isupper t = split_whitespace ascii_isspace x_symbol).
Proof.
  assert (forall l, l ∈ epsilon_text -> 947%N ∉ l) as Hfree.
  { intros l Hl. unfold epsilon_text in Hl.
    repeat (apply elem_of_cons in Hl as [->|Hl]); [| |by apply not_elem_of_nil in Hl];
      intros Hg; repeat (apply elem_of_cons in Hg as [Hg|Hg]; [done|]);
      by apply not_elem_of_nil in Hg. }
  split; [exact Hfree|].
  exact (read_then_parse ascii_isupper ascii_isspace epsilon_text x_symbol Hfree).
Defined.

(** ** Printing *)

Lemma to_string_visual_levels t d prefix is_tail :
  exists indents,
    Forall2 (fun ind ds =>
      length ind + 4 * d = length prefix + 4 * S ds.1 /\ prefix `prefix_of` ind)
      indents (levels d t) /\
    _to_string_visual t prefix is_tail
    = concat (zip_with (fun ind ds => ind ++ ds.2 ++ [newline]) indents (levels d t)).
Proof.
  revert t d prefix is_tail. fix IH 1. intros [s cs] d prefix is_tail.
  cbn [_to_string_visual levels].
  set (branch := if is_tail then BRANCH_TAIL else BRANCH_MID).
  set (indent := if is_tail then INDENT_TAIL else INDENT_MID).
  assert (length branch = 4) as Hbranch by (by destruct is_tail).
  assert (length indent = 4) as Hindent by (by destruct is_tail).
  generalize (Z.of_nat (length cs) - 1)%Z as z. intros z.
  assert (forall i, exists indents,
    Forall2 (fun ind ds =>
      length ind + 4 * d = length prefix + 4 * S ds.1 /\ prefix `prefix_of` ind)
      indents (concat (map (levels (S d)) cs)) /\
    (fix loop (i : nat) (cs0 : list ParseTree) {struct cs0} : str :=
       match cs0 with
       | [] => []
       | child :: cs' =>
         _to_string_visual child (prefix ++ indent) (bool_decide (Z.of_nat i = z))
           ++ loop (S i) cs'
       end) i cs
    = concat (zip_with (fun ind ds => ind ++ ds.2 ++ [newline]) indents
        (concat (map (levels (S d)) cs)))) as Hloop.
  { induction cs as [|child cs IHcs]; intros i.
    - exists []. by split.
    - destruct (IH child (S d) (prefix ++ indent) (bool_decide (Z.of_nat i = z)))
        as (ind1 & Hall1 & ->).
      destruct (IHcs (S i)) as (ind2 & Hall2 & ->).
      exists (ind1 ++ ind2). cbn [map concat]. split.
      + apply Forall2_app; [|done]. eapply Forall2_impl; [done|].
        intros ind ds [Hlen Hpre]. rewrite length_app in Hlen. split; [lia|].
        etrans; [|done]. by apply prefix_app_r.
      + rewrite zip_with_app by (by eapply Forall2_length). by rewrite concat_app. }
  destruct (Hloop 0) as (indents & Hall & ->).
  exists ((prefix ++ branch) :: indents). split.
  - constructor; [|done]. simpl. rewrite length_app. split; [lia|].
    by apply prefix_app_r.
  - cbn [zip_with concat]. simpl. by rewrite <- !app_assoc.
Qed.

(** X19: what [_to_string_visual] prints.  The output is one line per node
    of the tree, in preorder; the line of a node at depth [k] is the node's
    symbol behind an indentation that starts with the given prefix and is
    [4 * (k + 1)] characters longer than it, and ends with a line feed. *)
Theorem tree_print_lines t prefix is_tail :
  exists indents,
    Forall2 (fun ind ds =>
      length ind = length prefix + 4 * S ds.1 /\ prefix `prefix_of` ind)
      indents (levels 0 t) /\
    _to_string_visual t prefix is_tail
    = concat (zip_with (fun ind ds => ind ++ ds.2 ++ [newline]) indents (levels 0 t)).
Proof.
  destruct (to_string_visual_levels t 0 prefix is_tail) as (indents & Hall & Heq).
  exists indents. split; [|done]. eapply Forall2_impl; [done|].
  intros ind ds [Hlen Hpre]. split; [lia|done].
Qed.

(** ** Completeness without empty rules

    A chart property that every insertion at an allowed position keeps is
    kept by the methods called at allowed positions. *)

Section PreservedAt.

Variable P : Chart -> Prop.
Variable Q : Z -> Prop.
Hypothesis P_add : forall st pos (c c' : Chart),
  Q pos -> P c -> _add_to_chart st pos c = Ok c' -> P c'.

Lemma complete_step_preserved_at state pos s (c c' : Chart) :
  Q pos -> P c -> complete_step state pos s c = Ok c' -> P c'.
Proof.
  intros HQ HP. unfold complete_step.
  destruct (negb (is_complete s)); [|by intros [= <-]].
  intros Hb. inv_bind Hb. case_bool_decide; [|by injection Hb as <-].
  exact (P_add _ _ _ _ HQ HP Hb).
Qed.

Lemma complete_loop_preserved_at fuel state pos cs k (c c' : Chart) :
  Q pos -> P c -> complete_loop fuel state pos cs k c = Ok c' -> P c'.
Proof.
  intros HQ. revert k c. induction fuel as [|fuel IH]; intros k c HP; simpl; [done|].
  intros Hb. inv_bind Hb. destruct (a !! k) as [s|]; [|by injection Hb as <-].
  inv_bind Hb. eapply IH; [|done].
  exact (complete_step_preserved_at _ _ _ _ _ HQ HP Ha0).
Qed.

Lemma complete_preserved_at state pos (c c' : Chart) :
  Q pos -> P c -> complete state pos c = Ok c' -> P c'.
Proof.
  intros HQ HP. unfold complete.
  destruct (negb (is_complete state)); [by intros [= <-]|].
  intros Hb. inv_bind Hb.
  exact (complete_loop_preserved_at _ _ _ _ _ _ _ HQ HP Hb).
Qed.

Lemma predict_loop_preserved_at l next pos (c c' : Chart) :
  Q pos -> P c -> predict_loop l next pos c = Ok c' -> P c'.
Proof.
  intros HQ. revert c. induction l as [|r l IH]; intros c HP; simpl;
    [by intros [= <-]|].
  case_bool_decide; [|by apply IH].
  intros Hb. inv_bind Hb. eapply IH; [|done].
  apply (P_add _ _ _ _ HQ HP) in Ha.
  destruct (body r); [|by injection Ha0 as <-].
  exact (complete_preserved_at _ _ _ _ HQ Ha Ha0).
Qed.

Lemma process_preserved_at isupper rs state i words (c c' : Chart) :
  Q (Z.of_nat i) -> Q (Z.of_nat i + 1)%Z -> P c ->
  process isupper rs state i words c = Ok c' -> P c'.
Proof.
  intros HQ HQ' HP. unfold process.
  destruct (negb (is_complete state));
    [|intros Hb; exact (complete_preserved_at _ _ _ _ HQ HP Hb)].
  intros Hb. inv_bind Hb.
  destruct (is_nonterminal isupper a).
  - unfold predict in Hb. inv_bind Hb.
    destruct (is_nonterminal isupper a0); [|by injection Hb as <-].
    destruct a0; [|by injection Hb as <-].
    exact (predict_loop_preserved_at _ _ _ _ _ HQ HP Hb).
  - unfold scan in Hb. revert Hb. case_match; [|by intros [= <-]].
    intros Hb. inv_bind Hb. destruct (truthy a0); [|by injection Hb as <-].
    inv_bind Hb. case_bool_decide; [|by injection Hb as <-].
    exact (P_add _ _ _ _ HQ' HP Hb).
Qed.

Lemma while_loop_preserved_at isupper rs fuel i j words (c c' : Chart) :
  Q (Z.of_nat i) -> Q (Z.of_nat i + 1)%Z -> P c ->
  while_loop isupper rs fuel i j words c = Ok c' -> P c'.
Proof.
  intros HQ HQ'. revert j c. induction fuel as [|fuel IH]; intros j c HP; simpl;
    [done|].
  intros Hb. inv_bind Hb. case_match; [|by injection Hb as <-].
  inv_bind Hb. eapply IH; [|done].
  exact (process_preserved_at _ _ _ _ _ _ _ HQ HQ' HP Ha1).
Qed.

Lemma for_loop_preserved_at isupper rs fuel range words (c c' : Chart) :
  Forall (fun i => Q (Z.of_nat i) /\ Q (Z.of_nat i + 1)%Z) range -> P c ->
  for_loop isupper rs fuel range words c = Ok c' -> P c'.
Proof.
  intros HQ. revert c. induction HQ as [|i range [HQ HQ'] _ IH]; intros c HP; simpl;
    [by intros [= <-]|].
  intros Hb. inv_bind Hb. eapply IH; [|done].
  exact (while_loop_preserved_at _ _ _ _ _ _ _ _ HQ HQ' HP Ha).
Qed.

End PreservedAt.

(** Insertions at or after position [i] leave the columns before [i]
    alone. *)
Lemma add_to_chart_below i (c0 : Chart) st pos (c c' : Chart) :
  (Z.of_nat i <= pos)%Z ->
  (forall a, a < i -> c !! a = c0 !! a) ->
  _add_to_chart st pos c = Ok c' ->
  forall a, a < i -> c' !! a = c0 !! a.
Proof.
  intros Hpos Hc [->|(k & col & Hk & _ & _ & ->)]%add_to_chart_Ok a Ha; [by apply Hc|].
  apply py_index_Ok in Hk as [_ [[_ ->]|[? _]]]; [|lia].
  rewrite list_lookup_insert_ne by lia. by apply Hc.
Qed.

Section Closure.

Variable isupper : char -> bool.
Variable rs : list Rule.
Variable words : list str.

(** Every state of column [i] of the final chart went through the work
    list: [process] was called on it, on a chart whose columns before [i]
    were final already, and what the call returned is part of the final
    chart. *)
Lemma while_loop_processed fuel i j (c c' : Chart) col' n s :
  while_loop isupper rs fuel i j words c = Ok c' ->
  c' !! i = Some col' -> col' !! n = Some s -> j <= n ->
  exists c1 c2,
    process isupper rs s i words c1 = Ok c2 /\ extends c2 c' /\
    (forall a, a < i -> c1 !! a = c' !! a).
Proof.
  assert (forall (c0 : Chart) st p (c1 c2 : Chart),
    extends c0 c1 -> _add_to_chart st p c1 = Ok c2 -> extends c0 c2) as Hadd.
  { intros *. apply add_to_chart_extends. }
  revert j c. induction fuel as [|fuel IH]; intros j c; simpl; [done|].
  intros Hb Hcol' Hn Hj. apply bind_Ok in Hb as (col & Hcol%of_option_Ok & Hb).
  destruct (Nat.ltb_spec j (length col)) as [Hlt|Hge].
  2:{ injection Hb as <-. assert (col' = col) as -> by congruence.
      apply lookup_lt_Some in Hn. lia. }
  apply bind_Ok in Hb as (state & Hstate%of_option_Ok & Hb).
  apply bind_Ok in Hb as (c1 & Hc1 & Hb).
  destruct (decide (n = j)) as [->|Hne]; [|eapply (IH (S j) c1); [done..|lia]].
  assert (extends c c1) as H01.
  { by eapply (process_preserved (extends c) (Hadd c)); [apply extends_refl|]. }
  assert (extends c1 c') as H1.
  { by eapply (while_loop_preserved (extends c1) (Hadd c1)); [apply extends_refl|]. }
  assert (state = s) as ->.
  { destruct (extends_lookup _ _ _ _ _ _ (extends_trans _ _ _ H01 H1) Hcol Hstate)
      as (col2 & ? & ?). congruence. }
  exists c, c1. split_and!; [done..|].
  pose (P := fun c2 : Chart => forall a, a < i -> c2 !! a = c !! a).
  assert (forall st pos (c2 c3 : Chart),
    (Z.of_nat i <= pos)%Z -> P c2 -> _add_to_chart st pos c2 = Ok c3 -> P c3)
    as Hbelow.
  { intros st pos c2 c3 Hpos HP2 Hadd2. unfold P in *.
    by eapply add_to_chart_below. }
  assert (P c1) as HP1.
  { apply (process_preserved_at P _ Hbelow isupper rs s i words c c1);
      [lia|lia|done|done]. }
  intros a Ha. symmetry.
  by apply (while_loop_preserved_at P _ Hbelow isupper rs fuel i (S j) words c1 c');
    [lia|lia|done|done|].
Qed.

Lemma for_loop_processed fuel len i0 (c F : Chart) i col n s :
  for_loop isupper rs fuel (seq i0 len) words c = Ok F ->
  i0 <= i < i0 + len ->
  F !! i = Some col -> col !! n = Some s ->
  exists c1 c2,
    process isupper rs s i words c1 = Ok c2 /\ extends c2 F /\
    (forall a, a < i -> c1 !! a = F !! a).
Proof.
  assert (forall (c0 : Chart) st p (c1 c2 : Chart),
    extends c0 c1 -> _add_to_chart st p c1 = Ok c2 -> extends c0 c2) as Hadd.
  { intros *. apply add_to_chart_extends. }
  revert i0 c. induction len as [|len IH]; intros i0 c; [lia|]. simpl.
  intros Hb Hi Hcol Hn. apply bind_Ok in Hb as (c' & Hc' & Hb).
  destruct (decide (i = i0)) as [->|Hne]; [|eapply (IH (S i0) c'); [done|lia|done..]].
  assert (forall a, a < S i0 -> F !! a = c' !! a) as Hfrozen.
  { pose (P := fun c2 : Chart => forall a, a < S i0 -> c2 !! a = c' !! a).
    assert (forall st pos (c2 c3 : Chart),
      (Z.of_nat (S i0) <= pos)%Z -> P c2 -> _add_to_chart st pos c2 = Ok c3 -> P c3)
      as Hbelow.
    { intros st pos c2 c3 Hpos HP2 Hadd2. unfold P in *.
      by eapply add_to_chart_below. }
    apply (for_loop_preserved_at P _ Hbelow isupper rs fuel (seq (S i0) len) words
      c' F); [|done|done].
    apply Forall_forall. intros x Hx%elem_of_seq. lia. }
  assert (extends c' F) as Hext.
  { by eapply (for_loop_preserved (extends c') (Hadd c')); [apply extends_refl|]. }
  rewrite Hfrozen in Hcol by lia.
  destruct (while_loop_processed _ _ _ _ _ _ _ _ Hc' Hcol Hn ltac:(lia))
    as (c1 & c2 & Hproc & Hext2 & Hbelow).
  exists c1, c2. split_and!; [done|by eapply extends_trans|].
  intros a Ha. rewrite Hbelow by done. symmetry. apply Hfrozen. lia.
Qed.

End Closure.

(** Induction over derivations, with the induction hypothesis for every
    body symbol of the rule applied. *)
Lemma derives_induction isupper rs (P : str -> list str -> Prop) :
  (forall w, is_nonterminal isupper (Some w) = false -> w <> [] -> P w [w]) ->
  (forall r parts, r ∈ rs -> is_nonterminal isupper (Some (head r)) = true ->
     Forall2 (fun sym part => derives isupper rs sym part /\ P sym part)
       (body r) parts ->
     P (head r) (concat parts)) ->
  forall sym ws, derives isupper rs sym ws -> P sym ws.
Proof.
  intros Hterminal Hrule. fix IH 3.
  intros sym ws [w Hnt Hne|r parts Hr Hnt Hparts]; [by apply Hterminal|].
  apply Hrule; [done..|].
  induction Hparts as [|sym' part syms parts Hd Hparts IHparts]; constructor;
    [|done].
  split; [done|]. by apply IH.
Qed.

Lemma derives_nonempty isupper rs sym ws :
  (forall r, r ∈ rs -> body r <> []) ->
  derives isupper rs sym ws -> ws <> [].
Proof.
  intros Hfree Hd.
  induction Hd as [w _ _|r parts Hr _ Hparts] using derives_induction;
    [by intros [=]|].
  apply Hfree in Hr. destruct (body r) as [|sym' syms]; [done|].
  inversion Hparts as [|? part ? parts' [_ Hpart] _]; subst.
  simpl. by destruct part.
Qed.

Lemma tokens_app {A} (p q : list A) e l :
  take (length (p ++ q)) (drop e l) = p ++ q ->
  take (length p) (drop e l) = p /\
  take (length q) (drop (e + length p) l) = q.
Proof.
  rewrite length_app, <- take_take_drop, drop_drop. intros H.
  apply app_inj_1 in H; [done|].
  apply (f_equal length) in H. rewrite !length_app, !length_take in H.
  rewrite length_take. lia.
Qed.

Section Complete.

Variable isupper : char -> bool.
Variable rs : list Rule.
Variable words : list str.
Hypothesis rs_no_empty_rule : forall r, r ∈ rs -> body r <> [].

Variable F : Chart.
Hypothesis F_wf : wf_chart rs words F.
Hypothesis F_processed : forall i col n s,
  F !! i = Some col -> col !! n = Some s ->
  exists c1 c2,
    process isupper rs s i words c1 = Ok c2 /\ extends c2 F /\
    (forall a, a < i -> c1 !! a = F !! a).

Abbreviation stored i s := (exists col, F !! i = Some col /\ s ∈ col).

Lemma processed_length (c1 c2 : Chart) s i :
  process isupper rs s i words c1 = Ok c2 -> extends c2 F ->
  length c1 = S (length words).
Proof.
  intros Hproc [Hlen _].
  assert (extends c1 c2) as [Hlen' _].
  { eapply (process_preserved (extends c1)); [|apply extends_refl|done].
    intros *. apply add_to_chart_extends. }
  destruct F_wf as [HF _]. lia.
Qed.

Lemma closed_predict i s sym r :
  stored i s -> waits_for s sym ->
  is_nonterminal isupper (Some sym) = true -> r ∈ rs -> head r = sym ->
  stored i (mkState r 0 (Z.of_nat i) []).
Proof.
  intros (col & Hcol & [n Hn]%list_elem_of_lookup) [Hinc Hnext] Hnt Hr Hhead.
  destruct (F_processed _ _ _ _ Hcol Hn) as (c1 & c2 & Hproc & Hext & _).
  pose proof (processed_length _ _ _ _ Hproc Hext) as Hlen.
  unfold process in Hproc. rewrite Hinc, Hnext in Hproc. cbn [negb bind] in Hproc.
  rewrite Hnt in Hproc. unfold predict in Hproc. rewrite Hnext in Hproc.
  cbn [bind] in Hproc. rewrite Hnt in Hproc.
  destruct (predict_loop_adds rs sym i c1 c2) with (r := r)
    as (col2 & Hcol2 & Hin2); [|done..|].
  { apply lookup_lt_Some in Hcol. destruct F_wf. lia. }
  by eapply extends_elem_of.
Qed.

Lemma closed_scan i s w :
  stored i s -> waits_for s w ->
  is_nonterminal isupper (Some w) = false -> w <> [] -> words !! i = Some w ->
  stored (S i) (advance s (Z.of_nat i, Z.of_nat i + 1)%Z).
Proof.
  intros (col & Hcol & [n Hn]%list_elem_of_lookup) [Hinc Hnext] Hnt Hne Hw.
  destruct (F_processed _ _ _ _ Hcol Hn) as (c1 & c2 & Hproc & Hext & _).
  pose proof (processed_length _ _ _ _ Hproc Hext) as Hlen.
  pose proof (lookup_lt_Some _ _ _ Hw) as Hi.
  unfold process in Hproc. rewrite Hinc, Hnext in Hproc. cbn [negb bind] in Hproc.
  rewrite Hnt in Hproc. unfold scan in Hproc.
  destruct (Z.ltb_spec (Z.of_nat i) (Z.of_nat (length words))); [|lia].
  rewrite Hnext in Hproc. cbn [bind] in Hproc.
  assert (truthy (Some w) = true) as Htruthy by (by destruct w).
  rewrite Htruthy, (getitem_nat _ _ _ Hw) in Hproc. cbn [bind] in Hproc.
  rewrite bool_decide_eq_true_2 in Hproc by done.
  destruct (add_to_chart_member _ _ _ _ (S i) Hproc) as (col2 & Hcol2 & Hin2).
  { rewrite py_index_to_nat by lia. f_equal. lia. }
  by eapply extends_elem_of.
Qed.

Lemma closed_complete a e s t :
  a < e -> stored e t -> is_complete t = true -> start t = Z.of_nat a ->
  stored a s -> waits_for s (head (rule t)) ->
  stored e (advance s (Z.of_nat a, Z.of_nat e)).
Proof.
  intros Hae (colE & HcolE & [n Hn]%list_elem_of_lookup) Hcomp Hstart
    (colA & HcolA & [m Hm]%list_elem_of_lookup) Hwait.
  destruct (F_processed _ _ _ _ HcolE Hn) as (c1 & c2 & Hproc & Hext & Hbelow).
  pose proof (processed_length _ _ _ _ Hproc Hext) as Hlen.
  pose proof (lookup_lt_Some _ _ _ HcolE) as He. destruct F_wf as [HF _].
  unfold process in Hproc. rewrite Hcomp in Hproc. cbn [negb] in Hproc.
  unfold complete in Hproc. rewrite Hcomp in Hproc. cbn [negb] in Hproc.
  rewrite Hstart, py_index_nat in Hproc by lia. cbn [bind] in Hproc.
  rewrite Hbelow, HcolA in Hproc by done. cbn [of_option bind] in Hproc.
  destruct (complete_loop_reaches _ _ _ _ e _ _ _ colA m s Hproc)
    as (col2 & Hcol2 & Hin2); [by rewrite py_index_nat by lia| |done|lia|done|].
  { by rewrite Hbelow. }
  rewrite Hstart in Hin2. by eapply extends_elem_of.
Qed.

(** A state that waits for a symbol is advanced over every token sequence
    the symbol derives. *)
Lemma derives_advances sym ws :
  derives isupper rs sym ws ->
  forall i s, stored i s -> waits_for s sym ->
    take (length ws) (drop i words) = ws ->
    stored (i + length ws)
      (advance s (Z.of_nat i, Z.of_nat (i + length ws))).
Proof.
  intros Hd.
  induction Hd as [w Hnt Hne|r parts Hr Hnt Hparts] using derives_induction;
    intros i s Hs Hwait Htok.
  - assert (words !! i = Some w) as Hw.
    { rewrite <- (Nat.add_0_r i), <- lookup_drop.
      destruct (drop i words); simpl in Htok; [done|]. by injection Htok as ->. }
    simpl. rewrite Nat.add_1_r, Nat2Z.inj_succ, <- Z.add_1_r.
    by apply (closed_scan i s w).
  - assert (concat parts <> []) as Hnonempty.
    { apply (derives_nonempty isupper rs (head r)); [done|].
      apply derives_rule; [done..|]. eapply Forall2_impl; [done|]. by intros ? ? [? _]. }
    remember (body r) as syms eqn:Hsyms.
    assert (forall pre st e,
      body r = pre ++ syms -> stored e st -> rule st = r ->
      start st = Z.of_nat i -> dot st = Z.of_nat (length pre) ->
      take (length (concat parts)) (drop e words) = concat parts ->
      exists t, stored (e + length (concat parts)) t /\ rule t = r /\
        start t = Z.of_nat i /\ is_complete t = true) as Hbody.
    { clear Hsyms Hnonempty Htok.
      induction Hparts as [|sym part syms parts [Hd IHd] Hparts IHparts];
        intros pre st e Hpre Hst Hrule Hstart Hdot Htok.
      - exists st. simpl. rewrite Nat.add_0_r. split_and!; [done..|].
        apply is_complete_true. rewrite Hrule, Hpre, app_nil_r. lia.
      - simpl concat in *. apply tokens_app in Htok as [Htok1 Htok2].
        assert (waits_for st sym) as Hwaits.
        { assert (is_complete st = false) as Hinc.
          { apply is_complete_false. rewrite Hrule, Hpre, length_app. simpl. lia. }
          split; [done|].
          destruct (next_symbol_incomplete st Hinc) as (x & Hx & ->); [lia|].
          rewrite Hrule, Hpre, Hdot, Nat2Z.id in Hx.
          rewrite lookup_app_r, Nat.sub_diag in Hx by lia. simpl in Hx. congruence. }
        destruct (IHparts (pre ++ [sym])
          (advance st (Z.of_nat e, Z.of_nat (e + length part))) (e + length part))
          as (t & Ht & Hrest); simpl.
        + by rewrite <- app_assoc.
        + by apply IHd.
        + done.
        + done.
        + rewrite Hdot, length_app. simpl. lia.
        + done.
        + exists t. rewrite length_app, Nat.add_assoc. by split. }
    destruct (Hbody [] (mkState r 0 (Z.of_nat i) []) i) as (t & Ht & Hrule & Hstart & Hcomp);
      [by subst syms| |done..|].
    { by eapply closed_predict. }
    apply (closed_complete i (i + length (concat parts)) s t); try done.
    + destruct (concat parts); [done|]. simpl. lia.
    + by rewrite Hrule.
Qed.

Lemma initial_state_stored :
  extends (initial_chart words) F ->
  stored 0 (mkState start_rule 0 0 []).
Proof.
  intros Hext. eapply (extends_elem_of _ _ 0); [done|done|by left].
Qed.

Lemma derivable_accepted :
  extends (initial_chart words) F ->
  derives isupper rs S_symbol words ->
  exists last s, F !! length words = Some last /\ s ∈ last /\ accepting s.
Proof.
  intros Hext Hd.
  destruct (derives_advances _ _ Hd 0 (mkState start_rule 0 0 []))
    as (last & Hlast & Hin).
  - by apply initial_state_stored.
  - by split.
  - rewrite drop_0. apply firstn_all.
  - exists last, (advance (mkState start_rule 0 0 []) (0, Z.of_nat (length words))%Z).
    split_and!; [done..|]. by split_and!.
Qed.

End Complete.

Lemma build_chart_processed isupper rs words :
  exists F, build_chart isupper rs words = Ok F /\
    wf_chart rs words F /\ extends (initial_chart words) F /\
    forall i col n s,
      F !! i = Some col -> col !! n = Some s ->
      exists c1 c2,
        process isupper rs s i words c1 = Ok c2 /\ extends c2 F /\
        (forall a, a < i -> c1 !! a = F !! a).
Proof.
  destruct (build_chart_steps isupper rs words) as (F & HF & Hsteps & Hwf).
  exists F. split_and!; [done..|by eapply steps_extends|].
  revert HF. unfold build_chart. rewrite Nat.add_1_r. simpl replicate.
  change (_add_to_chart _ 0 _) with (Ok (initial_chart words)). cbn [bind].
  intros HF i col n s Hcol Hn.
  eapply for_loop_processed; [done| |done..].
  apply lookup_lt_Some in Hcol. destruct Hwf. lia.
Qed.

Lemma a_grammar_gamma_free : gamma_free a_grammar.
Proof.
  intros r Hr. unfold a_grammar in Hr.
  repeat (apply elem_of_cons in Hr as [->|Hr]); [| |by apply not_elem_of_nil in Hr];
    simpl; intros Hg; repeat (apply elem_of_cons in Hg as [Hg|Hg]; [done|]);
    by apply not_elem_of_nil in Hg.
Defined.

Lemma a_grammar_no_empty_rule r : r ∈ a_grammar -> body r <> [].
Proof.
  intros Hr. unfold a_grammar in Hr.
  repeat (apply elem_of_cons in Hr as [->|Hr]); [done..|].
  by apply not_elem_of_nil in Hr.
Defined.

(** X20: without empty rules, [parse] decides the language of the grammar.
    For every grammar whose rules have non-empty bodies that do not mention
    γ, and every sentence, [parse] returns, and it returns accepted = true
    exactly when the start symbol S derives the token sequence of the
    sentence; when it accepts (and 'S' is uppercase) it also returns a
    tree. *)
Theorem parse_decides_language isupper split self sentence :
  gamma_free (rules self) ->
  (forall r, r ∈ rules self -> body r <> []) ->
  exists c accepted tree,
    parse isupper split self sentence
      = Ok (mkEarleyParser (rules self) c, (accepted, tree)) /\
    (accepted = true <->
     derives isupper (rules self) S_symbol (split sentence)) /\
    (isupper 83%N = true -> accepted = true -> exists t, tree = Some t).
Proof.
  intros Hfree Hrules.
  destruct (build_chart_processed isupper (rules self) (split sentence))
    as (F & HF & Hwf & Hext & Hproc).
  assert (derived_chart isupper (split sentence) F) as Hder.
  { destruct (build_chart_derived isupper (rules self) (split sentence) Hfree)
      as (c & Hc & _ & Hder). by assert (c = F) as -> by congruence. }
  destruct (check_accepted_spec isupper (rules self) (split sentence) F Hwf Hder)
    as (last & accepted & tree & Hlast & Hcheck & Hiff & Hacc & _).
  exists F, accepted, tree. split_and!.
  - unfold parse. rewrite HF. cbn [bind]. by rewrite Hcheck.
  - split.
    + intros ->. by eapply check_accepted_sound.
    + intros Hd. apply Hiff.
      destruct (derivable_accepted isupper (rules self) (split sentence) Hrules F
        Hwf Hproc Hext Hd) as (last' & s & Hlast' & Hs & Haccepting).
      exists s. split; [congruence|done].
  - intros HS ->.
    destruct (Hacc eq_refl) as [(s & t & _ & _ & -> & _)|[Hnone _]]; [by eauto|].
    destruct (proj1 Hiff eq_refl) as (s & Hs & Hacc').
    destruct (accepted_no_tree isupper (rules self) (split sentence) F Hwf Hder
      last s Hlast Hs Hacc' Hnone) as [(_ & _ & Hr)|(Hnt & _)].
    + by apply Hrules in Hr.
    + simpl in Hnt. congruence.
Qed.

Lemma parse_decides_language_witness :
  gamma_free (rules (mkEarleyParser a_grammar [])) /\
  (forall r, r ∈ rules (mkEarleyParser a_grammar []) -> body r <> []) /\
  exists c accepted tree,
    parse ascii_isupper ascii_split (mkEarleyParser a_grammar [])
      [97; 32; 97]%N
      = Ok (mkEarleyParser (rules (mkEarleyParser a_grammar [])) c,
            (accepted, tree)) /\
    (accepted = true <->
     derives ascii_isupper (rules (mkEarleyParser a_grammar [])) S_symbol
       (ascii_split [97; 32; 97]%N)) /\
    (ascii_isupper 83%N = true -> accepted = true -> exists t, tree = Some t).
Proof.
  split; [exact a_grammar_gamma_free|].
  split; [exact a_grammar_no_empty_rule|].
  exact (parse_decides_language ascii_isupper ascii_split
    (mkEarleyParser a_grammar []) [97; 32; 97]%N a_grammar_gamma_free
    a_grammar_no_empty_rule).
Defined.

(** The restriction to grammars without empty rules cannot be dropped.  For
    [S → A X], [X → Y A], [A → B], [B → ε], [Y → ε], S derives the empty
    sentence, and [parse] rejects it: when [B → •] is completed in column 0
    the state [X → Y • A], which waits for the [A] that this completion
    produces, is not yet in that column, and nothing completes [A] again. *)
Example parse_misses_nullable_chain :
  gamma_free nullable_chain_grammar /\
  derives ascii_isupper nullable_chain_grammar S_symbol (ascii_split []) /\
  exists c, parse ascii_isupper ascii_split
    (mkEarleyParser nullable_chain_grammar []) []
    = Ok (mkEarleyParser nullable_chain_grammar c, (false, None)).
Proof.
  split_and!.
  - intros r Hr. unfold nullable_chain_grammar in Hr.
    repeat (apply elem_of_cons in Hr as [->|Hr]); [..|by apply not_elem_of_nil in Hr];
      simpl; intros Hg; repeat (apply elem_of_cons in Hg as [Hg|Hg]; [done|]);
      by apply not_elem_of_nil in Hg.
  - assert (derives ascii_isupper nullable_chain_grammar B_symbol []) as HB.
    { apply (derives_rule _ _ (mkRule B_symbol []) []); [|done|constructor].
      unfold nullable_chain_grammar. do 3 right. by left. }
    assert (derives ascii_isupper nullable_chain_grammar Y_symbol []) as HY.
    { apply (derives_rule _ _ (mkRule Y_symbol []) []); [|done|constructor].
      unfold nullable_chain_grammar. do 4 right. by left. }
    assert (derives ascii_isupper nullable_chain_grammar A_symbol []) as HA.
    { apply (derives_rule _ _ (mkRule A_symbol [B_symbol]) [[]]);
        [|done|by repeat constructor].
      unfold nullable_chain_grammar. do 2 right. by left. }
    assert (derives ascii_isupper nullable_chain_grammar X_symbol []) as HX.
    { apply (derives_rule _ _ (mkRule X_symbol [Y_symbol; A_symbol]) [[]; []]);
        [|done|by repeat constructor].
      unfold nullable_chain_grammar. right. by left. }
    apply (derives_rule _ _ (mkRule S_symbol [A_symbol; X_symbol]) [[]; []]);
      [by left|done|by repeat constructor].
  - eexists. vm_compute. reflexivity.
Qed.

(** Only terminals are derived as tokens. *)
Lemma derives_terminals isupper rs sym ws :
  derives isupper rs sym ws ->
  Forall (fun w => is_nonterminal isupper (Some w) = false /\ w <> []) ws.
Proof.
  intros Hd.
  induction Hd as [w Hnt Hne|r parts Hr Hnt Hparts] using derives_induction.
  - by apply Forall_singleton.
  - induction Hparts as [|sym part syms parts [_ Hpart] _ IH]; [done|].
    simpl. by apply Forall_app.
Qed.

(** X21: the chart [parse] ends with is closed under its three operations,
    for every grammar.  For a state of column [i] that waits for a
    nonterminal, the initial state of every rule of that nonterminal is in
    column [i]; for a state of column [i] that waits for the (non-empty)
    terminal that is token [i], the state advanced over (i, i + 1) is in
    column [i + 1]; and for a complete state of column [e] that started in
    an earlier column [a], every state of column [a] that waits for its
    head has its advanced state, over (a, e), in column [e]. *)
Theorem final_chart_closed isupper rs words (F : Chart) :
  build_chart isupper rs words = Ok F ->
  (forall i col s sym r,
     F !! i = Some col -> s ∈ col -> waits_for s sym ->
     is_nonterminal isupper (Some sym) = true -> r ∈ rs -> head r = sym ->
     mkState r 0 (Z.of_nat i) [] ∈ col) /\
  (forall i col s w,
     F !! i = Some col -> s ∈ col -> waits_for s w ->
     is_nonterminal isupper (Some w) = false -> w <> [] ->
     words !! i = Some w ->
     exists col', F !! S i = Some col' /\
       advance s (Z.of_nat i, Z.of_nat i + 1)%Z ∈ col') /\
  (forall a e colA colE s t,
     a < e -> F !! e = Some colE -> t ∈ colE ->
     is_complete t = true -> start t = Z.of_nat a ->
     F !! a = Some colA -> s ∈ colA -> waits_for s (head (rule t)) ->
     advance s (Z.of_nat a, Z.of_nat e) ∈ colE).
Proof.
  intros HF.
  destruct (build_chart_processed isupper rs words) as (F' & HF' & Hwf & _ & Hproc).
  assert (F' = F) as -> by congruence. split_and!.
  - intros i col s sym r Hcol Hs Hwait Hnt Hr Hhead.
    destruct (closed_predict isupper rs words F Hwf Hproc i s sym r)
      as (col' & Hcol' & Hin); [by eauto|done..|]. congruence.
  - intros i col s w Hcol Hs Hwait Hnt Hne Hw.
    apply (closed_scan isupper rs words F Hwf Hproc i s w); by eauto.
  - intros a e colA colE s t Hae HcolE Ht Hcomp Hstart HcolA Hs Hwait.
    destruct (closed_complete isupper rs words F Hwf Hproc a e s t)
      as (col' & Hcol' & Hin); [by eauto..|]. congruence.
Qed.

Lemma final_chart_closed_witness :
  build_chart ascii_isupper epsilon_grammar [x_symbol] = Ok epsilon_chart /\
  (forall i col s w,
     epsilon_chart !! i = Some col -> s ∈ col -> waits_for s w ->
     is_nonterminal ascii_isupper (Some w) = false -> w <> [] ->
     [x_symbol] !! i = Some w ->
     exists col', epsilon_chart !! S i = Some col' /\
       advance s (Z.of_nat i, Z.of_nat i + 1)%Z ∈ col').
Proof.
  split; [exact epsilon_build_chart|].
  exact (proj1 (proj2 (final_chart_closed ascii_isupper epsilon_grammar
    [x_symbol] epsilon_chart epsilon_build_chart))).
Defined.

(** X22: a token that begins with an uppercase letter is never matched.
    [parse] calls [scan] only for a symbol that is not a nonterminal, so a
    sentence with a token whose first character is uppercase is rejected,
    whatever the grammar (rule bodies without γ): [parse] returns
    (False, None). *)
Theorem parse_rejects_uppercase_token isupper split self sentence w :
  gamma_free (rules self) ->
  w ∈ split sentence -> is_nonterminal isupper (Some w) = true ->
  exists c, parse isupper split self sentence
    = Ok (mkEarleyParser (rules self) c, (false, None)).
Proof.
  intros Hfree Hw Hupper.
  destruct (parse_spec isupper split self sentence Hfree)
    as (c & last & accepted & tree & _ & _ & Hparse & _ & _ & Hrej).
  destruct accepted; [|exists c; by rewrite (Hrej eq_refl) in Hparse].
  exfalso.
  destruct (parse_Ok_inv _ _ _ _ _ _ _ Hfree Hparse) as (c' & Hwf & Hder & Hcheck).
  pose proof (check_accepted_sound isupper (rules self) (split sentence) Hfree
    c' Hwf Hder tree Hcheck) as Hd.
  apply derives_terminals in Hd. rewrite Forall_forall in Hd.
  destruct (Hd w Hw) as [Hnt _]. congruence.
Qed.

Lemma parse_rejects_uppercase_token_witness :
  gamma_free (rules epsilon_parser) /\
  A_symbol ∈ ascii_split A_symbol /\
  is_nonterminal ascii_isupper (Some A_symbol) = true /\
  exists c, parse ascii_isupper ascii_split epsilon_parser A_symbol
    = Ok (mkEarleyParser (rules epsilon_parser) c, (false, None)).
Proof.
  assert (A_symbol ∈ ascii_split A_symbol) as Hin by (vm_compute; left).
  split; [exact epsilon_grammar_gamma_free|].
  split; [exact Hin|]. split; [reflexivity|].
  exact (parse_rejects_uppercase_token ascii_isupper ascii_split epsilon_parser
    A_symbol A_symbol epsilon_grammar_gamma_free Hin eq_refl).
Defined.
